(** * Our-Lang front end: lexer, parser, symbol table and semantic analyzer

    A shallow embedding of [semantic_analyzer.cpp].  Every definition below is
    the translation of the C++ member function of the same name; the C++
    classes become records, their mutable members become explicit state that
    is passed in and returned. *)

From Stdlib Require Import ZArith Ascii String.
From stdpp Require Import gmap strings list fin_maps pretty.

Local Open Scope string_scope.
Local Open Scope list_scope.
#[local] Set Warnings "-register-all,-non-full-mutual".

(** ** Type system *)

(** [enum class DataType].  The two scoped enumerations of the source share
    the constructor names [NUMBER], [STRING] and [UNKNOWN]; each lives in a
    module of its own, as [DataType::NUMBER] and [TokenType::NUMBER] do. *)
Module DataType.

Inductive t := UNKNOWN | NUMBER | STRING | BOOLEAN | ARRAY | OBJECT | VOID | NIL.

#[global] Instance eq_dec : EqDecision t.
Proof. solve_decision. Defined.

End DataType.

Definition dataTypeToString (type : DataType.t) : string :=
  match type with
  | DataType.NUMBER => "number"
  | DataType.STRING => "string"
  | DataType.BOOLEAN => "boolean"
  | DataType.ARRAY => "array"
  | DataType.OBJECT => "object"
  | DataType.VOID => "void"
  | DataType.NIL => "nil"
  | _ => "unknown"
  end.

(** ** Symbol table and scope management *)

Record Symbol := mkSymbol {
  name : string;
  type : DataType.t;
  isFunction : bool;
  isInitialized : bool;
  paramTypes : list DataType.t;
  returnType : DataType.t
}.

(** [Symbol(n, t, func = false, init = true)]: the four-argument constructor;
    the parameter list starts empty and the return type is [VOID]. *)
Definition Symbol_ (n : string) (t : DataType.t) (func init : bool) : Symbol :=
  mkSymbol n t func init [] DataType.VOID.

(** [sym.isInitialized = true]. *)
Definition set_isInitialized (s : Symbol) : Symbol :=
  mkSymbol (name s) (type s) (isFunction s) true (paramTypes s) (returnType s).

(** [class SymbolTable].  [scopes] is the vector of the source: index 0 is the
    global scope and the last element ([scopes.back()]) the innermost one. *)
Module SymbolTable.

Record t := mk { scopes : list (gmap string Symbol) }.

Definition enterScope (tbl : t) : t :=
  mk (scopes tbl ++ [∅]).

Definition exitScope (tbl : t) : t :=
  if decide (1 < length (scopes tbl)) then mk (removelast (scopes tbl)) else tbl.

(** [scopes.back()[n] = Symbol(n, ty, isFunc, isInit)]: the innermost scope is
    replaced in place.  On an empty vector [back()] is undefined in C++; the
    model leaves the table alone there, and the vector is never empty (see
    [globalAtZero] below). *)
Definition define (n : string) (ty : DataType.t) (isFunc isInit : bool) (tbl : t)
  : bool * t :=
  match last (scopes tbl) with
  | None => (false, tbl)
  | Some cur =>
      match cur !! n with
      | Some _ => (false, tbl)
      | None =>
          (true, mk (<[pred (length (scopes tbl)) := <[n := Symbol_ n ty isFunc isInit]> cur]>
                       (scopes tbl)))
      end
  end.

(** The loop [for (it = scopes.rbegin(); it != scopes.rend(); ++it)] of
    [lookup], over the scopes listed innermost first. *)
Fixpoint lookup_from (inner_first : list (gmap string Symbol)) (n : string)
  : option Symbol :=
  match inner_first with
  | [] => None
  | sc :: outer =>
      match sc !! n with
      | Some sym => Some sym
      | None => lookup_from outer n
      end
  end.

Definition lookup (n : string) (tbl : t) : option Symbol :=
  lookup_from (reverse (scopes tbl)) n.

(** The same loop in [update]: the nearest binding gets
    [isInitialized = true]. *)
Fixpoint update_from (inner_first : list (gmap string Symbol)) (n : string)
  : option (list (gmap string Symbol)) :=
  match inner_first with
  | [] => None
  | sc :: outer =>
      match sc !! n with
      | Some sym => Some (<[n := set_isInitialized sym]> sc :: outer)
      | None => (sc ::.) <$> update_from outer n
      end
  end.

Definition update (n : string) (tbl : t) : bool * t :=
  match update_from (reverse (scopes tbl)) n with
  | Some inner_first => (true, mk (reverse inner_first))
  | None => (false, tbl)
  end.

(** [scopes[0][n] = sym]. *)
Definition addFunctionSignature (n : string) (params : list DataType.t)
    (ret : DataType.t) (tbl : t) : t :=
  let sym := mkSymbol n DataType.VOID true true params ret in
  match scopes tbl with
  | [] => tbl
  | global :: inner => mk (<[n := sym]> global :: inner)
  end.

Definition initBuiltins (tbl : t) : t :=
  let tbl := addFunctionSignature "dekh" [DataType.UNKNOWN] DataType.VOID tbl in
  let tbl := addFunctionSignature "lou" [DataType.STRING] DataType.NUMBER tbl in
  let tbl := addFunctionSignature "nikal" [DataType.UNKNOWN] DataType.NUMBER tbl in
  let tbl := addFunctionSignature "band" [] DataType.VOID tbl in
  let tbl := addFunctionSignature "abs" [DataType.NUMBER] DataType.NUMBER tbl in
  let tbl := addFunctionSignature "sqrt" [DataType.NUMBER] DataType.NUMBER tbl in
  let tbl := addFunctionSignature "pow" [DataType.NUMBER; DataType.NUMBER] DataType.NUMBER tbl in
  let tbl := addFunctionSignature "max" [DataType.NUMBER; DataType.NUMBER] DataType.NUMBER tbl in
  let tbl := addFunctionSignature "min" [DataType.NUMBER; DataType.NUMBER] DataType.NUMBER tbl in
  let tbl := addFunctionSignature "round" [DataType.NUMBER] DataType.NUMBER tbl in
  addFunctionSignature "random" [] DataType.NUMBER tbl.

(** The constructor [SymbolTable()]. *)
Definition new : t := initBuiltins (mk [∅]).

End SymbolTable.

(** ** AST node definitions *)

(** The [Expression] hierarchy as one inductive type; a [std::vector] of
    owned children is a [list].  [NumberLiteral] keeps the text of the
    literal: its [double] value, [std::stod] of that text, is never read by
    the analyzer (for the call see [Parser.stod_throws]).  The [type] member
    that the analyzer stamps on an [Identifier] node is never read back in
    the source and is not represented. *)
Inductive Expression :=
| NumberLiteral (value : string)
| StringLiteral (value : string)
| BooleanLiteral (value : bool)
| Identifier (name : string)
| BinaryOp (left : Expression) (op : string) (right : Expression)
| UnaryOp (op : string) (operand : Expression)
| Assignment (name : string) (value : Expression)
| FunctionCall (name : string) (args : list Expression)
| ArrayLiteral (elements : list Expression)
| ObjectLiteral (members : list (string * Expression))
| ArrayAccess (arrayName : string) (index : Expression).

(** A [std::unique_ptr<Expression>] that the parser may leave null (the
    initializer of a declaration, the value of a return) is an [option]; the
    source tests both before it calls [analyzeExpression].  All other child
    pointers are non-null in every tree the parser builds. *)
Inductive Statement :=
| VariableDeclaration (name : string) (initializer : option Expression)
| FunctionDeclaration (name : string) (params : list string) (body : list Statement)
| IfStatement (condition : Expression) (thenBranch elseBranch : list Statement)
| LoopStatement (condition : Expression) (body : list Statement)
| ReturnStatement (value : option Expression)
| ExpressionStatement (expr : Expression).

Record Program := mkProgram { statements : list Statement }.

(** ** Semantic analyzer *)

Record SemanticAnalyzer := mkAnalyzer {
  symbolTable : SymbolTable.t;
  errors : list string;
  currentReturnType : DataType.t;
  inFunction : bool
}.

(** The constructor [SemanticAnalyzer()]. *)
Definition newAnalyzer : SemanticAnalyzer :=
  mkAnalyzer SymbolTable.new [] DataType.VOID false.

(** [errors.push_back(msg)]. *)
Definition push_error (msg : string) (a : SemanticAnalyzer) : SemanticAnalyzer :=
  mkAnalyzer (symbolTable a) (errors a ++ [msg]) (currentReturnType a) (inFunction a).

(** The analyzer after a call that mutates its [symbolTable] member. *)
Definition with_symbolTable (tbl : SymbolTable.t) (a : SemanticAnalyzer) : SemanticAnalyzer :=
  mkAnalyzer tbl (errors a) (currentReturnType a) (inFunction a).

(** [inFunction = inFn; currentReturnType = ret;]. *)
Definition with_function_context (inFn : bool) (ret : DataType.t) (a : SemanticAnalyzer)
  : SemanticAnalyzer :=
  mkAnalyzer (symbolTable a) (errors a) ret inFn.

(** The member functions that [analyzeExpression] dispatches to call it back
    on their children.  They are written here against the recursive function
    as a section variable and tied together by the [Fixpoint] below. *)
Section ExpressionCases.

Variable analyzeExpression : Expression → SemanticAnalyzer → DataType.t * SemanticAnalyzer.

Definition analyzeBinaryOp (left : Expression) (op : string) (right : Expression)
    (a : SemanticAnalyzer) : DataType.t * SemanticAnalyzer :=
  let '(leftType, a) := analyzeExpression left a in
  let '(rightType, a) := analyzeExpression right a in
  if bool_decide (op = "+" ∨ op = "-" ∨ op = "*" ∨ op = "/" ∨ op = "%") then
    let a :=
      if bool_decide (leftType ≠ DataType.NUMBER ∧ leftType ≠ DataType.UNKNOWN
                      ∧ leftType ≠ DataType.VOID)
      then push_error ("ERROR: Left operand of '" +:+ op +:+ "' must be number") a else a in
    let a :=
      if bool_decide (rightType ≠ DataType.NUMBER ∧ rightType ≠ DataType.UNKNOWN
                      ∧ rightType ≠ DataType.VOID)
      then push_error ("ERROR: Right operand of '" +:+ op +:+ "' must be number") a else a in
    (DataType.NUMBER, a)
  else if bool_decide (op = "<" ∨ op = "<=" ∨ op = ">" ∨ op = ">=") then
    let a :=
      if bool_decide (leftType ≠ DataType.NUMBER ∧ leftType ≠ DataType.UNKNOWN)
      then push_error ("ERROR: Left operand of '" +:+ op +:+ "' must be number") a else a in
    let a :=
      if bool_decide (rightType ≠ DataType.NUMBER ∧ rightType ≠ DataType.UNKNOWN)
      then push_error ("ERROR: Right operand of '" +:+ op +:+ "' must be number") a else a in
    (DataType.BOOLEAN, a)
  else if bool_decide (op = "==" ∨ op = "!=") then
    (DataType.BOOLEAN, a)
  else if bool_decide (op = "&&" ∨ op = "||") then
    let a :=
      if bool_decide (leftType ≠ DataType.BOOLEAN ∧ leftType ≠ DataType.UNKNOWN)
      then push_error ("ERROR: Left operand of '" +:+ op +:+ "' must be boolean") a else a in
    let a :=
      if bool_decide (rightType ≠ DataType.BOOLEAN ∧ rightType ≠ DataType.UNKNOWN)
      then push_error ("ERROR: Right operand of '" +:+ op +:+ "' must be boolean") a else a in
    (DataType.BOOLEAN, a)
  else (DataType.UNKNOWN, a).

Definition analyzeUnaryOp (op : string) (operand : Expression) (a : SemanticAnalyzer)
  : DataType.t * SemanticAnalyzer :=
  let '(operandType, a) := analyzeExpression operand a in
  if bool_decide (op = "-") then
    let a :=
      if bool_decide (operandType ≠ DataType.NUMBER ∧ operandType ≠ DataType.UNKNOWN)
      then push_error "ERROR: Operand of '-' must be number" a else a in
    (DataType.NUMBER, a)
  else if bool_decide (op = "!") then
    let a :=
      if bool_decide (operandType ≠ DataType.BOOLEAN ∧ operandType ≠ DataType.UNKNOWN)
      then push_error "ERROR: Operand of '!' must be boolean" a else a in
    (DataType.BOOLEAN, a)
  else (DataType.UNKNOWN, a).

Definition analyzeAssignment (n : string) (value : Expression) (a : SemanticAnalyzer)
  : DataType.t * SemanticAnalyzer :=
  match SymbolTable.lookup n (symbolTable a) with
  | None => (DataType.UNKNOWN, push_error ("ERROR: Undefined variable '" +:+ n +:+ "'") a)
  | Some sym =>
      let '(valueType, a) := analyzeExpression value a in
      let a :=
        if bool_decide (type sym ≠ DataType.UNKNOWN ∧ valueType ≠ DataType.UNKNOWN
                        ∧ type sym ≠ valueType)
        then push_error ("ERROR: Type mismatch in assignment to '" +:+ n +:+
                         "': expected " +:+ dataTypeToString (type sym) +:+
                         ", got " +:+ dataTypeToString valueType) a
        else a in
      let a := with_symbolTable (SymbolTable.update n (symbolTable a)).2 a in
      (valueType, a)
  end.

(** [for (auto& arg : args) analyzeExpression(arg.get());] *)
Definition analyzeArguments (args : list Expression) (a : SemanticAnalyzer)
  : SemanticAnalyzer :=
  foldl (λ a arg, (analyzeExpression arg a).2) a args.

Definition analyzeFunctionCall (n : string) (args : list Expression) (a : SemanticAnalyzer)
  : DataType.t * SemanticAnalyzer :=
  match SymbolTable.lookup n (symbolTable a) with
  | None => (DataType.UNKNOWN, push_error ("ERROR: Undefined function '" +:+ n +:+ "'") a)
  | Some funcSym =>
      if negb (isFunction funcSym) then
        (DataType.UNKNOWN, push_error ("ERROR: '" +:+ n +:+ "' is not a function") a)
      else if bool_decide (n = "dekh") then
        (DataType.VOID, analyzeArguments args a)
      else if bool_decide (n = "lou") then
        match args with
        | arg0 :: _ => (DataType.NUMBER, (analyzeExpression arg0 a).2)
        | [] => (DataType.NUMBER, a)
        end
      else if bool_decide (n = "nikal") then
        match args with
        | [arg0] => (DataType.NUMBER, (analyzeExpression arg0 a).2)
        | _ => (DataType.NUMBER,
                push_error ("ERROR: nikal() expects 1 argument, got " +:+ pretty (length args)) a)
        end
      else if bool_decide (n = "band") then
        (DataType.VOID, a)
      else if bool_decide (n = "abs" ∨ n = "sqrt" ∨ n = "round") then
        match args with
        | [arg0] =>
            let '(argType, a) := analyzeExpression arg0 a in
            (DataType.NUMBER,
             if bool_decide (argType ≠ DataType.NUMBER ∧ argType ≠ DataType.UNKNOWN)
             then push_error ("ERROR: " +:+ n +:+ "() expects number argument") a else a)
        | _ => (DataType.NUMBER, push_error ("ERROR: " +:+ n +:+ "() expects 1 argument") a)
        end
      else if bool_decide (n = "pow" ∨ n = "max" ∨ n = "min") then
        if bool_decide (length args ≠ 2) then
          (DataType.NUMBER, push_error ("ERROR: " +:+ n +:+ "() expects 2 arguments") a)
        else
          (DataType.NUMBER,
           foldl (λ a arg,
                    let '(argType, a) := analyzeExpression arg a in
                    if bool_decide (argType ≠ DataType.NUMBER ∧ argType ≠ DataType.UNKNOWN)
                    then push_error ("ERROR: " +:+ n +:+ "() expects number arguments") a
                    else a) a args)
      else if bool_decide (n = "random") then
        (DataType.NUMBER, a)
      else
        let a :=
          if bool_decide (length args ≠ length (paramTypes funcSym)) then
            push_error ("ERROR: Function '" +:+ n +:+ "' expects " +:+
                        pretty (length (paramTypes funcSym)) +:+ " arguments, got " +:+
                        pretty (length args)) a
          else a in
        (returnType funcSym, analyzeArguments args a)
  end.

(** The [ArrayAccess] case of [analyzeExpression]. *)
Definition analyzeArrayAccess (arrayName : string) (index : Expression) (a : SemanticAnalyzer)
  : DataType.t * SemanticAnalyzer :=
  match SymbolTable.lookup arrayName (symbolTable a) with
  | Some sym =>
      let a :=
        if bool_decide (type sym ≠ DataType.ARRAY ∧ type sym ≠ DataType.UNKNOWN)
        then push_error ("ERROR: Cannot index non-array type '" +:+ arrayName +:+ "'") a
        else a in
      let '(indexType, a) := analyzeExpression index a in
      let a :=
        if bool_decide (indexType ≠ DataType.NUMBER ∧ indexType ≠ DataType.UNKNOWN)
        then push_error ("ERROR: Array index must be number, got " +:+
                         dataTypeToString indexType) a
        else a in
      (DataType.UNKNOWN, a)
  | None =>
      (DataType.UNKNOWN, push_error ("ERROR: Undefined array '" +:+ arrayName +:+ "'") a)
  end.

End ExpressionCases.

Fixpoint analyzeExpression (expr : Expression) (a : SemanticAnalyzer) {struct expr}
  : DataType.t * SemanticAnalyzer :=
  match expr with
  | NumberLiteral _ => (DataType.NUMBER, a)
  | StringLiteral _ => (DataType.STRING, a)
  | BooleanLiteral _ => (DataType.BOOLEAN, a)
  | Identifier n =>
      match SymbolTable.lookup n (symbolTable a) with
      | Some sym => (type sym, a)
      | None => (DataType.UNKNOWN, push_error ("ERROR: Undefined variable '" +:+ n +:+ "'") a)
      end
  | BinaryOp l op r => analyzeBinaryOp analyzeExpression l op r a
  | UnaryOp op operand => analyzeUnaryOp analyzeExpression op operand a
  | Assignment n value => analyzeAssignment analyzeExpression n value a
  | FunctionCall n args => analyzeFunctionCall analyzeExpression n args a
  | ArrayLiteral _ => (DataType.ARRAY, a)
  | ObjectLiteral _ => (DataType.OBJECT, a)
  | ArrayAccess arrayName index => analyzeArrayAccess analyzeExpression arrayName index a
  end.

(** The statement cases, against [analyzeStatement] as a section variable. *)
Section StatementCases.

Variable analyzeStatement : Statement → SemanticAnalyzer → SemanticAnalyzer.

(** [for (auto& stmt : block) analyzeStatement(stmt.get());] *)
Definition analyzeBlock (block : list Statement) (a : SemanticAnalyzer) : SemanticAnalyzer :=
  foldl (λ a stmt, analyzeStatement stmt a) a block.

Definition analyzeVariableDeclaration (n : string) (initializer : option Expression)
    (a : SemanticAnalyzer) : SemanticAnalyzer :=
  let '(varType, a) :=
    match initializer with
    | Some init => analyzeExpression init a
    | None => (DataType.UNKNOWN, a)
    end in
  let '(defined, tbl) := SymbolTable.define n varType false true (symbolTable a) in
  let a := with_symbolTable tbl a in
  if negb defined then
    push_error ("ERROR: Variable '" +:+ n +:+ "' already defined in current scope") a
  else a.

(** [for (const auto& param : params) symbolTable.define(param, UNKNOWN);]
    the result of [define] is dropped. *)
Definition defineParameters (params : list string) (a : SemanticAnalyzer) : SemanticAnalyzer :=
  foldl (λ a param,
           with_symbolTable
             (SymbolTable.define param DataType.UNKNOWN false true (symbolTable a)).2 a)
        a params.

Definition analyzeFunctionDeclaration (n : string) (params : list string)
    (body : list Statement) (a : SemanticAnalyzer) : SemanticAnalyzer :=
  let paramTypes := replicate (length params) DataType.UNKNOWN in
  let a := with_symbolTable
             (SymbolTable.addFunctionSignature n paramTypes DataType.VOID (symbolTable a)) a in
  let a := with_symbolTable (SymbolTable.enterScope (symbolTable a)) a in
  let prevInFunction := inFunction a in
  let prevReturnType := currentReturnType a in
  let a := with_function_context true DataType.UNKNOWN a in
  let a := defineParameters params a in
  let a := analyzeBlock body a in
  let a := with_function_context prevInFunction prevReturnType a in
  with_symbolTable (SymbolTable.exitScope (symbolTable a)) a.

Definition analyzeIfStatement (condition : Expression) (thenBranch elseBranch : list Statement)
    (a : SemanticAnalyzer) : SemanticAnalyzer :=
  let '(condType, a) := analyzeExpression condition a in
  let a :=
    if bool_decide (condType ≠ DataType.BOOLEAN ∧ condType ≠ DataType.UNKNOWN
                    ∧ condType ≠ DataType.VOID)
    then push_error ("ERROR: If condition must be boolean, got " +:+
                     dataTypeToString condType) a
    else a in
  let a := with_symbolTable (SymbolTable.enterScope (symbolTable a)) a in
  let a := analyzeBlock thenBranch a in
  let a := with_symbolTable (SymbolTable.exitScope (symbolTable a)) a in
  match elseBranch with
  | [] => a
  | _ :: _ =>
      let a := with_symbolTable (SymbolTable.enterScope (symbolTable a)) a in
      let a := analyzeBlock elseBranch a in
      with_symbolTable (SymbolTable.exitScope (symbolTable a)) a
  end.

Definition analyzeLoopStatement (condition : Expression) (body : list Statement)
    (a : SemanticAnalyzer) : SemanticAnalyzer :=
  let '(condType, a) := analyzeExpression condition a in
  let a :=
    if bool_decide (condType ≠ DataType.BOOLEAN ∧ condType ≠ DataType.UNKNOWN
                    ∧ condType ≠ DataType.VOID)
    then push_error ("ERROR: Loop condition must be boolean, got " +:+
                     dataTypeToString condType) a
    else a in
  let a := with_symbolTable (SymbolTable.enterScope (symbolTable a)) a in
  let a := analyzeBlock body a in
  with_symbolTable (SymbolTable.exitScope (symbolTable a)) a.

Definition analyzeReturnStatement (value : option Expression) (a : SemanticAnalyzer)
  : SemanticAnalyzer :=
  if negb (inFunction a) then push_error "ERROR: Return statement outside function" a
  else
    match value with
    | Some v => (analyzeExpression v a).2
    | None => a
    end.

End StatementCases.

Fixpoint analyzeStatement (stmt : Statement) (a : SemanticAnalyzer) {struct stmt}
  : SemanticAnalyzer :=
  match stmt with
  | VariableDeclaration n initializer => analyzeVariableDeclaration n initializer a
  | FunctionDeclaration n params body =>
      analyzeFunctionDeclaration analyzeStatement n params body a
  | IfStatement condition thenBranch elseBranch =>
      analyzeIfStatement analyzeStatement condition thenBranch elseBranch a
  | LoopStatement condition body => analyzeLoopStatement analyzeStatement condition body a
  | ReturnStatement value => analyzeReturnStatement value a
  | ExpressionStatement expr => (analyzeExpression expr a).2
  end.

(** [SemanticAnalyzer::analyze].  Nothing that the traversal calls throws, so
    the [catch] arm of the source is never entered and has no counterpart. *)
Definition analyze (program : Program) (a : SemanticAnalyzer) : bool * SemanticAnalyzer :=
  let a := analyzeBlock analyzeStatement (statements program) a in
  match SymbolTable.lookup "main" (symbolTable a) with
  | None => (false, push_error "ERROR: Main function 'kaam main()' not found" a)
  | Some _ => (bool_decide (errors a = []), a)
  end.

(** ** Token types and lexer *)

Module TokenType.

Inductive t :=
| BANAO | KAAM | AGAR | WARNAH | DAURA | WAPAS | DEKH | LOU | HAAN | NA | BAND
| NUMBER | STRING | IDENTIFIER
| PLUS | MINUS | STAR | SLASH | PERCENT | ASSIGN
| PLUS_ASSIGN | MINUS_ASSIGN | STAR_ASSIGN | SLASH_ASSIGN
| EQ | NE | LT | GT | LE | GE | AND | OR | NOT
| LPAREN | RPAREN | LBRACE | RBRACE | LBRACKET | RBRACKET
| SEMICOLON | COMMA | COLON | DOT
| EOF_TOKEN | UNKNOWN.

#[global] Instance eq_dec : EqDecision t.
Proof. solve_decision. Defined.

End TokenType.

(** [int] is 32 bits wide.  The counters [line] and [column] are only ever
    incremented; an increment of [INT_MAX] is undefined in C++, and the
    compiled program wraps around to [INT_MIN], which is what the model
    does. *)
Definition wrap_int (z : Z) : Z := ((z + 2 ^ 31) mod 2 ^ 32 - 2 ^ 31)%Z.

(** [struct Token].  [line] and [column] are [int] in the source. *)
Module Token.

Record t := mk { type : TokenType.t; value : string; line : Z; column : Z }.

(** [Token(ty)] with the defaulted arguments [v = ""], [l = 0], [c = 0]. *)
Definition of_type (ty : TokenType.t) : t := mk ty EmptyString 0 0.

End Token.

(** The character classes of [<cctype>] in the "C" locale; a byte above 127
    belongs to none of them. *)
Definition isdigit (c : ascii) : bool :=
  let n := nat_of_ascii c in bool_decide (48 ≤ n ≤ 57)%nat.

Definition isalpha (c : ascii) : bool :=
  let n := nat_of_ascii c in bool_decide (65 ≤ n ≤ 90 ∨ 97 ≤ n ≤ 122)%nat.

Definition isalnum (c : ascii) : bool := isalpha c || isdigit c.

Definition isspace (c : ascii) : bool :=
  let n := nat_of_ascii c in bool_decide (9 ≤ n ≤ 13 ∨ n = 32)%nat.

Definition newline : ascii := ascii_of_nat 10.
Definition single_quote : ascii := ascii_of_nat 39.
Definition double_quote : ascii := ascii_of_nat 34.

Module Lexer.

(** [class Lexer].  [accessed] is not a member of the class: it records, in
    order, every index [i] at which the code has evaluated [source[i]], so
    that statements about which characters are read can be made. *)
Record t := mk {
  source : string;
  pos : nat;
  line : Z;
  column : Z;
  accessed : list nat
}.

(** The constructor [Lexer(src)]. *)
Definition new (src : string) : t := mk src 0 1 1 [].

(** Member functions read and update the lexer: a state monad. *)
Definition M (A : Type) : Type := t → A * t.

#[global] Instance M_ret : MRet M := λ A x lx, (x, lx).
#[global] Instance M_bind : MBind M := λ A B f m lx, let '(x, lx) := m lx in f x lx.

Definition get : M t := λ lx, (lx, lx).

(** [source[i]].  [std::string::operator[]] yields the terminating
    ['\0'] at [i = source.length()]. *)
Definition at_ (i : nat) : M ascii :=
  λ lx, (default zero (String.get i (source lx)),
         mk (source lx) (pos lx) (line lx) (column lx) (accessed lx ++ [i])).

(** [pos++]. *)
Definition incr_pos : M () :=
  λ lx, ((), mk (source lx) (S (pos lx)) (line lx) (column lx) (accessed lx)).

(** [column++]. *)
Definition incr_column : M () :=
  λ lx, ((), mk (source lx) (pos lx) (line lx) (wrap_int (column lx + 1)) (accessed lx)).

(** [line++; column = 1;]. *)
Definition next_line : M () :=
  λ lx, ((), mk (source lx) (pos lx) (wrap_int (line lx + 1)) 1 (accessed lx)).

(** [pos + k < source.length()]. *)
Definition in_range (k : nat) : M bool :=
  λ lx, (bool_decide (pos lx + k < String.length (source lx)), lx).

(** The loops of the lexer advance [pos] in every iteration and stop at
    [source.length()]; a loop is given [fuel] iterations, and every caller
    passes the length of the source. *)

(** [while (pos < source.length() && source[pos] != '\n') pos++;] *)
Fixpoint skipComment (fuel : nat) : M () :=
  match fuel with
  | 0 => mret ()
  | S fuel =>
      inside ← in_range 0;
      if inside : bool then
        lx ← get;
        c ← at_ (pos lx);
        if bool_decide (c ≠ newline) then incr_pos;; skipComment fuel else mret ()
      else mret ()
  end.

(** [if (c == '\n') { line++; column = 1; } else { column++; }] *)
Definition count_char (c : ascii) : M () :=
  if bool_decide (c = newline) then next_line else incr_column.

Fixpoint skipWhitespaceAndComments_loop (fuel : nat) : M () :=
  match fuel with
  | 0 => mret ()
  | S fuel =>
      inside ← in_range 0;
      if inside : bool then
        lx ← get;
        c ← at_ (pos lx);
        if isspace c then
          c ← at_ (pos lx);
          count_char c;;
          incr_pos;;
          skipWhitespaceAndComments_loop fuel
        else
          c ← at_ (pos lx);
          if bool_decide (c = "/"%char) then
            more ← in_range 1;
            if more : bool then
              c ← at_ (pos lx + 1);
              if bool_decide (c = "/"%char) then
                skipComment (String.length (source lx));;
                skipWhitespaceAndComments_loop fuel
              else mret ()
            else mret ()
          else mret ()
      else mret ()
  end.

Definition skipWhitespaceAndComments : M () :=
  lx ← get;
  skipWhitespaceAndComments_loop (String.length (source lx)).

(** [value += c] *)
Definition append_char (value : string) (c : ascii) : string :=
  value +:+ String c EmptyString.

(** [while (pos < source.length() && source[pos] != quote) { ... }] *)
Fixpoint scanString_loop (fuel : nat) (quote : ascii) (value : string) : M string :=
  match fuel with
  | 0 => mret value
  | S fuel =>
      inside ← in_range 0;
      if inside : bool then
        lx ← get;
        c ← at_ (pos lx);
        if bool_decide (c ≠ quote) then
          c ← at_ (pos lx);
          count_char c;;
          c ← at_ (pos lx);
          incr_pos;;
          scanString_loop fuel quote (append_char value c)
        else mret value
      else mret value
  end.

Definition scanString (quote : ascii) : M Token.t :=
  lx ← get;
  let tokenLine := line lx in
  let tokenCol := column lx in
  incr_pos;;
  incr_column;;
  value ← scanString_loop (String.length (source lx)) quote EmptyString;
  inside ← in_range 0;
  (if inside : bool then incr_pos;; incr_column else mret ());;
  mret (Token.mk TokenType.STRING value tokenLine tokenCol).

(** The loop shared by [scanNumber] and [scanIdentifierOrKeyword]:
    [while (pos < source.length() && (first(source[pos]) || source[pos] == other))
       { value += source[pos]; pos++; column++; }]
    The second operand of [||] reads [source[pos]] again, and only if the
    first is false. *)
Fixpoint scanWhile (fuel : nat) (first : ascii → bool) (other : ascii) (value : string)
  : M string :=
  match fuel with
  | 0 => mret value
  | S fuel =>
      inside ← in_range 0;
      if inside : bool then
        lx ← get;
        c ← at_ (pos lx);
        accepted ← (if first c then mret true
                    else c ← at_ (pos lx); mret (bool_decide (c = other)));
        if accepted : bool then
          c ← at_ (pos lx);
          incr_pos;;
          incr_column;;
          scanWhile fuel first other (append_char value c)
        else mret value
      else mret value
  end.

Definition scanNumber : M Token.t :=
  lx ← get;
  let tokenLine := line lx in
  let tokenCol := column lx in
  value ← scanWhile (String.length (source lx)) isdigit "."%char EmptyString;
  mret (Token.mk TokenType.NUMBER value tokenLine tokenCol).

Definition keywords : gmap string TokenType.t :=
  list_to_map
    [("banao", TokenType.BANAO); ("kaam", TokenType.KAAM); ("agar", TokenType.AGAR);
     ("warnah", TokenType.WARNAH); ("daura", TokenType.DAURA); ("wapas", TokenType.WAPAS);
     ("dekh", TokenType.DEKH); ("lou", TokenType.LOU); ("haan", TokenType.HAAN);
     ("na", TokenType.NA); ("band", TokenType.BAND)].

Definition scanIdentifierOrKeyword : M Token.t :=
  lx ← get;
  let tokenLine := line lx in
  let tokenCol := column lx in
  value ← scanWhile (String.length (source lx)) isalnum "_"%char EmptyString;
  match keywords !! value with
  | Some kw => mret (Token.mk kw value tokenLine tokenCol)
  | None => mret (Token.mk TokenType.IDENTIFIER value tokenLine tokenCol)
  end.

(** [source[pos] == next ? (pos++, column++, Token(two, ...)) : Token(one, ...)]:
    the one-character lookahead of the operator cases.  [pos] has already
    been advanced past the operator character and is not compared with
    [source.length()] here. *)
Definition lookahead (next : ascii) (two : TokenType.t) (twoText : string)
    (one : TokenType.t) (oneText : string) (tokenLine tokenCol : Z) : M Token.t :=
  lx ← get;
  c ← at_ (pos lx);
  if bool_decide (c = next) then
    incr_pos;; incr_column;; mret (Token.mk two twoText tokenLine tokenCol)
  else mret (Token.mk one oneText tokenLine tokenCol).

Definition nextToken : M Token.t :=
  skipWhitespaceAndComments;;
  lx ← get;
  if bool_decide (String.length (source lx) ≤ pos lx)%nat then
    mret (Token.mk TokenType.EOF_TOKEN EmptyString (line lx) (column lx))
  else
    let tokenLine := line lx in
    let tokenCol := column lx in
    ch ← at_ (pos lx);
    if bool_decide (ch = single_quote ∨ ch = double_quote) then scanString ch
    else if isdigit ch then scanNumber
    else if isalpha ch || bool_decide (ch = "_"%char) then scanIdentifierOrKeyword
    else
      incr_pos;;
      incr_column;;
      let single (ty : TokenType.t) : M Token.t :=
        mret (Token.mk ty (String ch EmptyString) tokenLine tokenCol) in
      if bool_decide (ch = "+"%char) then
        lookahead "="%char TokenType.PLUS_ASSIGN "+=" TokenType.PLUS "+" tokenLine tokenCol
      else if bool_decide (ch = "-"%char) then
        lookahead "="%char TokenType.MINUS_ASSIGN "-=" TokenType.MINUS "-" tokenLine tokenCol
      else if bool_decide (ch = "*"%char) then
        lookahead "="%char TokenType.STAR_ASSIGN "*=" TokenType.STAR "*" tokenLine tokenCol
      else if bool_decide (ch = "/"%char) then
        lookahead "="%char TokenType.SLASH_ASSIGN "/=" TokenType.SLASH "/" tokenLine tokenCol
      else if bool_decide (ch = "%"%char) then single TokenType.PERCENT
      else if bool_decide (ch = "="%char) then
        lookahead "="%char TokenType.EQ "==" TokenType.ASSIGN "=" tokenLine tokenCol
      else if bool_decide (ch = "!"%char) then
        lookahead "="%char TokenType.NE "!=" TokenType.NOT "!" tokenLine tokenCol
      else if bool_decide (ch = "<"%char) then
        lookahead "="%char TokenType.LE "<=" TokenType.LT "<" tokenLine tokenCol
      else if bool_decide (ch = ">"%char) then
        lookahead "="%char TokenType.GE ">=" TokenType.GT ">" tokenLine tokenCol
      else if bool_decide (ch = "&"%char) then
        lookahead "&"%char TokenType.AND "&&" TokenType.UNKNOWN "&" tokenLine tokenCol
      else if bool_decide (ch = "|"%char) then
        lookahead "|"%char TokenType.OR "||" TokenType.UNKNOWN "|" tokenLine tokenCol
      else if bool_decide (ch = "("%char) then single TokenType.LPAREN
      else if bool_decide (ch = ")"%char) then single TokenType.RPAREN
      else if bool_decide (ch = "{"%char) then single TokenType.LBRACE
      else if bool_decide (ch = "}"%char) then single TokenType.RBRACE
      else if bool_decide (ch = "["%char) then single TokenType.LBRACKET
      else if bool_decide (ch = "]"%char) then single TokenType.RBRACKET
      else if bool_decide (ch = ";"%char) then single TokenType.SEMICOLON
      else if bool_decide (ch = ","%char) then single TokenType.COMMA
      else if bool_decide (ch = ":"%char) then single TokenType.COLON
      else if bool_decide (ch = "."%char) then single TokenType.DOT
      else single TokenType.UNKNOWN.

(** The loop of [main] that drains the lexer: tokens are collected up to
    and including the first [EOF_TOKEN].  A token other than [EOF_TOKEN]
    consumes at least one character, hence the bound. *)
Fixpoint tokenize_loop (fuel : nat) (tokens : list Token.t) : M (list Token.t) :=
  token ← nextToken;
  if bool_decide (Token.type token ≠ TokenType.EOF_TOKEN) then
    match fuel with
    | 0 => mret (tokens ++ [token])
    | S fuel => tokenize_loop fuel (tokens ++ [token])
    end
  else mret (tokens ++ [token]).

Definition tokenize (src : string) : list Token.t :=
  (tokenize_loop (String.length src) [] (new src)).1.

End Lexer.

(** ** Parser (recursive descent) *)

Module Parser.

(** [class Parser]. *)
Record t := mk { tokens : list Token.t; current : nat }.

(** The constructor [Parser(toks)]. *)
Definition new (toks : list Token.t) : t := mk toks 0.

(** A parsing function returns its value and the advanced parser, or throws
    [std::runtime_error(what)].  [OutOfFuel] is the bound of the model on the
    depth of the recursion and on the iterations of a loop; it is not a
    result of the source. *)
Inductive result (A : Type) :=
| Ok (x : A) (p : t)
| Throw (what : string)
| OutOfFuel.
Arguments Ok {A} x p.
Arguments Throw {A} what.
Arguments OutOfFuel {A}.

Definition M (A : Type) : Type := t → result A.

#[global] Instance M_ret : MRet M := λ A x p, Ok x p.
#[global] Instance M_bind : MBind M := λ A B f m p,
  match m p with
  | Ok x p => f x p
  | Throw what => Throw what
  | OutOfFuel => OutOfFuel
  end.
#[global] Instance M_throw : MThrow string M := λ A what p, Throw what.

Definition out_of_fuel {A} : M A := λ _, OutOfFuel.

Definition peek : M Token.t := λ p,
  Ok (match tokens p !! current p with
      | Some token => token
      | None => Token.of_type TokenType.EOF_TOKEN
      end) p.

(** [tokens[current - 1]]; called only right after [advance] has moved
    [current] past a token. *)
Definition previous : M Token.t := λ p,
  Ok (default (Token.of_type TokenType.UNKNOWN) (tokens p !! (current p - 1)%nat)) p.

Definition isAtEnd : M bool :=
  token ← peek;
  mret (bool_decide (Token.type token = TokenType.EOF_TOKEN)).

Definition check (ty : TokenType.t) : M bool :=
  atEnd ← isAtEnd;
  if atEnd : bool then mret false
  else token ← peek; mret (bool_decide (Token.type token = ty)).

Definition advance : M Token.t :=
  atEnd ← isAtEnd;
  (if atEnd : bool then mret () else λ p, Ok () (mk (tokens p) (S (current p))));;
  previous.

Definition match_ (ty : TokenType.t) : M bool :=
  found ← check ty;
  if found : bool then advance;; mret true else mret false.

(** [match(t1) || match(t2) || ...], left to right. *)
Fixpoint match_any (tys : list TokenType.t) : M bool :=
  match tys with
  | [] => mret false
  | ty :: tys => found ← match_ ty; if found : bool then mret true else match_any tys
  end.

(** [check(t1) || check(t2) || ...]. *)
Fixpoint check_any (tys : list TokenType.t) : M bool :=
  match tys with
  | [] => mret false
  | ty :: tys => found ← check ty; if found : bool then mret true else check_any tys
  end.

Definition consume (ty : TokenType.t) (message : string) : M Token.t :=
  found ← check ty;
  if found : bool then advance
  else
    token ← peek;
    mthrow (message +:+ " at line " +:+ pretty (Token.line token)).

(** [do { Token param = consume(IDENTIFIER, ...); params.push_back(param.value); }
     while (match(COMMA));] *)
Fixpoint parseParameters (fuel : nat) (params : list string) : M (list string) :=
  match fuel with
  | 0 => out_of_fuel
  | S fuel =>
      param ← consume TokenType.IDENTIFIER "Expected parameter name";
      let params := params ++ [Token.value param] in
      more ← match_ TokenType.COMMA;
      if more : bool then parseParameters fuel params else mret params
  end.

(** [while (match(op1) || match(op2) || ...)
       { op = previous().value; right = operand(); left = BinaryOp(left, op, right); }]
    the loop of every left-associative binary level. *)
Fixpoint binaryLevel (fuel : nat) (ops : list TokenType.t) (operand : M Expression)
    (left : Expression) : M Expression :=
  match fuel with
  | 0 => out_of_fuel
  | S fuel =>
      found ← match_any ops;
      if found : bool then
        opToken ← previous;
        right ← operand;
        binaryLevel fuel ops operand (BinaryOp left (Token.value opToken) right)
      else mret left
  end.

(** [dynamic_cast<Identifier*>(expr.get())]. *)
Definition asIdentifier (expr : Expression) : option string :=
  match expr with
  | Identifier n => Some n
  | _ => None
  end.

(** [op.substr(0, op.length() - 1)]. *)
Definition dropLastChar (op : string) : string :=
  String.substring 0 (String.length op - 1) op.

(** [std::stod] on the text of a [NUMBER] token.  The analyzer never reads
    the [double]; what the call can do is throw.  [strtod] converts the
    longest prefix of the form [digits [. digits]] that holds a digit, and
    [std::stod] throws [std::invalid_argument] if there is none and
    [std::out_of_range] if [strtod] reports a range error; [what()] is
    ["stod"] either way.  The text of a [NUMBER] token is a run of digits and
    dots that starts with a digit ([scanNumber]), so signs, exponents and the
    other forms that [strtod] knows do not occur and are not modelled. *)

(** The digits at the front of [s], read as a decimal number after the
    digits read so far, their count and the rest of [s]. *)
Fixpoint leading_digits (s : string) (value : Z) (count : nat) : Z * nat * string :=
  match s with
  | String c rest =>
      if isdigit c
      then leading_digits rest (10 * value + (Z.of_nat (nat_of_ascii c) - 48))%Z (S count)
      else (value, count, s)
  | EmptyString => (value, count, s)
  end.

(** The number that [strtod] converts, as [(n, d)] for [n / 10 ^ d], if
    there is one. *)
Definition decimal_prefix (text : string) : option (Z * nat) :=
  let '(whole, wholeDigits, rest) := leading_digits text 0 0 in
  match rest with
  | String "."%char fraction =>
      let '(all, fractionDigits, _) := leading_digits fraction whole 0 in
      if bool_decide (wholeDigits + fractionDigits = 0)%nat then None
      else Some (all, fractionDigits)
  | _ => if bool_decide (wholeDigits = 0)%nat then None else Some (whole, 0%nat)
  end.

(** The range error of [strtod] for a [double] (IEEE binary64, rounding to
    nearest): the value [n / 10 ^ d] rounds to [2 ^ 1024] or more, or it is
    not zero, rounds to less than the least normalized number [2 ^ -1022]
    and is not itself a [double].  The C standard leaves the error in the
    second case to the implementation.  The GNU C library reports it, but
    takes the values [(k + 1/4) * 2 ^ -1074] with [2 ^ 51 ≤ k < 2 ^ 52] for
    exact. *)
Definition stod_out_of_range (n : Z) (d : nat) : bool :=
  let scale := (10 ^ Z.of_nat d)%Z in
  bool_decide ((2 ^ 1024 - 2 ^ 970) * scale ≤ n)%Z
  || bool_decide (0 < n ∧ n * 2 ^ 1076 < (2 ^ 54 - 1) * scale
                  ∧ (n * 2 ^ 1074) mod scale ≠ 0)%Z
     && negb (bool_decide ((n * 2 ^ 1076) mod scale = 0
                           ∧ (n * 2 ^ 1076 / scale) mod 4 = 1
                           ∧ 2 ^ 53 ≤ n * 2 ^ 1076 / scale)%Z).

Definition stod_throws (text : string) : bool :=
  match decimal_prefix text with
  | Some (n, d) => stod_out_of_range n d
  | None => true
  end.

(** [if (stmt) statements.push_back(std::move(stmt));] *)
Definition push_statement (stmts : list Statement) (stmt : option Statement)
  : list Statement :=
  match stmt with
  | Some s => stmts ++ [s]
  | None => stmts
  end.

(** The parsing functions call one another; every call spends one unit of
    [fuel]. *)
Fixpoint parseStatement (fuel : nat) : M (option Statement) :=
  match fuel with
  | 0 => out_of_fuel
  | S fuel =>
      isBanao ← match_ TokenType.BANAO;
      if isBanao : bool then stmt ← parseVariableDeclaration fuel; mret (Some stmt) else
      isKaam ← match_ TokenType.KAAM;
      if isKaam : bool then stmt ← parseFunctionDeclaration fuel; mret (Some stmt) else
      isAgar ← match_ TokenType.AGAR;
      if isAgar : bool then stmt ← parseIfStatement fuel; mret (Some stmt) else
      isDaura ← match_ TokenType.DAURA;
      if isDaura : bool then stmt ← parseLoopStatement fuel; mret (Some stmt) else
      isWapas ← match_ TokenType.WAPAS;
      if isWapas : bool then stmt ← parseReturnStatement fuel; mret (Some stmt) else
      isBlock ← check TokenType.LBRACE;
      if isBlock : bool then
        consume TokenType.LBRACE "Expected '{'";;
        stmts ← parseStatements fuel [];
        consume TokenType.RBRACE "Expected '}'";;
        (* [return nullptr;]: the vector [stmts] dies with the call *)
        mret None
      else
      isCall ← check_any [TokenType.IDENTIFIER; TokenType.DEKH; TokenType.LOU; TokenType.BAND];
      if isCall : bool then stmt ← parseExpressionStatement fuel; mret (Some stmt)
      else stmt ← parseExpressionStatement fuel; mret (Some stmt)
  end

(** [while (!check(RBRACE) && !isAtEnd())
       { if (auto stmt = parseStatement()) stmts.push_back(std::move(stmt)); }] *)
with parseStatements (fuel : nat) (stmts : list Statement) : M (list Statement) :=
  match fuel with
  | 0 => out_of_fuel
  | S fuel =>
      closing ← check TokenType.RBRACE;
      stop ← (if closing : bool then mret true else isAtEnd);
      if stop : bool then mret stmts
      else
        stmt ← parseStatement fuel;
        parseStatements fuel (push_statement stmts stmt)
  end

with parseVariableDeclaration (fuel : nat) : M Statement :=
  match fuel with
  | 0 => out_of_fuel
  | S fuel =>
      nameToken ← consume TokenType.IDENTIFIER "Expected identifier";
      hasInit ← match_ TokenType.ASSIGN;
      initializer ← (if hasInit : bool then e ← parseExpression fuel; mret (Some e)
                     else mret None);
      consume TokenType.SEMICOLON "Expected ';' after variable declaration";;
      mret (VariableDeclaration (Token.value nameToken) initializer)
  end

with parseFunctionDeclaration (fuel : nat) : M Statement :=
  match fuel with
  | 0 => out_of_fuel
  | S fuel =>
      nameToken ← consume TokenType.IDENTIFIER "Expected function name";
      consume TokenType.LPAREN "Expected '(' after function name";;
      noParams ← check TokenType.RPAREN;
      params ← (if noParams : bool then mret [] else parseParameters fuel []);
      consume TokenType.RPAREN "Expected ')' after parameters";;
      consume TokenType.LBRACE "Expected '{' before function body";;
      body ← parseStatements fuel [];
      consume TokenType.RBRACE "Expected '}' after function body";;
      mret (FunctionDeclaration (Token.value nameToken) params body)
  end

with parseIfStatement (fuel : nat) : M Statement :=
  match fuel with
  | 0 => out_of_fuel
  | S fuel =>
      consume TokenType.LPAREN "Expected '(' after 'agar'";;
      condition ← parseExpression fuel;
      consume TokenType.RPAREN "Expected ')' after if condition";;
      consume TokenType.LBRACE "Expected '{' before if body";;
      thenBranch ← parseStatements fuel [];
      consume TokenType.RBRACE "Expected '}' after if body";;
      hasElse ← match_ TokenType.WARNAH;
      if hasElse : bool then
        consume TokenType.LBRACE "Expected '{' before else body";;
        elseBranch ← parseStatements fuel [];
        consume TokenType.RBRACE "Expected '}' after else body";;
        mret (IfStatement condition thenBranch elseBranch)
      else mret (IfStatement condition thenBranch [])
  end

with parseLoopStatement (fuel : nat) : M Statement :=
  match fuel with
  | 0 => out_of_fuel
  | S fuel =>
      consume TokenType.LPAREN "Expected '(' after 'daura'";;
      condition ← parseExpression fuel;
      consume TokenType.RPAREN "Expected ')' after loop condition";;
      consume TokenType.LBRACE "Expected '{' before loop body";;
      body ← parseStatements fuel [];
      consume TokenType.RBRACE "Expected '}' after loop body";;
      mret (LoopStatement condition body)
  end

with parseReturnStatement (fuel : nat) : M Statement :=
  match fuel with
  | 0 => out_of_fuel
  | S fuel =>
      bare ← check TokenType.SEMICOLON;
      value ← (if bare : bool then mret None else e ← parseExpression fuel; mret (Some e));
      consume TokenType.SEMICOLON "Expected ';' after return statement";;
      mret (ReturnStatement value)
  end

with parseExpressionStatement (fuel : nat) : M Statement :=
  match fuel with
  | 0 => out_of_fuel
  | S fuel =>
      expr ← parseExpression fuel;
      consume TokenType.SEMICOLON "Expected ';' after expression statement";;
      mret (ExpressionStatement expr)
  end

with parseExpression (fuel : nat) : M Expression :=
  match fuel with
  | 0 => out_of_fuel
  | S fuel => parseAssignment fuel
  end

with parseAssignment (fuel : nat) : M Expression :=
  match fuel with
  | 0 => out_of_fuel
  | S fuel =>
      expr ← parseLogicalOr fuel;
      isAssign ← match_ TokenType.ASSIGN;
      if isAssign : bool then
        match asIdentifier expr with
        | Some id =>
            value ← parseAssignment fuel;
            mret (Assignment id value)
        | None => mthrow "Invalid assignment target"
        end
      else
        isCompound ← match_any [TokenType.PLUS_ASSIGN; TokenType.MINUS_ASSIGN;
                                TokenType.STAR_ASSIGN; TokenType.SLASH_ASSIGN];
        if isCompound : bool then
          match asIdentifier expr with
          | Some id =>
              opToken ← previous;
              let op := dropLastChar (Token.value opToken) in
              value ← parseAssignment fuel;
              mret (Assignment id (BinaryOp expr op value))
          | None => mret expr
          end
        else mret expr
  end

with parseLogicalOr (fuel : nat) : M Expression :=
  match fuel with
  | 0 => out_of_fuel
  | S fuel =>
      left ← parseLogicalAnd fuel;
      binaryLevel fuel [TokenType.OR] (parseLogicalAnd fuel) left
  end

with parseLogicalAnd (fuel : nat) : M Expression :=
  match fuel with
  | 0 => out_of_fuel
  | S fuel =>
      left ← parseEquality fuel;
      binaryLevel fuel [TokenType.AND] (parseEquality fuel) left
  end

with parseEquality (fuel : nat) : M Expression :=
  match fuel with
  | 0 => out_of_fuel
  | S fuel =>
      left ← parseComparison fuel;
      binaryLevel fuel [TokenType.EQ; TokenType.NE] (parseComparison fuel) left
  end

with parseComparison (fuel : nat) : M Expression :=
  match fuel with
  | 0 => out_of_fuel
  | S fuel =>
      left ← parseTerm fuel;
      binaryLevel fuel [TokenType.LT; TokenType.LE; TokenType.GT; TokenType.GE]
        (parseTerm fuel) left
  end

with parseTerm (fuel : nat) : M Expression :=
  match fuel with
  | 0 => out_of_fuel
  | S fuel =>
      left ← parseFactor fuel;
      binaryLevel fuel [TokenType.PLUS; TokenType.MINUS] (parseFactor fuel) left
  end

with parseFactor (fuel : nat) : M Expression :=
  match fuel with
  | 0 => out_of_fuel
  | S fuel =>
      left ← parseUnary fuel;
      binaryLevel fuel [TokenType.STAR; TokenType.SLASH; TokenType.PERCENT]
        (parseUnary fuel) left
  end

with parseUnary (fuel : nat) : M Expression :=
  match fuel with
  | 0 => out_of_fuel
  | S fuel =>
      isPrefix ← match_any [TokenType.NOT; TokenType.MINUS];
      if isPrefix : bool then
        opToken ← previous;
        expr ← parseUnary fuel;
        mret (UnaryOp (Token.value opToken) expr)
      else parsePostfix fuel
  end

with parsePostfix (fuel : nat) : M Expression :=
  match fuel with
  | 0 => out_of_fuel
  | S fuel =>
      expr ← parsePrimary fuel;
      parsePostfix_loop fuel expr
  end

(** The [while (true)] loop of [parsePostfix]. *)
with parsePostfix_loop (fuel : nat) (expr : Expression) : M Expression :=
  match fuel with
  | 0 => out_of_fuel
  | S fuel =>
      isIndex ← match_ TokenType.LBRACKET;
      if isIndex : bool then
        index ← parseExpression fuel;
        consume TokenType.RBRACKET "Expected ']' after array index";;
        match asIdentifier expr with
        | Some id => parsePostfix_loop fuel (ArrayAccess id index)
        | None => parsePostfix_loop fuel expr
        end
      else
        isCall ← check TokenType.LPAREN;
        match (if isCall : bool then asIdentifier expr else None) with
        | Some id =>
            match_ TokenType.LPAREN;;
            noArgs ← check TokenType.RPAREN;
            args ← (if noArgs : bool then mret [] else parseExpressionList fuel []);
            consume TokenType.RPAREN "Expected ')' after function arguments";;
            parsePostfix_loop fuel (FunctionCall id args)
        | None => mret expr
        end
  end

(** [do { list.push_back(parseExpression()); } while (match(COMMA));]
    for call arguments and array elements. *)
with parseExpressionList (fuel : nat) (exprs : list Expression) : M (list Expression) :=
  match fuel with
  | 0 => out_of_fuel
  | S fuel =>
      expr ← parseExpression fuel;
      let exprs := exprs ++ [expr] in
      more ← match_ TokenType.COMMA;
      if more : bool then parseExpressionList fuel exprs else mret exprs
  end

(** The [do ... while (match(COMMA))] loop over the members of an object
    literal. *)
with parseMembers (fuel : nat) (members : list (string * Expression))
  : M (list (string * Expression)) :=
  match fuel with
  | 0 => out_of_fuel
  | S fuel =>
      key ← consume TokenType.IDENTIFIER "Expected property name";
      consume TokenType.COLON "Expected ':' after property name";;
      value ← parseExpression fuel;
      let members := members ++ [(Token.value key, value)] in
      more ← match_ TokenType.COMMA;
      if more : bool then parseMembers fuel members else mret members
  end

with parsePrimary (fuel : nat) : M Expression :=
  match fuel with
  | 0 => out_of_fuel
  | S fuel =>
      isHaan ← match_ TokenType.HAAN;
      if isHaan : bool then mret (BooleanLiteral true) else
      isNa ← match_ TokenType.NA;
      if isNa : bool then mret (BooleanLiteral false) else
      isNumber ← match_ TokenType.NUMBER;
      if isNumber : bool then
        token ← previous;
        if stod_throws (Token.value token) then mthrow "stod"
        else mret (NumberLiteral (Token.value token))
      else
      isString ← match_ TokenType.STRING;
      if isString : bool then token ← previous; mret (StringLiteral (Token.value token)) else
      isIdentifier ← match_ TokenType.IDENTIFIER;
      if isIdentifier : bool then token ← previous; mret (Identifier (Token.value token)) else
      isDekh ← match_ TokenType.DEKH;
      if isDekh : bool then mret (Identifier "dekh") else
      isLou ← match_ TokenType.LOU;
      if isLou : bool then mret (Identifier "lou") else
      isBand ← match_ TokenType.BAND;
      if isBand : bool then mret (Identifier "band") else
      isArray ← match_ TokenType.LBRACKET;
      if isArray : bool then
        empty ← check TokenType.RBRACKET;
        elements ← (if empty : bool then mret [] else parseExpressionList fuel []);
        consume TokenType.RBRACKET "Expected ']' after array elements";;
        mret (ArrayLiteral elements)
      else
      isObject ← match_ TokenType.LBRACE;
      if isObject : bool then
        empty ← check TokenType.RBRACE;
        members ← (if empty : bool then mret [] else parseMembers fuel []);
        consume TokenType.RBRACE "Expected '}' after object properties";;
        mret (ObjectLiteral members)
      else
      isParen ← match_ TokenType.LPAREN;
      if isParen : bool then
        expr ← parseExpression fuel;
        consume TokenType.RPAREN "Expected ')' after expression";;
        mret expr
      else
        token ← peek;
        mthrow ("Expected expression at token: " +:+ Token.value token)
  end.

(** The loop of [parse]:
    [while (!isAtEnd()) { if (peek().type == EOF_TOKEN) break; ... }]. *)
Fixpoint parse_loop (fuel : nat) (stmts : list Statement) : M Program :=
  match fuel with
  | 0 => out_of_fuel
  | S fuel =>
      atEnd ← isAtEnd;
      if atEnd : bool then mret (mkProgram stmts)
      else
        token ← peek;
        if bool_decide (Token.type token = TokenType.EOF_TOKEN) then mret (mkProgram stmts)
        else
          stmt ← parseStatement fuel;
          parse_loop fuel (push_statement stmts stmt)
  end.

Definition parse (fuel : nat) : M Program := parse_loop fuel [].

(** [Parser parser(tokens); parser.parse()]: every parsing function
    consumes a token or returns within a fixed number of calls, so a bound
    linear in the number of tokens is ample. *)
Definition parseTokens (toks : list Token.t) : result Program :=
  parse (32 * S (length toks)) (new toks).

End Parser.

(** ** Main program *)

(** What [main] reports: the analysis passed, or it failed with a list of
    errors, or a parse error ended the run ([Fatal error]).  [Unbounded] is
    the model running out of [fuel]. *)
Inductive Outcome :=
| Passed
| Failed (errors : list string)
| FatalError (what : string)
| Unbounded.

(** The pipeline of [main]: lex, parse, analyze. *)
Definition run (code : string) : Outcome :=
  match Parser.parseTokens (Lexer.tokenize code) with
  | Parser.Ok program _ =>
      let '(success, a) := analyze program newAnalyzer in
      if success then Passed else Failed (errors a)
  | Parser.Throw what => FatalError what
  | Parser.OutOfFuel => Unbounded
  end.

(** The tree that the front end builds for a source text, if it builds one. *)
Definition parseSource (code : string) : option Program :=
  match Parser.parseTokens (Lexer.tokenize code) with
  | Parser.Ok program _ => Some program
  | _ => None
  end.

(** * Properties *)

(** ** Vocabulary of the statements *)

Implicit Types (tbl : SymbolTable.t) (sc : gmap string Symbol) (n : string).

(** The public operations of [SymbolTable], as a client may issue them. *)
Inductive TableOp :=
| EnterScope
| ExitScope
| Define (n : string) (ty : DataType.t) (isFunc isInit : bool)
| Lookup (n : string)
| Update (n : string)
| AddFunctionSignature (n : string) (params : list DataType.t) (ret : DataType.t).

(** The table after one operation; [lookup] is [const] and changes nothing. *)
Definition applyOp (tbl : SymbolTable.t) (op : TableOp) : SymbolTable.t :=
  match op with
  | EnterScope => SymbolTable.enterScope tbl
  | ExitScope => SymbolTable.exitScope tbl
  | Define n ty isFunc isInit => (SymbolTable.define n ty isFunc isInit tbl).2
  | Lookup n => tbl
  | Update n => (SymbolTable.update n tbl).2
  | AddFunctionSignature n params ret => SymbolTable.addFunctionSignature n params ret tbl
  end.

(** The table a client holds after construction and a sequence of operations. *)
Definition applyOps (ops : list TableOp) : SymbolTable.t :=
  foldl applyOp SymbolTable.new ops.

Definition builtinNames : list string :=
  ["dekh"; "lou"; "nikal"; "band"; "abs"; "sqrt"; "pow"; "max"; "min"; "round"; "random"].

(** A scope that binds every builtin name to a function symbol: what sets the
    global scope apart from the scopes pushed later, which start empty. *)
Definition holdsBuiltins (sc : gmap string Symbol) : Prop :=
  ∀ b, b ∈ builtinNames → ∃ sym, sc !! b = Some sym ∧ isFunction sym = true.

(** The invariant of the scope stack. *)
Definition globalAtZero tbl : Prop :=
  ∃ g inner, SymbolTable.scopes tbl = g :: inner ∧ holdsBuiltins g.

(** The analyzer [a] with the diagnostics [E] placed in front of its own. *)
Definition prepend (E : list string) (a : SemanticAnalyzer) : SemanticAnalyzer :=
  mkAnalyzer (symbolTable a) (E ++ errors a) (currentReturnType a) (inFunction a).

(** The analysis never reads [errors]: it commutes with [prepend]. *)
Definition framed {A} (f : SemanticAnalyzer → A * SemanticAnalyzer) : Prop :=
  ∀ E a, f (prepend E a) = prod_map id (prepend E) (f a).

Definition framed_ (f : SemanticAnalyzer → SemanticAnalyzer) : Prop :=
  ∀ E a, f (prepend E a) = prepend E (f a).

(** The diagnostics that a run of the analysis adds: those it would leave in
    an analyzer that starts with none. *)
Definition clearErrors (a : SemanticAnalyzer) : SemanticAnalyzer :=
  mkAnalyzer (symbolTable a) [] (currentReturnType a) (inFunction a).

Definition expressionDiagnostics (e : Expression) (a : SemanticAnalyzer) : list string :=
  errors (analyzeExpression e (clearErrors a)).2.

Definition blockDiagnostics (block : list Statement) (a : SemanticAnalyzer) : list string :=
  errors (analyzeBlock analyzeStatement block (clearErrors a)).

(** The condition types that are let through. *)
Definition acceptedCondition (t : DataType.t) : Prop :=
  t = DataType.BOOLEAN ∨ t = DataType.UNKNOWN ∨ t = DataType.VOID.

#[global] Instance acceptedCondition_dec t : Decision (acceptedCondition t).
Proof. unfold acceptedCondition. apply _. Defined.

(** The type-mismatch diagnostic of a condition of type [t], if any;
    [construct] is ["If"] or ["Loop"]. *)
Definition conditionMismatch (construct : string) (t : DataType.t) : list string :=
  if decide (acceptedCondition t) then []
  else ["ERROR: " +:+ construct +:+ " condition must be boolean, got " +:+ dataTypeToString t].

(** The diagnostics of the branches of an [agar] on their own: those of the
    same statement with the literal [haan] as its condition. *)
Definition branchDiagnostics (th el : list Statement) (a : SemanticAnalyzer) : list string :=
  errors (analyzeStatement (IfStatement (BooleanLiteral true) th el) (clearErrors a)).

Definition bodyDiagnostics (body : list Statement) (a : SemanticAnalyzer) : list string :=
  errors (analyzeStatement (LoopStatement (BooleanLiteral true) body) (clearErrors a)).

(** [symbolTable.enterScope()] and [symbolTable.exitScope()], as steps of the
    analyzer. *)
Definition entered (a : SemanticAnalyzer) : SemanticAnalyzer :=
  with_symbolTable (SymbolTable.enterScope (symbolTable a)) a.

Definition exited (a : SemanticAnalyzer) : SemanticAnalyzer :=
  with_symbolTable (SymbolTable.exitScope (symbolTable a)) a.

(** [f] keeps the property [I] of the symbol table. *)
Definition keepsTable (I : SymbolTable.t → Prop)
    (f : SemanticAnalyzer → SemanticAnalyzer) : Prop :=
  ∀ a, I (symbolTable a) → I (symbolTable (f a)).

(** [tbl] resolves every name to the symbol that [tbl0] resolves it to, up to
    the [isInitialized] flag. *)
Definition sameBindings (tbl0 tbl : SymbolTable.t) : Prop :=
  ∀ n, set_isInitialized <$> SymbolTable.lookup n tbl
       = set_isInitialized <$> SymbolTable.lookup n tbl0.

(** The type-mismatch diagnostic of an assignment to [n], declared with type
    [declared], of a value of type [valueType], if any. *)
Definition assignmentMismatch (n : string) (declared valueType : DataType.t) : list string :=
  if decide (declared ≠ DataType.UNKNOWN ∧ valueType ≠ DataType.UNKNOWN ∧ declared ≠ valueType)
  then ["ERROR: Type mismatch in assignment to '" +:+ n +:+ "': expected " +:+
        dataTypeToString declared +:+ ", got " +:+ dataTypeToString valueType]
  else [].

(** The scope that binds each of [params] once, as an Unknown variable. *)
Definition parameterScope (params : list string) : gmap string Symbol :=
  list_to_map ((λ p, (p, Symbol_ p DataType.UNKNOWN false true)) <$> params).

(** The analyzer at the point where [analyzeFunctionDeclaration] starts on
    the body: signature registered, scope entered, parameters defined. *)
Definition bodyEntry (f : string) (params : list string) (a : SemanticAnalyzer)
  : SemanticAnalyzer :=
  let paramTypes := replicate (length params) DataType.UNKNOWN in
  let a := with_symbolTable
             (SymbolTable.addFunctionSignature f paramTypes DataType.VOID (symbolTable a)) a in
  let a := with_symbolTable (SymbolTable.enterScope (symbolTable a)) a in
  let a := with_function_context true DataType.UNKNOWN a in
  defineParameters params a.

Definition arithmeticOperator (op : string) : Prop :=
  op = "+" ∨ op = "-" ∨ op = "*" ∨ op = "/" ∨ op = "%".

(** The operand types that an arithmetic operator lets through. *)
Definition acceptedOperand (t : DataType.t) : Prop :=
  t = DataType.NUMBER ∨ t = DataType.UNKNOWN ∨ t = DataType.VOID.

#[global] Instance acceptedOperand_dec t : Decision (acceptedOperand t).
Proof. unfold acceptedOperand. apply _. Defined.

(** The diagnostic of an arithmetic operator about its [side] operand
    (["Left"] or ["Right"]) of type [t], if any. *)
Definition operandMismatch (side op : string) (t : DataType.t) : list string :=
  if decide (acceptedOperand t) then []
  else ["ERROR: " +:+ side +:+ " operand of '" +:+ op +:+ "' must be number"].

(** Every symbol of the table has return type Void or Number. *)
Definition returnsVoidOrNumber (tbl : SymbolTable.t) : Prop :=
  Forall (map_Forall (λ _ sym, returnType sym = DataType.VOID
                               ∨ returnType sym = DataType.NUMBER))
         (SymbolTable.scopes tbl).

(** The lexer [lx] works on [src], its position is at most the length of
    [src], and so is every index at which it has read [src]: the reads stay
    within the characters and the terminator that follows them. *)
Definition withinTerminator (src : string) (lx : Lexer.t) : Prop :=
  Lexer.source lx = src
  ∧ (Lexer.pos lx ≤ String.length src)%nat
  ∧ Forall (λ i, (i ≤ String.length src)%nat) (Lexer.accessed lx).

(** ** Vocabulary of the further properties *)

(** [define] applied to each of [defs] in turn, as a run of declarations in
    one scope issues it. *)
Definition defineAll (defs : list (string * DataType.t)) (tbl : SymbolTable.t)
  : SymbolTable.t :=
  foldl (λ tbl d, (SymbolTable.define d.1 d.2 false true tbl).2) tbl defs.

(** The type of the first declaration of [n] in [defs], if any. *)
Fixpoint firstDeclared (defs : list (string * DataType.t)) (n : string) : option DataType.t :=
  match defs with
  | [] => None
  | d :: defs => if decide (d.1 = n) then Some d.2 else firstDeclared defs n
  end.

(** The names of the functions that a statement declares, at any depth. *)
Fixpoint functionNames (s : Statement) : list string :=
  match s with
  | FunctionDeclaration f _ body => f :: flat_map functionNames body
  | IfStatement _ thenBranch elseBranch =>
      flat_map functionNames thenBranch ++ flat_map functionNames elseBranch
  | LoopStatement _ body => flat_map functionNames body
  | _ => []
  end.

(** The variable that a statement declares in the scope in which it stands. *)
Definition variableName (s : Statement) : list string :=
  match s with
  | VariableDeclaration n _ => [n]
  | _ => []
  end.

(** The scope [sc'] binds every name outside [F] as [sc] does, up to the
    [isInitialized] flag. *)
Definition agreeOutside (F : list string) (sc sc' : gmap string Symbol) : Prop :=
  ∀ n, n ∉ F → set_isInitialized <$> sc' !! n = set_isInitialized <$> sc !! n.

(** A step of the analysis from the scope stack [l] to [l']: the depth is
    the same, the enclosing scopes agree outside the function names [F], and
    the innermost scope agrees outside [F] and the variable names [D]. *)
Definition scopesStep (F D : list string) (l l' : list (gmap string Symbol)) : Prop :=
  ∃ outer cur outer' cur',
    l = outer ++ [cur] ∧ l' = outer' ++ [cur']
    ∧ Forall2 (agreeOutside F) outer outer'
    ∧ agreeOutside (F ++ D) cur cur'.

(** The analyzers [a] and [a'] are in the same function context. *)
Definition sameContext (a a' : SemanticAnalyzer) : Prop :=
  inFunction a' = inFunction a ∧ currentReturnType a' = currentReturnType a.

(** The global scope of [tbl] binds [n] to a symbol that satisfies [P]. *)
Definition globalHolds (P : Symbol → Prop) (n : string) (tbl : SymbolTable.t) : Prop :=
  ∃ g inner sym, SymbolTable.scopes tbl = g :: inner ∧ g !! n = Some sym ∧ P sym.

(** The names that a program declares where the entry-point check can see
    them: its functions, at any depth, and its top-level variables. *)
Definition globalNames (block : list Statement) : list string :=
  flat_map functionNames block ++ flat_map variableName block.

(** Every symbol of the table, with the name under which it is stored,
    satisfies [Q]. *)
Definition allSymbols (Q : string → Symbol → Prop) (tbl : SymbolTable.t) : Prop :=
  Forall (map_Forall Q) (SymbolTable.scopes tbl).

(** What the analysis keeps true of a symbol stored under [n]: it carries its
    own name and counts as initialized; a function has type Void; a variable
    has no parameter types and return type Void; and only a builtin name can
    have a return type other than Void. *)
Definition wellFormedSymbol (n : string) (sym : Symbol) : Prop :=
  name sym = n
  ∧ isInitialized sym = true
  ∧ (isFunction sym = true → type sym = DataType.VOID)
  ∧ (isFunction sym = false → paramTypes sym = [] ∧ returnType sym = DataType.VOID)
  ∧ (n ∉ builtinNames → returnType sym = DataType.VOID).


(** The operand types that a comparison operator lets through. *)
Definition comparableOperand (t : DataType.t) : Prop :=
  t = DataType.NUMBER ∨ t = DataType.UNKNOWN.

#[global] Instance comparableOperand_dec t : Decision (comparableOperand t).
Proof. unfold comparableOperand. apply _. Defined.

(** The lexer [lx'] works on the source of [lx] and is at least [k]
    characters further on. *)
Definition movedOn (k : nat) (lx lx' : Lexer.t) : Prop :=
  Lexer.source lx' = Lexer.source lx ∧ (Lexer.pos lx + k ≤ Lexer.pos lx')%nat.

(** The lexer on [src] after [k] calls of [nextToken]. *)
Definition afterCalls (k : nat) (src : string) : Lexer.t :=
  Nat.iter k (λ lx, (Lexer.nextToken lx).2) (Lexer.new src).

(** [s[i]], the terminator past the last character. *)
Definition charAt (s : string) (i : nat) : ascii := default zero (String.get i s).

(** The column [c] after [k] times [column++]: [c + k] as an [int]. *)
Definition columnAfter (c : Z) (k : nat) : Z :=
  match k with
  | 0 => c
  | S _ => wrap_int (c + Z.of_nat k)
  end.

(** From [lx] to [lx'] the lexer has consumed [k] characters on one line:
    the longest run from its position of characters that [accepts] takes. *)
Definition longestRun (accepts : ascii → bool) (lx lx' : Lexer.t) (k : nat) : Prop :=
  Lexer.source lx' = Lexer.source lx
  ∧ Lexer.pos lx' = (Lexer.pos lx + k)%nat
  ∧ Lexer.line lx' = Lexer.line lx
  ∧ Lexer.column lx' = columnAfter (Lexer.column lx) k
  ∧ (∀ i, (i < k)%nat →
          (Lexer.pos lx + i < String.length (Lexer.source lx))%nat
          ∧ accepts (charAt (Lexer.source lx) (Lexer.pos lx + i)) = true)
  ∧ ((Lexer.pos lx + k < String.length (Lexer.source lx))%nat →
     accepts (charAt (Lexer.source lx) (Lexer.pos lx + k)) = false).

(** The index [i] of [s] lies in a [//] comment: a [//] stands at or before
    it with no newline from there up to [i]. *)
Definition inComment (s : string) (i : nat) : Prop :=
  ∃ j, (j ≤ i)%nat ∧ charAt s j = "/"%char ∧ charAt s (S j) = "/"%char
       ∧ ∀ m, (j ≤ m ≤ i)%nat → charAt s m ≠ newline.

(** The index of the parser is within its token list, or just behind it. *)
Definition inBounds (p : Parser.t) : Prop :=
  (Parser.current p ≤ length (Parser.tokens p))%nat.

(** The tokens that the parser has not consumed. *)
Definition tokensLeft (p : Parser.t) : nat :=
  length (Parser.tokens p) - Parser.current p.

(** The parser [p'] has the tokens of [p], is at least [k] tokens further on
    and within bounds. *)
Definition advancedBy (k : nat) (p p' : Parser.t) : Prop :=
  Parser.tokens p' = Parser.tokens p
  ∧ (Parser.current p + k ≤ Parser.current p')%nat
  ∧ inBounds p'.

(** Run from [p], the parsing function [m] does not reach the bound of the
    model, and what it returns, if it does not throw, satisfies [Q]. *)
Definition delivers {A} (Q : A → Parser.t → Prop) (m : Parser.M A) (p : Parser.t) : Prop :=
  match m p with
  | Parser.Ok x p' => Q x p'
  | Parser.Throw _ => True
  | Parser.OutOfFuel => False
  end.

(** With [rank] units of fuel and sixteen more for every token left, [m]
    comes to an end, and if it returns the parser is at least [k] tokens
    further on. *)
Definition parses {A} (rank k fuel : nat) (m : Parser.M A) : Prop :=
  ∀ p, inBounds p → (rank + 16 * tokensLeft p ≤ fuel)%nat →
       delivers (λ _ p', advancedBy k p p') m p.

(** The parsing functions at [fuel], each with the rank that bounds the
    depth of the calls it makes before a token is consumed. *)
Definition parsingFunctionsEnd (fuel : nat) : Prop :=
  parses 1 1 fuel (Parser.parsePrimary fuel)
  ∧ (∀ expr, parses 13 0 fuel (Parser.parsePostfix_loop fuel expr))
  ∧ parses 2 1 fuel (Parser.parsePostfix fuel)
  ∧ parses 3 1 fuel (Parser.parseUnary fuel)
  ∧ parses 4 1 fuel (Parser.parseFactor fuel)
  ∧ parses 5 1 fuel (Parser.parseTerm fuel)
  ∧ parses 6 1 fuel (Parser.parseComparison fuel)
  ∧ parses 7 1 fuel (Parser.parseEquality fuel)
  ∧ parses 8 1 fuel (Parser.parseLogicalAnd fuel)
  ∧ parses 9 1 fuel (Parser.parseLogicalOr fuel)
  ∧ parses 10 1 fuel (Parser.parseAssignment fuel)
  ∧ parses 11 1 fuel (Parser.parseExpression fuel)
  ∧ (∀ exprs, parses 12 1 fuel (Parser.parseExpressionList fuel exprs))
  ∧ (∀ members, parses 1 1 fuel (Parser.parseMembers fuel members))
  ∧ parses 12 1 fuel (Parser.parseExpressionStatement fuel)
  ∧ parses 12 1 fuel (Parser.parseReturnStatement fuel)
  ∧ parses 1 1 fuel (Parser.parseVariableDeclaration fuel)
  ∧ parses 1 1 fuel (Parser.parseFunctionDeclaration fuel)
  ∧ parses 1 1 fuel (Parser.parseIfStatement fuel)
  ∧ parses 1 1 fuel (Parser.parseLoopStatement fuel)
  ∧ parses 13 1 fuel (Parser.parseStatement fuel)
  ∧ (∀ stmts, parses 14 0 fuel (Parser.parseStatements fuel stmts)).

(** The number of newline characters among the first [n] characters of [s]. *)
Fixpoint newlinesBefore (s : string) (n : nat) : nat :=
  match n with
  | 0 => 0
  | S n => newlinesBefore s n + (if bool_decide (charAt s n = newline) then 1 else 0)
  end.

(** The line counter of the lexer is one more than the number of newlines
    that it has passed, as an [int]. *)
Definition countsLines (lx : Lexer.t) : Prop :=
  Lexer.line lx
  = wrap_int (1 + Z.of_nat (newlinesBefore (Lexer.source lx) (Lexer.pos lx))).

(** The names that a statement declares as variables or parameters, at any
    depth. *)
Fixpoint declaredVariables (s : Statement) : list string :=
  match s with
  | VariableDeclaration n _ => [n]
  | FunctionDeclaration _ params body => params ++ flat_map declaredVariables body
  | IfStatement _ thenBranch elseBranch =>
      flat_map declaredVariables thenBranch ++ flat_map declaredVariables elseBranch
  | LoopStatement _ body => flat_map declaredVariables body
  | _ => []
  end.

(** The global scope binds [b] to a symbol that satisfies [P] and no scope
    further in binds [b]: wherever [b] is looked up, the global binding is
    found. *)
Definition globalOnly (P : Symbol → Prop) (b : string) (tbl : SymbolTable.t) : Prop :=
  ∃ g inner sym,
    SymbolTable.scopes tbl = g :: inner
    ∧ g !! b = Some sym ∧ P sym
    ∧ Forall (λ sc, sc !! b = None) inner.

(** The scope [sc'] binds every name as [sc] does, or to the same symbol
    with [isInitialized] set. *)
Definition sameOrInitialized (sc sc' : gmap string Symbol) : Prop :=
  ∀ n, sc' !! n = sc !! n ∨ sc' !! n = set_isInitialized <$> sc !! n.

(** The builtin functions whose names are keywords of the language. *)
Definition keywordBuiltins : list string := ["dekh"; "lou"; "band"].

(** The texts of the [IDENTIFIER] tokens of a token list. *)
Definition identifierNames (toks : list Token.t) : list string :=
  Token.value <$> filter (λ tok, Token.type tok = TokenType.IDENTIFIER) toks.

(** Every name that the statement [s] declares, as a variable, a parameter
    or a function and at any depth, is among [ids]. *)
Definition namesAmong (ids : list string) (s : Statement) : Prop :=
  Forall (.∈ ids) (declaredVariables s) ∧ Forall (.∈ ids) (functionNames s).

(** From a parser on the tokens [toks], with [rank] units of fuel and
    sixteen more for every token left, [m] comes to an end, and if it
    returns the parser is at least [k] tokens further on and the value
    satisfies [ok]. *)
Definition parsesTo {A} (toks : list Token.t) (rank k fuel : nat) (ok : A → Prop)
    (m : Parser.M A) : Prop :=
  ∀ p, Parser.tokens p = toks → inBounds p → (rank + 16 * tokensLeft p ≤ fuel)%nat →
       delivers (λ x p', advancedBy k p p' ∧ ok x) m p.

(** The parsing functions for statements at [fuel]: the names declared in
    what they return are among [ids]. *)
Definition parsingFunctionsName (toks : list Token.t) (ids : list string) (fuel : nat)
    : Prop :=
  parsesTo toks 12 1 fuel (namesAmong ids) (Parser.parseExpressionStatement fuel)
  ∧ parsesTo toks 12 1 fuel (namesAmong ids) (Parser.parseReturnStatement fuel)
  ∧ parsesTo toks 1 1 fuel (namesAmong ids) (Parser.parseVariableDeclaration fuel)
  ∧ parsesTo toks 1 1 fuel (namesAmong ids) (Parser.parseFunctionDeclaration fuel)
  ∧ parsesTo toks 1 1 fuel (namesAmong ids) (Parser.parseIfStatement fuel)
  ∧ parsesTo toks 1 1 fuel (namesAmong ids) (Parser.parseLoopStatement fuel)
  ∧ parsesTo toks 13 1 fuel (from_option (namesAmong ids) True) (Parser.parseStatement fuel)
  ∧ (∀ stmts, Forall (namesAmong ids) stmts →
              parsesTo toks 14 0 fuel (Forall (namesAmong ids))
                (Parser.parseStatements fuel stmts)).

(** ** Induction over the syntax tree *)

(** The children of a call, an array literal and an object literal sit under
    [list]; the induction principle hands out the hypothesis for each of them. *)
Section ExpressionInduction.

Variable P : Expression → Prop.
Hypothesis HNumber : ∀ v, P (NumberLiteral v).
Hypothesis HString : ∀ v, P (StringLiteral v).
Hypothesis HBoolean : ∀ v, P (BooleanLiteral v).
Hypothesis HIdentifier : ∀ n, P (Identifier n).
Hypothesis HBinary : ∀ l op r, P l → P r → P (BinaryOp l op r).
Hypothesis HUnary : ∀ op e, P e → P (UnaryOp op e).
Hypothesis HAssignment : ∀ n v, P v → P (Assignment n v).
Hypothesis HCall : ∀ n args, Forall P args → P (FunctionCall n args).
Hypothesis HArray : ∀ es, Forall P es → P (ArrayLiteral es).
Hypothesis HObject : ∀ ms, Forall (λ m, P m.2) ms → P (ObjectLiteral ms).
Hypothesis HAccess : ∀ n i, P i → P (ArrayAccess n i).

Fixpoint Expression_nested_ind (e : Expression) : P e :=
  let children :=
    fix go (l : list Expression) : Forall P l :=
      match l with
      | [] => @List.Forall_nil _ P
      | x :: l => @List.Forall_cons _ P x l (Expression_nested_ind x) (go l)
      end in
  match e with
  | NumberLiteral v => HNumber v
  | StringLiteral v => HString v
  | BooleanLiteral v => HBoolean v
  | Identifier n => HIdentifier n
  | BinaryOp l op r => HBinary l op r (Expression_nested_ind l) (Expression_nested_ind r)
  | UnaryOp op e => HUnary op e (Expression_nested_ind e)
  | Assignment n v => HAssignment n v (Expression_nested_ind v)
  | FunctionCall n args => HCall n args (children args)
  | ArrayLiteral es => HArray es (children es)
  | ObjectLiteral ms =>
      HObject ms
        ((fix go (l : list (string * Expression)) : Forall (λ m, P m.2) l :=
            match l with
            | [] => @List.Forall_nil _ _
            | x :: l => @List.Forall_cons _ _ x l (Expression_nested_ind x.2) (go l)
            end) ms)
  | ArrayAccess n i => HAccess n i (Expression_nested_ind i)
  end.

End ExpressionInduction.

Section StatementInduction.

Variable P : Statement → Prop.
Hypothesis HVariable : ∀ n init, P (VariableDeclaration n init).
Hypothesis HFunction : ∀ n params body, Forall P body → P (FunctionDeclaration n params body).
Hypothesis HIf : ∀ c th el, Forall P th → Forall P el → P (IfStatement c th el).
Hypothesis HLoop : ∀ c body, Forall P body → P (LoopStatement c body).
Hypothesis HReturn : ∀ v, P (ReturnStatement v).
Hypothesis HExpression : ∀ e, P (ExpressionStatement e).

Fixpoint Statement_nested_ind (s : Statement) : P s :=
  let block :=
    fix go (l : list Statement) : Forall P l :=
      match l with
      | [] => @List.Forall_nil _ P
      | x :: l => @List.Forall_cons _ P x l (Statement_nested_ind x) (go l)
      end in
  match s with
  | VariableDeclaration n init => HVariable n init
  | FunctionDeclaration n params body => HFunction n params body (block body)
  | IfStatement c th el => HIf c th el (block th) (block el)
  | LoopStatement c body => HLoop c body (block body)
  | ReturnStatement v => HReturn v
  | ExpressionStatement e => HExpression e
  end.

End StatementInduction.

(** * Proofs *)

(** ** Symbol table *)

Lemma removelast_snoc {A} (l : list A) (x : A) : removelast (l ++ [x]) = l.
Proof. by rewrite removelast_app, app_nil_r. Qed.

Lemma exitScope_enterScope tbl : SymbolTable.exitScope (SymbolTable.enterScope tbl) = tbl
  ∨ SymbolTable.scopes tbl = [].
Proof.
  destruct tbl as [[|g l]]; [by right|left].
  unfold SymbolTable.exitScope, SymbolTable.enterScope.
  cbn [SymbolTable.scopes]. rewrite length_app, removelast_snoc.
  case_decide; [done|]. simpl in *; lia.
Qed.

Lemma globalAtZero_new : globalAtZero SymbolTable.new.
Proof.
  eexists _, []. split; [reflexivity|].
  intros b Hb. unfold builtinNames in Hb.
  repeat (apply elem_of_cons in Hb as [->|Hb]; [eexists; split; [vm_compute; reflexivity|done]|]).
  by apply elem_of_nil in Hb.
Qed.

Lemma holdsBuiltins_insert_function sc n sym :
  isFunction sym = true → holdsBuiltins sc → holdsBuiltins (<[n := sym]> sc).
Proof.
  intros Hf H b Hb. destruct (decide (b = n)) as [->|Hne].
  - rewrite lookup_insert_eq. eauto.
  - rewrite lookup_insert_ne by done. by apply H.
Qed.

Lemma holdsBuiltins_insert_fresh sc n sym :
  sc !! n = None → holdsBuiltins sc → holdsBuiltins (<[n := sym]> sc).
Proof.
  intros Hn H b Hb. destruct (H b Hb) as (s & Hs & Hf).
  exists s. split; [|done]. rewrite lookup_insert_ne; [done|]. intros ->. congruence.
Qed.

(** [update] rewrites one symbol in place: the scope at the far end of the
    search (the global one) stays where it is and keeps the builtins. *)
Lemma update_from_snoc l g n l' :
  SymbolTable.update_from (l ++ [g]) n = Some l' →
  ∃ l0 g', l' = l0 ++ [g'] ∧ (holdsBuiltins g → holdsBuiltins g').
Proof.
  revert l'. induction l as [|sc l IH]; intros l'; simpl.
  - destruct (g !! n) as [s|] eqn:Hn; [|done].
    intros [= <-]. exists [], (<[n:=set_isInitialized s]> g). split; [done|].
    intros Hg b Hb. destruct (Hg b Hb) as (sym & Hsym & Hf).
    destruct (decide (b = n)) as [->|Hne].
    + rewrite lookup_insert_eq. exists (set_isInitialized s). split; [done|].
      simpl. congruence.
    + rewrite lookup_insert_ne by done. eauto.
  - destruct (sc !! n) as [s|].
    + intros [= <-]. by exists (<[n:=set_isInitialized s]> sc :: l), g.
    + destruct (SymbolTable.update_from (l ++ [g]) n) as [l1|]; simpl; [|done].
      intros [= <-]. destruct (IH l1 eq_refl) as (l0 & g' & -> & Hg).
      by exists (sc :: l0), g'.
Qed.

Lemma globalAtZero_applyOp tbl op : globalAtZero tbl → globalAtZero (applyOp tbl op).
Proof.
  intros (g & inner & Hs & Hg). destruct op as [| |n ty f i|n|n|n ps r]; simpl.
  - exists g, (inner ++ [∅]). unfold SymbolTable.enterScope; simpl. by rewrite Hs.
  - unfold SymbolTable.exitScope. case_decide; [|by exists g, inner].
    rewrite Hs in *. destruct inner as [|sc inner]; simpl in *; [lia|].
    exists g, (removelast (sc :: inner)). done.
  - unfold SymbolTable.define. rewrite Hs.
    destruct (last (g :: inner)) as [cur|] eqn:Hlast; [|by exists g, inner].
    destruct (cur !! n) eqn:Hcur; simpl; [by exists g, inner|].
    destruct inner as [|sc inner]; simpl.
    + simpl in Hlast. injection Hlast as <-.
      eexists _, []. split; [done|]. by apply holdsBuiltins_insert_fresh.
    + eexists g, _. split; [reflexivity|done].
  - by exists g, inner.
  - unfold SymbolTable.update. rewrite Hs, reverse_cons.
    destruct (SymbolTable.update_from (reverse inner ++ [g]) n) as [l'|] eqn:Hu;
      simpl; [|by exists g, inner].
    destruct (update_from_snoc _ _ _ _ Hu) as (l0 & g' & -> & Hg').
    exists g', (reverse l0). split; [by rewrite reverse_snoc|by apply Hg'].
  - unfold SymbolTable.addFunctionSignature. rewrite Hs. simpl.
    eexists _, inner. split; [done|]. by apply holdsBuiltins_insert_function.
Qed.

Lemma globalAtZero_applyOps_from tbl ops :
  globalAtZero tbl → globalAtZero (foldl applyOp tbl ops).
Proof.
  revert tbl. induction ops as [|op ops IH]; intros tbl H; simpl; [done|].
  by apply IH, globalAtZero_applyOp.
Qed.

(** C8.  After construction and any sequence of [enterScope], [exitScope],
    [define], [lookup], [update] and [addFunctionSignature], the scope stack
    is non-empty and its element at index 0 is the global scope (it still binds
    every builtin); [exitScope] on the sole remaining global scope changes
    nothing, and otherwise pops exactly the innermost scope; [enterScope]
    appends exactly one empty scope behind the existing ones. *)
Theorem scope_stack_keeps_global_scope (ops : list TableOp) :
  let tbl := applyOps ops in
  ∃ g inner,
    SymbolTable.scopes tbl = g :: inner
    ∧ holdsBuiltins g
    ∧ match inner with
      | [] => SymbolTable.exitScope tbl = tbl
      | _ :: _ => SymbolTable.scopes (SymbolTable.exitScope tbl) = g :: removelast inner
      end
    ∧ SymbolTable.scopes (SymbolTable.enterScope tbl) = g :: inner ++ [∅].
Proof.
  intros tbl.
  destruct (globalAtZero_applyOps_from SymbolTable.new ops globalAtZero_new)
    as (g & inner & Hs & Hg).
  fold (applyOps ops) in Hs. fold tbl in Hs.
  exists g, inner. repeat split; [done|done| |].
  - unfold SymbolTable.exitScope. rewrite Hs.
    destruct inner as [|sc inner]; [done|].
    cbn [length]. case_decide; [done|lia].
  - unfold SymbolTable.enterScope. simpl. by rewrite Hs.
Qed.

(** ** Diagnostics are only appended *)

Lemma push_error_prepend E msg a : push_error msg (prepend E a) = prepend E (push_error msg a).
Proof. unfold push_error, prepend; simpl. by rewrite app_assoc. Qed.

Ltac frame_step :=
  match goal with
  | H : framed ?f |- context [?f (prepend ?E ?a)] =>
      rewrite (H E a); destruct (f a) as [? ?]; cbn [prod_map id fst snd]
  | H : framed_ ?f |- context [?f (prepend ?E ?a)] => rewrite (H E a)
  | |- context [push_error _ (prepend _ _)] => rewrite push_error_prepend
  | |- context [symbolTable (prepend _ _)] => progress cbn [symbolTable prepend]
  | |- context [inFunction (prepend _ _)] => progress cbn [inFunction prepend]
  | |- context [currentReturnType (prepend _ _)] => progress cbn [currentReturnType prepend]
  | |- context [bool_decide ?P] => destruct (bool_decide P)
  | |- context [with_symbolTable ?t (prepend ?E ?a)] =>
      change (with_symbolTable t (prepend E a)) with (prepend E (with_symbolTable t a))
  | |- context [with_function_context ?f ?r (prepend ?E ?a)] =>
      change (with_function_context f r (prepend E a))
        with (prepend E (with_function_context f r a))
  end.

Lemma framed_foldl {B} (f : B → SemanticAnalyzer → SemanticAnalyzer) (l : list B) :
  Forall (λ x, framed_ (f x)) l → framed_ (λ a, foldl (λ a x, f x a) a l).
Proof.
  induction 1 as [|x l Hx _ IH]; intros E a; simpl; [done|].
  rewrite (Hx E a). apply IH.
Qed.

Lemma analyzeArguments_framed args :
  Forall (λ e, framed (analyzeExpression e)) args →
  framed_ (analyzeArguments analyzeExpression args).
Proof.
  intros H. unfold analyzeArguments.
  apply (framed_foldl (λ arg a, (analyzeExpression arg a).2)).
  eapply Forall_impl; [exact H|]. intros e He E a. simpl.
  rewrite (He E a). by destruct (analyzeExpression e a).
Qed.

Lemma analyzeExpression_framed e : framed (analyzeExpression e).
Proof.
  induction e as [v|v|v|n|l op r IHl IHr|op e IH|n v IH|n args IH|es _|ms _|n i IH]
    using Expression_nested_ind; intros E a; cbn [analyzeExpression]; try done.
  - cbn [symbolTable prepend]. destruct (SymbolTable.lookup n (symbolTable a)); [done|].
    by rewrite push_error_prepend.
  - unfold analyzeBinaryOp. repeat frame_step; done.
  - unfold analyzeUnaryOp. repeat frame_step; done.
  - unfold analyzeAssignment. cbn [symbolTable prepend].
    destruct (SymbolTable.lookup n (symbolTable a)); repeat frame_step; done.
  - pose proof (analyzeArguments_framed args IH) as Hargs.
    unfold analyzeFunctionCall. cbn [symbolTable prepend].
    destruct (SymbolTable.lookup n (symbolTable a)) as [funcSym|]; [|by repeat frame_step].
    destruct (isFunction funcSym); cbn [negb]; [|by repeat frame_step].
    assert (∀ E a, foldl (λ a arg,
                      let '(argType, a) := analyzeExpression arg a in
                      if bool_decide (argType ≠ DataType.NUMBER ∧ argType ≠ DataType.UNKNOWN)
                      then push_error ("ERROR: " +:+ n +:+ "() expects number arguments") a
                      else a) (prepend E a) args
                    = prepend E (foldl (λ a arg,
                      let '(argType, a) := analyzeExpression arg a in
                      if bool_decide (argType ≠ DataType.NUMBER ∧ argType ≠ DataType.UNKNOWN)
                      then push_error ("ERROR: " +:+ n +:+ "() expects number arguments") a
                      else a) a args)) as Hpow.
    { apply (framed_foldl (λ arg a,
                      let '(argType, a) := analyzeExpression arg a in
                      if bool_decide (argType ≠ DataType.NUMBER ∧ argType ≠ DataType.UNKNOWN)
                      then push_error ("ERROR: " +:+ n +:+ "() expects number arguments") a
                      else a)).
      eapply Forall_impl; [exact IH|]. intros e He E' a'. simpl in *. repeat frame_step; done. }
    destruct args as [|arg0 [|arg1 rest]];
      repeat match goal with
             | H : Forall _ (_ :: _) |- _ => apply Forall_cons in H as [? H]
             end;
      cbv beta in *;
      repeat first [rewrite Hpow | frame_step]; done.
  - unfold analyzeArrayAccess. cbn [symbolTable prepend].
    destruct (SymbolTable.lookup n (symbolTable a)); repeat frame_step; done.
Qed.

Lemma defineParameters_framed params : framed_ (defineParameters params).
Proof.
  unfold defineParameters.
  apply (framed_foldl (λ param a,
           with_symbolTable
             (SymbolTable.define param DataType.UNKNOWN false true (symbolTable a)).2 a)).
  apply Forall_forall. intros p _ E a. done.
Qed.

Lemma analyzeBlock_framed block :
  Forall (λ s, framed_ (analyzeStatement s)) block →
  framed_ (analyzeBlock analyzeStatement block).
Proof. intros H. unfold analyzeBlock. by apply (framed_foldl (λ s a, analyzeStatement s a)). Qed.

Lemma analyzeStatement_framed s : framed_ (analyzeStatement s).
Proof.
  induction s as [n init|n params body IH|c th el IHth IHel|c body IH|v|e]
    using Statement_nested_ind; intros E a; cbn [analyzeStatement].
  - unfold analyzeVariableDeclaration.
    destruct init as [e|]; [pose proof (analyzeExpression_framed e)|]; repeat frame_step.
    all: destruct (SymbolTable.define n _ false true _) as [[] ?]; cbn [negb];
      repeat frame_step; done.
  - pose proof (defineParameters_framed params).
    pose proof (analyzeBlock_framed body IH).
    unfold analyzeFunctionDeclaration. repeat frame_step. done.
  - pose proof (analyzeExpression_framed c).
    pose proof (analyzeBlock_framed th IHth).
    pose proof (analyzeBlock_framed el IHel).
    unfold analyzeIfStatement. destruct el; repeat frame_step; done.
  - pose proof (analyzeExpression_framed c).
    pose proof (analyzeBlock_framed body IH).
    unfold analyzeLoopStatement. repeat frame_step; done.
  - unfold analyzeReturnStatement. cbn [inFunction prepend].
    destruct (inFunction a); cbn [negb]; [|by rewrite push_error_prepend].
    destruct v as [e|]; [|done].
    pose proof (analyzeExpression_framed e). by repeat frame_step.
  - pose proof (analyzeExpression_framed e). by repeat frame_step.
Qed.

Lemma prepend_clearErrors a : prepend (errors a) (clearErrors a) = a.
Proof. destruct a. unfold prepend, clearErrors; simpl. by rewrite app_nil_r. Qed.

Lemma analyzeExpression_errors e a :
  errors (analyzeExpression e a).2 = errors a ++ expressionDiagnostics e a.
Proof.
  rewrite <- (prepend_clearErrors a) at 1.
  rewrite analyzeExpression_framed. unfold expressionDiagnostics.
  by destruct (analyzeExpression e (clearErrors a)).
Qed.

Lemma analyzeBlock_errors block a :
  errors (analyzeBlock analyzeStatement block a) = errors a ++ blockDiagnostics block a.
Proof.
  rewrite <- (prepend_clearErrors a) at 1.
  rewrite (analyzeBlock_framed block); [done|].
  apply Forall_forall. intros s _. apply analyzeStatement_framed.
Qed.

(** What [bodyDiagnostics] and [branchDiagnostics] amount to: the diagnostics
    of the body in a scope of its own; those of the then-branch in a scope of
    its own, followed, when there is an else-branch, by those of the
    else-branch in another. *)
Lemma bodyDiagnostics_block body a :
  bodyDiagnostics body a = blockDiagnostics body (entered a).
Proof. reflexivity. Qed.

Lemma analyzeBlock_clearErrors block a :
  clearErrors (analyzeBlock analyzeStatement block (clearErrors a))
  = clearErrors (analyzeBlock analyzeStatement block a).
Proof.
  rewrite <- (prepend_clearErrors a) at 2.
  rewrite (analyzeBlock_framed block)
    by (apply Forall_forall; intros s _; apply analyzeStatement_framed).
  reflexivity.
Qed.

Lemma branchDiagnostics_blocks th el a :
  branchDiagnostics th el a
  = blockDiagnostics th (entered a)
    ++ match el with
       | [] => []
       | _ :: _ =>
           blockDiagnostics el (entered (exited (analyzeBlock analyzeStatement th (entered a))))
       end.
Proof.
  unfold branchDiagnostics. cbn [analyzeStatement]. unfold analyzeIfStatement.
  cbn [analyzeExpression]. rewrite bool_decide_eq_false_2 by naive_solver.
  fold (entered (clearErrors a)).
  change (entered (clearErrors a)) with (clearErrors (entered a)).
  fold (blockDiagnostics th (entered a)).
  destruct el as [|s el]; [by rewrite app_nil_r|].
  cbn [errors with_symbolTable].
  set (B := analyzeBlock analyzeStatement th (clearErrors (entered a))).
  fold (exited B). fold (entered (exited B)).
  rewrite analyzeBlock_errors. f_equal.
  unfold blockDiagnostics. do 2 f_equal.
  change (clearErrors (entered (exited B))) with (entered (exited (clearErrors B))).
  unfold B. by rewrite analyzeBlock_clearErrors.
Qed.

(** ** Conditions of [agar] and [daura] *)

Lemma analyzeStatement_errors s a :
  errors (analyzeStatement s a) = errors a ++ errors (analyzeStatement s (clearErrors a)).
Proof.
  rewrite <- (prepend_clearErrors a) at 1. by rewrite analyzeStatement_framed.
Qed.

Lemma condition_check_errors construct t a :
  errors (if bool_decide (t ≠ DataType.BOOLEAN ∧ t ≠ DataType.UNKNOWN ∧ t ≠ DataType.VOID)
          then push_error ("ERROR: " +:+ construct +:+ " condition must be boolean, got "
                           +:+ dataTypeToString t) a
          else a)
  = errors a ++ conditionMismatch construct t.
Proof.
  unfold conditionMismatch, acceptedCondition.
  destruct t; simpl; by rewrite ?app_nil_r.
Qed.

(** C5.  The diagnostics of an [agar] statement are those of its condition,
    then one type-mismatch diagnostic exactly when the type of the condition
    is none of Boolean, Unknown and Void, then those of its branches; likewise
    for a [daura] loop.  [agar (1 + 2) { }] adds exactly one diagnostic, the
    mismatch naming the type [number] of its condition. *)
Theorem condition_mismatch_exactly_when_rejected
    (c : Expression) (th el body : list Statement) (a : SemanticAnalyzer) :
  let '(condType, a1) := analyzeExpression c a in
  errors (analyzeStatement (IfStatement c th el) a)
    = errors a ++ expressionDiagnostics c a ++ conditionMismatch "If" condType
        ++ branchDiagnostics th el a1
  ∧ errors (analyzeStatement (LoopStatement c body) a)
    = errors a ++ expressionDiagnostics c a ++ conditionMismatch "Loop" condType
        ++ bodyDiagnostics body a1
  ∧ (conditionMismatch "If" condType = [] ↔ acceptedCondition condType)
  ∧ errors (analyzeStatement
              (IfStatement (BinaryOp (NumberLiteral "1") "+" (NumberLiteral "2")) [] []) a)
    = errors a ++ ["ERROR: If condition must be boolean, got number"].
Proof.
  pose proof (analyzeExpression_errors c a) as Hc.
  destruct (analyzeExpression c a) as [condType a1] eqn:Hca. simpl in Hc.
  split; [|split; [|split]].
  - rewrite app_assoc, <- Hc. unfold branchDiagnostics.
    cbn [analyzeStatement]. unfold analyzeIfStatement at 1. rewrite Hca.
    set (a2 := if bool_decide _ then _ else a1).
    assert (errors a2 = errors a1 ++ conditionMismatch "If" condType) as H2
      by apply (condition_check_errors "If").
    rewrite app_assoc, <- H2.
    change (errors (analyzeStatement (IfStatement (BooleanLiteral true) th el) a2)
            = errors a2 ++ errors (analyzeStatement (IfStatement (BooleanLiteral true) th el)
                                     (clearErrors a1))).
    replace (clearErrors a1) with (clearErrors a2); [apply analyzeStatement_errors|].
    unfold a2. by case_bool_decide.
  - rewrite app_assoc, <- Hc. unfold bodyDiagnostics.
    cbn [analyzeStatement]. unfold analyzeLoopStatement at 1. rewrite Hca.
    set (a2 := if bool_decide _ then _ else a1).
    assert (errors a2 = errors a1 ++ conditionMismatch "Loop" condType) as H2
      by apply (condition_check_errors "Loop").
    rewrite app_assoc, <- H2.
    change (errors (analyzeStatement (LoopStatement (BooleanLiteral true) body) a2)
            = errors a2 ++ errors (analyzeStatement (LoopStatement (BooleanLiteral true) body)
                                     (clearErrors a1))).
    replace (clearErrors a1) with (clearErrors a2); [apply analyzeStatement_errors|].
    unfold a2. by case_bool_decide.
  - unfold conditionMismatch. case_decide; naive_solver.
  - reflexivity.
Qed.

(** ** Invariants of the symbol table along the analysis *)

(** The expression analysis touches the symbol table through [update] only,
    the statement analysis through [update], [define], [addFunctionSignature]
    (always with return type [VOID]), [enterScope] and [exitScope].  A property
    of tables that these keep is kept by the whole traversal. *)
Section TableInvariant.

Variable I : SymbolTable.t → Prop.
Hypothesis I_update : ∀ n tbl, I tbl → I (SymbolTable.update n tbl).2.

Lemma keepsTable_foldl {B} (f : B → SemanticAnalyzer → SemanticAnalyzer) (l : list B) :
  Forall (λ x, keepsTable I (f x)) l → keepsTable I (λ a, foldl (λ a x, f x a) a l).
Proof.
  induction 1 as [|x l Hx _ IH]; intros a Ha; simpl; [done|].
  apply IH, Hx, Ha.
Qed.

Ltac table_step :=
  match goal with
  | IH : keepsTable I (λ a, (analyzeExpression ?e a).2)
    |- context [analyzeExpression ?e ?x] =>
      let H := fresh "Ht" in
      let H' := fresh "Ht" in
      assert (I (symbolTable x)) as H by done;
      pose proof (IH x H) as H'; cbv beta in H';
      destruct (analyzeExpression e x) as [? ?]; cbn [fst snd] in H' |- *
  | |- context [bool_decide ?P] => destruct (bool_decide P)
  | |- I (symbolTable (push_error _ _)) => cbn [symbolTable push_error]
  | |- I (symbolTable (with_symbolTable _ _)) => cbn [symbolTable with_symbolTable]
  | |- I (symbolTable (with_function_context _ _ _)) =>
      cbn [symbolTable with_function_context]
  | |- I (SymbolTable.update _ _).2 => apply I_update
  | |- I (symbolTable (_, _).2) => cbn [snd]
  end.

Lemma analyzeExpression_keepsTable e : keepsTable I (λ a, (analyzeExpression e a).2).
Proof.
  induction e as [v|v|v|n|l op r IHl IHr|op e IH|n v IH|n args IH|es _|ms _|n i IH]
    using Expression_nested_ind; intros a Ha; cbn [analyzeExpression]; try done.
  - destruct (SymbolTable.lookup n (symbolTable a)); done.
  - unfold analyzeBinaryOp. repeat table_step; done.
  - unfold analyzeUnaryOp. repeat table_step; done.
  - unfold analyzeAssignment.
    destruct (SymbolTable.lookup n (symbolTable a)); repeat table_step; done.
  - assert (keepsTable I (analyzeArguments analyzeExpression args)) as Hargs.
    { apply (keepsTable_foldl (λ arg a, (analyzeExpression arg a).2)), IH. }
    assert (keepsTable I (λ a, foldl (λ a arg,
                    let '(argType, a) := analyzeExpression arg a in
                    if bool_decide (argType ≠ DataType.NUMBER ∧ argType ≠ DataType.UNKNOWN)
                    then push_error ("ERROR: " +:+ n +:+ "() expects number arguments") a
                    else a) a args)) as Hpow.
    { apply (keepsTable_foldl (λ arg a,
                    let '(argType, a) := analyzeExpression arg a in
                    if bool_decide (argType ≠ DataType.NUMBER ∧ argType ≠ DataType.UNKNOWN)
                    then push_error ("ERROR: " +:+ n +:+ "() expects number arguments") a
                    else a)).
      eapply Forall_impl; [exact IH|]. intros e He a' Ha'. cbv beta in He.
      repeat table_step; done. }
    unfold analyzeFunctionCall.
    destruct (SymbolTable.lookup n (symbolTable a)) as [funcSym|]; [|done].
    destruct (isFunction funcSym); cbn [negb]; [|done].
    destruct args as [|arg0 [|arg1 rest]];
      repeat match goal with
             | H : Forall _ (_ :: _) |- _ => apply Forall_cons in H as [? H]
             end;
      cbv beta in *;
      repeat first [table_step | apply Hpow | apply Hargs].
    all: done.
  - unfold analyzeArrayAccess.
    destruct (SymbolTable.lookup n (symbolTable a)); repeat table_step; done.
Qed.

Hypothesis I_define : ∀ n ty tbl, I tbl → I (SymbolTable.define n ty false true tbl).2.
Hypothesis I_addFunctionSignature :
  ∀ n params tbl, I tbl → I (SymbolTable.addFunctionSignature n params DataType.VOID tbl).
Hypothesis I_enterScope : ∀ tbl, I tbl → I (SymbolTable.enterScope tbl).
Hypothesis I_exitScope : ∀ tbl, I tbl → I (SymbolTable.exitScope tbl).

Lemma defineParameters_keepsTable params : keepsTable I (defineParameters params).
Proof.
  apply (keepsTable_foldl (λ param a,
           with_symbolTable
             (SymbolTable.define param DataType.UNKNOWN false true (symbolTable a)).2 a)).
  apply Forall_forall. intros p _ a Ha. by apply I_define.
Qed.

(** A block analysed in a scope of its own. *)
Lemma scopedBlock_keepsTable block :
  Forall (λ s, keepsTable I (analyzeStatement s)) block →
  keepsTable I (λ a,
    let a := with_symbolTable (SymbolTable.enterScope (symbolTable a)) a in
    let a := analyzeBlock analyzeStatement block a in
    with_symbolTable (SymbolTable.exitScope (symbolTable a)) a).
Proof.
  intros Hblock a Ha. cbn [symbolTable with_symbolTable]. apply I_exitScope.
  apply (keepsTable_foldl (λ s a, analyzeStatement s a)); [done|].
  by apply I_enterScope.
Qed.

Lemma analyzeStatement_keepsTable s : keepsTable I (analyzeStatement s).
Proof.
  induction s as [n init|n params body IH|c th el IHth IHel|c body IH|v|e]
    using Statement_nested_ind; intros a Ha; cbn [analyzeStatement].
  - unfold analyzeVariableDeclaration.
    destruct init as [e|]; [pose proof (analyzeExpression_keepsTable e)|];
      repeat table_step.
    all: match goal with
         | |- context [SymbolTable.define ?n ?ty false true ?t] =>
             pose proof (I_define n ty t ltac:(done));
             destruct (SymbolTable.define n ty false true t) as [[] ?]
         end; cbn [negb]; repeat table_step; done.
  - unfold analyzeFunctionDeclaration. repeat table_step.
    apply I_exitScope. repeat table_step.
    apply (keepsTable_foldl (λ s a, analyzeStatement s a)); [done|].
    apply defineParameters_keepsTable. repeat table_step.
    by apply I_enterScope, I_addFunctionSignature.
  - pose proof (analyzeExpression_keepsTable c).
    unfold analyzeIfStatement. table_step.
    destruct el as [|s0 el].
    + apply (scopedBlock_keepsTable th IHth). repeat table_step; done.
    + apply (scopedBlock_keepsTable (s0 :: el) IHel).
      apply (scopedBlock_keepsTable th IHth). repeat table_step; done.
  - pose proof (analyzeExpression_keepsTable c).
    unfold analyzeLoopStatement. table_step.
    apply (scopedBlock_keepsTable body IH). repeat table_step; done.
  - unfold analyzeReturnStatement. destruct (inFunction a); cbn [negb]; [|done].
    destruct v as [e|]; [|done]. by apply analyzeExpression_keepsTable.
  - by apply analyzeExpression_keepsTable.
Qed.

End TableInvariant.

(** ** Assignment *)

Lemma update_from_None l m :
  SymbolTable.update_from l m = None → SymbolTable.lookup_from l m = None.
Proof.
  induction l as [|sc l IH]; simpl; [done|].
  destruct (sc !! m); [done|].
  destruct (SymbolTable.update_from l m); [done|]. auto.
Qed.

Lemma lookup_from_update_from l m l' n :
  SymbolTable.update_from l m = Some l' →
  SymbolTable.lookup_from l' n
  = if decide (n = m) then set_isInitialized <$> SymbolTable.lookup_from l n
    else SymbolTable.lookup_from l n.
Proof.
  revert l'. induction l as [|sc l IH]; intros l'; simpl; [done|].
  destruct (sc !! m) as [s|] eqn:Hm.
  - intros [= <-]. simpl. case_decide as Hn; subst.
    + by rewrite lookup_insert_eq, Hm.
    + by rewrite lookup_insert_ne.
  - destruct (SymbolTable.update_from l m) as [l0|]; simpl; [|done].
    intros [= <-]. simpl. rewrite (IH l0 eq_refl).
    case_decide; subst; [by rewrite Hm|done].
Qed.

(** After [update(m)] the nearest binding of [m] is initialized and every
    other name resolves as before. *)
Lemma lookup_update n m tbl :
  SymbolTable.lookup n (SymbolTable.update m tbl).2
  = if decide (n = m) then set_isInitialized <$> SymbolTable.lookup n tbl
    else SymbolTable.lookup n tbl.
Proof.
  unfold SymbolTable.update, SymbolTable.lookup.
  destruct (SymbolTable.update_from (reverse (SymbolTable.scopes tbl)) m) as [l'|] eqn:Hu;
    simpl.
  - rewrite reverse_involutive. by apply lookup_from_update_from.
  - case_decide; [subst|done]. by rewrite (update_from_None _ _ Hu).
Qed.

Lemma sameBindings_update tbl0 m tbl :
  sameBindings tbl0 tbl → sameBindings tbl0 (SymbolTable.update m tbl).2.
Proof.
  intros H n. rewrite lookup_update, <- (H n).
  case_decide; [|done]. by destruct (SymbolTable.lookup n tbl).
Qed.

(** An expression declares nothing: it leaves every binding in place. *)
Lemma analyzeExpression_sameBindings e a :
  sameBindings (symbolTable a) (symbolTable (analyzeExpression e a).2).
Proof.
  apply (analyzeExpression_keepsTable (sameBindings (symbolTable a))); [|done].
  intros n tbl. apply sameBindings_update.
Qed.

(** C7 (counterexample).  Assigned to a name that no scope defines, [y = 1]
    has type Unknown although its value has type Number, and [y] is not
    marked initialized: it is as undefined afterwards as it was before. *)
Lemma assignment_to_undefined_target_is_unknown :
  SymbolTable.lookup "y" (symbolTable newAnalyzer) = None
  ∧ analyzeExpression (Assignment "y" (NumberLiteral "1")) newAnalyzer
    = (DataType.UNKNOWN, push_error "ERROR: Undefined variable 'y'" newAnalyzer)
  ∧ (analyzeExpression (NumberLiteral "1") newAnalyzer).1 = DataType.NUMBER
  ∧ (analyzeExpression (Assignment "y" (NumberLiteral "1")) newAnalyzer).1
    ≠ (analyzeExpression (NumberLiteral "1") newAnalyzer).1
  ∧ SymbolTable.lookup "y"
      (symbolTable (analyzeExpression (Assignment "y" (NumberLiteral "1")) newAnalyzer).2)
    = None.
Proof. by vm_compute. Qed.

(** C7 (amended).  An assignment to a name that no visible scope defines
    records the undefined-variable error, does not analyze the value, binds
    nothing and yields Unknown.  An assignment to a defined name yields the
    type of its value; after the diagnostics of the value it records one
    type-mismatch diagnostic (naming the variable, the declared and the
    actual type) exactly when both types are known and differ; and afterwards
    the name resolves to the same symbol, marked initialized.
    [banao x = 1; x = 'a';] records exactly that one mismatch. *)
Theorem assignment_checks_target_and_type (n : string) (value : Expression)
    (a : SemanticAnalyzer) :
  let result := analyzeExpression (Assignment n value) a in
  match SymbolTable.lookup n (symbolTable a) with
  | None =>
      result = (DataType.UNKNOWN, push_error ("ERROR: Undefined variable '" +:+ n +:+ "'") a)
      ∧ SymbolTable.lookup n (symbolTable result.2) = None
  | Some sym =>
      let '(valueType, a1) := analyzeExpression value a in
      result.1 = valueType
      ∧ errors result.2 = errors a1 ++ assignmentMismatch n (type sym) valueType
      ∧ ∃ sym', SymbolTable.lookup n (symbolTable result.2) = Some sym'
                ∧ isInitialized sym' = true
                ∧ sym' = set_isInitialized sym
  end
  ∧ errors (analyzeBlock analyzeStatement
              [VariableDeclaration "x" (Some (NumberLiteral "1"));
               ExpressionStatement (Assignment "x" (StringLiteral "a"))] newAnalyzer)
    = ["ERROR: Type mismatch in assignment to 'x': expected number, got string"].
Proof.
  intros result. split; [|by vm_compute].
  subst result. cbn [analyzeExpression]. unfold analyzeAssignment.
  destruct (SymbolTable.lookup n (symbolTable a)) as [sym|] eqn:Hsym; [|done].
  pose proof (analyzeExpression_sameBindings value a n) as Hsame.
  destruct (analyzeExpression value a) as [valueType a1]. cbn [fst snd] in *.
  split; [done|]. split.
  - cbn [errors with_symbolTable]. unfold assignmentMismatch.
    case_bool_decide; case_decide; try done; simpl; by rewrite ?app_nil_r.
  - cbn [symbolTable with_symbolTable].
    assert (∀ x, symbolTable (if bool_decide (type sym ≠ DataType.UNKNOWN
                                    ∧ valueType ≠ DataType.UNKNOWN ∧ type sym ≠ valueType)
                  then push_error x a1 else a1) = symbolTable a1) as ->
      by (intros; by case_bool_decide).
    rewrite lookup_update. case_decide; [|done].
    rewrite Hsym in Hsame.
    destruct (SymbolTable.lookup n (symbolTable a1)) as [sym1|]; [|done].
    exists (set_isInitialized sym1). split; [done|]. split; [done|].
    cbn [fmap option_fmap option_map] in Hsame. congruence.
Qed.

(** ** Calls *)

(** C9.  Where [band] resolves to a function symbol, as it does to the
    builtin, a call [band(args)] yields Void and leaves the analyzer exactly
    as it found it, whatever and however many the arguments: none of them is
    analyzed, so nothing that they would report is recorded. *)
Theorem band_call_skips_arguments (args : list Expression) (a : SemanticAnalyzer)
    (sym : Symbol) :
  SymbolTable.lookup "band" (symbolTable a) = Some sym →
  isFunction sym = true →
  analyzeExpression (FunctionCall "band" args) a = (DataType.VOID, a).
Proof.
  intros Hsym Hf. cbn [analyzeExpression]. unfold analyzeFunctionCall.
  rewrite Hsym, Hf. reflexivity.
Qed.

(** [band(x, y + 1)] with [x] and [y] undefined, in a fresh analyzer; the
    arguments on their own do report. *)
Lemma band_call_skips_arguments_witness :
  analyzeExpression
    (FunctionCall "band" [Identifier "x"; BinaryOp (Identifier "y") "+" (NumberLiteral "1")])
    newAnalyzer
  = (DataType.VOID, newAnalyzer)
  ∧ errors (analyzeExpression (Identifier "x") newAnalyzer).2
    = ["ERROR: Undefined variable 'x'"].
Proof.
  split; [|reflexivity].
  apply (band_call_skips_arguments _ newAnalyzer
           (mkSymbol "band" DataType.VOID true true [] DataType.VOID)); reflexivity.
Defined.

(** ** Function declarations *)

Lemma parameterScope_lookup params p :
  parameterScope params !! p
  = if decide (p ∈ params) then Some (Symbol_ p DataType.UNKNOWN false true) else None.
Proof.
  unfold parameterScope. induction params as [|q params IH].
  - by rewrite decide_False by set_solver.
  - rewrite fmap_cons, list_to_map_cons, lookup_insert. destruct (decide (q = p)) as [->|Hq].
    + by rewrite decide_True by set_solver.
    + rewrite IH. destruct (decide (p ∈ params)).
      * by rewrite decide_True by set_solver.
      * by rewrite decide_False by set_solver.
Qed.

Lemma define_innermost outer cur n ty isFunc isInit :
  SymbolTable.define n ty isFunc isInit (SymbolTable.mk (outer ++ [cur]))
  = match cur !! n with
    | Some _ => (false, SymbolTable.mk (outer ++ [cur]))
    | None => (true, SymbolTable.mk (outer ++ [<[n := Symbol_ n ty isFunc isInit]> cur]))
    end.
Proof.
  unfold SymbolTable.define. cbn [SymbolTable.scopes]. rewrite last_snoc.
  destruct (cur !! n); [done|].
  rewrite length_app. simpl. replace (pred (length outer + 1)) with (length outer + 0) by lia.
  by rewrite insert_app_r.
Qed.

(** The parameter loop changes the innermost scope only: names already bound
    there stay as they are, every other parameter name is bound once. *)
Lemma defineParameters_innermost params a outer cur :
  SymbolTable.scopes (symbolTable a) = outer ++ [cur] →
  ∃ cur',
    defineParameters params a = with_symbolTable (SymbolTable.mk (outer ++ [cur'])) a
    ∧ ∀ p, cur' !! p = match cur !! p with
                       | Some sym => Some sym
                       | None => parameterScope params !! p
                       end.
Proof.
  unfold defineParameters. revert a cur.
  induction params as [|q params IH]; intros a cur Hs; simpl.
  - exists cur. split.
    + destruct a as [[scopes] ? ? ?]. simpl in *. by subst.
    + intros p. rewrite parameterScope_lookup. destruct (cur !! p); [done|].
      by rewrite decide_False by set_solver.
  - destruct a as [[scopes] errs ret inFn]. simpl in Hs. subst scopes.
    cbn [symbolTable with_symbolTable]. rewrite define_innermost.
    destruct (cur !! q) as [s|] eqn:Hq; cbn [snd].
    + destruct (IH (mkAnalyzer (SymbolTable.mk (outer ++ [cur])) errs ret inFn) cur eq_refl)
        as (cur' & Heq & Hcur').
      exists cur'. split; [exact Heq|]. intros p. rewrite Hcur'.
      destruct (cur !! p) eqn:Hp; [done|].
      rewrite !parameterScope_lookup.
      destruct (decide (p ∈ params)).
      * by rewrite decide_True by set_solver.
      * rewrite decide_False; [done|]. intros [->|?]%elem_of_cons; [congruence|done].
    + destruct (IH (mkAnalyzer
                      (SymbolTable.mk
                         (outer ++ [<[q:=Symbol_ q DataType.UNKNOWN false true]> cur]))
                      errs ret inFn) _ eq_refl) as (cur' & Heq & Hcur').
      exists cur'. split; [exact Heq|]. intros p. rewrite Hcur'.
      rewrite lookup_insert. destruct (decide (q = p)) as [->|Hpq].
      * rewrite Hq, parameterScope_lookup. by rewrite decide_True by set_solver.
      * destruct (cur !! p); [done|].
        rewrite !parameterScope_lookup.
        destruct (decide (p ∈ params)).
        -- by rewrite decide_True by set_solver.
        -- by rewrite decide_False by set_solver.
Qed.

Lemma bodyEntry_spec f params a :
  let registered :=
    SymbolTable.addFunctionSignature f (replicate (length params) DataType.UNKNOWN)
      DataType.VOID (symbolTable a) in
  bodyEntry f params a
  = mkAnalyzer (SymbolTable.mk (SymbolTable.scopes registered ++ [parameterScope params]))
      (errors a) DataType.UNKNOWN true.
Proof.
  intros registered. unfold bodyEntry. fold registered.
  edestruct (defineParameters_innermost params) as (cur' & -> & Hcur'); [reflexivity|].
  assert (cur' = parameterScope params) as ->.
  { apply map_eq. intros p. by rewrite Hcur', lookup_empty. }
  reflexivity.
Qed.

(** C10.  A function declaration records nothing on account of its parameter
    list, whether or not a name occurs twice in it: all that it records comes
    from its body.  When the body starts, the function scope binds every
    parameter name exactly once, as an Unknown variable; defining any of them
    again, as the loop does for a repeated name, fails and changes nothing.
    [kaam main(a, a) { }] passes the analysis without a diagnostic. *)
Theorem duplicate_parameters_are_silent (f : string) (params : list string)
    (body : list Statement) (a : SemanticAnalyzer) :
  let entry := bodyEntry f params a in
  errors entry = errors a
  ∧ (∃ outer, SymbolTable.scopes (symbolTable entry) = outer ++ [parameterScope params])
  ∧ (∀ p, parameterScope params !! p
          = if decide (p ∈ params) then Some (Symbol_ p DataType.UNKNOWN false true) else None)
  ∧ (∀ p, p ∈ params →
          SymbolTable.define p DataType.UNKNOWN false true (symbolTable entry)
          = (false, symbolTable entry))
  ∧ errors (analyzeStatement (FunctionDeclaration f params body) a)
    = errors a ++ blockDiagnostics body entry
  ∧ analyze (mkProgram [FunctionDeclaration "main" ["a"; "a"] []]) newAnalyzer
    = (true, with_symbolTable
               (SymbolTable.addFunctionSignature "main" [DataType.UNKNOWN; DataType.UNKNOWN]
                  DataType.VOID SymbolTable.new) newAnalyzer).
Proof.
  intros entry. pose proof (bodyEntry_spec f params a) as Hentry. cbv zeta in Hentry.
  fold entry in Hentry.
  split; [by rewrite Hentry|]. split; [rewrite Hentry; eauto|].
  split; [apply parameterScope_lookup|]. split; [|split].
  - intros p Hp. rewrite Hentry. cbn [symbolTable]. rewrite define_innermost.
    by rewrite parameterScope_lookup, decide_True.
  - cbn [analyzeStatement]. unfold analyzeFunctionDeclaration.
    change (defineParameters params _) with entry.
    cbn [errors with_symbolTable with_function_context].
    rewrite analyzeBlock_errors. by rewrite Hentry.
  - by vm_compute.
Qed.

(** [kaam f(x, y, x) { }]: [x] is defined once and defining it again fails. *)
Lemma duplicate_parameters_are_silent_witness :
  "x" ∈ ["x"; "y"; "x"]
  ∧ SymbolTable.define "x" DataType.UNKNOWN false true
      (symbolTable (bodyEntry "f" ["x"; "y"; "x"] newAnalyzer))
    = (false, symbolTable (bodyEntry "f" ["x"; "y"; "x"] newAnalyzer)).
Proof.
  assert ("x" ∈ ["x"; "y"; "x"]) as Hx by (apply (bool_decide_unpack _); vm_compute; exact I).
  split; [exact Hx|].
  exact (proj1 (proj2 (proj2 (proj2
           (duplicate_parameters_are_silent "f" ["x"; "y"; "x"] [] newAnalyzer)))) "x" Hx).
Defined.

(** ** Arithmetic operators *)

Lemma returnsVoidOrNumber_new : returnsVoidOrNumber SymbolTable.new.
Proof.
  unfold returnsVoidOrNumber. apply Forall_singleton.
  unfold SymbolTable.new, SymbolTable.initBuiltins, SymbolTable.addFunctionSignature.
  cbn [SymbolTable.scopes].
  repeat (apply map_Forall_insert_2; [simpl; auto|]). apply map_Forall_empty.
Qed.

Lemma returnsVoidOrNumber_update_from l n l' :
  SymbolTable.update_from l n = Some l' →
  Forall (map_Forall (λ _ sym, returnType sym = DataType.VOID
                               ∨ returnType sym = DataType.NUMBER)) l →
  Forall (map_Forall (λ _ sym, returnType sym = DataType.VOID
                               ∨ returnType sym = DataType.NUMBER)) l'.
Proof.
  revert l'. induction l as [|sc l IH]; intros l'; simpl; [done|].
  intros Hu [Hsc Hl]%Forall_cons.
  destruct (sc !! n) as [s|] eqn:Hn.
  - injection Hu as <-. apply Forall_cons. split; [|done].
    apply map_Forall_insert_2; [|done]. simpl. by apply (Hsc n s).
  - destruct (SymbolTable.update_from l n) as [l0|]; simpl in Hu; [|done].
    injection Hu as <-. apply Forall_cons. split; [done|]. by apply IH.
Qed.

Lemma returnsVoidOrNumber_update n tbl :
  returnsVoidOrNumber tbl → returnsVoidOrNumber (SymbolTable.update n tbl).2.
Proof.
  unfold returnsVoidOrNumber, SymbolTable.update. intros H.
  destruct (SymbolTable.update_from (reverse (SymbolTable.scopes tbl)) n) as [l'|] eqn:Hu;
    simpl; [|done].
  apply Forall_reverse. eapply returnsVoidOrNumber_update_from; [exact Hu|].
  by apply Forall_reverse.
Qed.

Lemma returnsVoidOrNumber_define n ty tbl :
  returnsVoidOrNumber tbl → returnsVoidOrNumber (SymbolTable.define n ty false true tbl).2.
Proof.
  unfold returnsVoidOrNumber. intros H. destruct tbl as [scopes]. simpl in H.
  destruct (last scopes) as [cur|] eqn:Hlast.
  - apply last_Some in Hlast as [outer ->]. rewrite define_innermost.
    destruct (cur !! n); simpl; [done|].
    apply Forall_app in H as [Houter Hcur]. rewrite Forall_singleton in Hcur.
    apply Forall_app. split; [done|]. apply Forall_singleton.
    apply map_Forall_insert_2; [simpl; by left|done].
  - unfold SymbolTable.define. simpl. by rewrite Hlast.
Qed.

Lemma returnsVoidOrNumber_addFunctionSignature n params tbl :
  returnsVoidOrNumber tbl →
  returnsVoidOrNumber (SymbolTable.addFunctionSignature n params DataType.VOID tbl).
Proof.
  unfold returnsVoidOrNumber, SymbolTable.addFunctionSignature. intros H.
  destruct (SymbolTable.scopes tbl) as [|g inner] eqn:Hs; [by rewrite Hs|].
  simpl. apply Forall_cons in H as [Hg Hinner]. apply Forall_cons. split; [|done].
  apply map_Forall_insert_2; [simpl; by left|done].
Qed.

Lemma returnsVoidOrNumber_enterScope tbl :
  returnsVoidOrNumber tbl → returnsVoidOrNumber (SymbolTable.enterScope tbl).
Proof.
  unfold returnsVoidOrNumber, SymbolTable.enterScope. intros H. simpl.
  apply Forall_app. split; [done|]. apply Forall_singleton, map_Forall_empty.
Qed.

Lemma returnsVoidOrNumber_exitScope tbl :
  returnsVoidOrNumber tbl → returnsVoidOrNumber (SymbolTable.exitScope tbl).
Proof.
  unfold returnsVoidOrNumber, SymbolTable.exitScope. intros H.
  case_decide; [|done]. simpl.
  destruct (SymbolTable.scopes tbl) as [|g inner] using rev_ind; [done|].
  rewrite removelast_snoc. by apply Forall_app in H as [? _].
Qed.

(** The invariant holds in a fresh analyzer and the traversal keeps it. *)
Lemma analyzeStatement_returnsVoidOrNumber s a :
  returnsVoidOrNumber (symbolTable a) →
  returnsVoidOrNumber (symbolTable (analyzeStatement s a)).
Proof.
  apply (analyzeStatement_keepsTable returnsVoidOrNumber).
  - intros ??. apply returnsVoidOrNumber_update.
  - intros ???. apply returnsVoidOrNumber_define.
  - intros ???. apply returnsVoidOrNumber_addFunctionSignature.
  - apply returnsVoidOrNumber_enterScope.
  - apply returnsVoidOrNumber_exitScope.
Qed.

Lemma analyzeExpression_returnsVoidOrNumber e a :
  returnsVoidOrNumber (symbolTable a) →
  returnsVoidOrNumber (symbolTable (analyzeExpression e a).2).
Proof.
  apply (analyzeExpression_keepsTable returnsVoidOrNumber).
  intros ??. apply returnsVoidOrNumber_update.
Qed.

Lemma lookup_returnsVoidOrNumber n tbl sym :
  returnsVoidOrNumber tbl → SymbolTable.lookup n tbl = Some sym →
  returnType sym = DataType.VOID ∨ returnType sym = DataType.NUMBER.
Proof.
  unfold returnsVoidOrNumber, SymbolTable.lookup. intros H%Forall_reverse.
  induction (reverse (SymbolTable.scopes tbl)) as [|sc l IH]; simpl; [done|].
  apply Forall_cons in H as [Hsc Hl].
  destruct (sc !! n) as [s|] eqn:Hn; [|by apply IH].
  intros [= <-]. by apply (Hsc n s).
Qed.

(** A call yields Unknown, Void, Number or the return type of the symbol that
    its name resolves to. *)
Lemma analyzeFunctionCall_type f args a :
  let t := (analyzeExpression (FunctionCall f args) a).1 in
  t = DataType.UNKNOWN ∨ t = DataType.VOID ∨ t = DataType.NUMBER
  ∨ ∃ sym, SymbolTable.lookup f (symbolTable a) = Some sym ∧ t = returnType sym.
Proof.
  cbv zeta. cbn [analyzeExpression]. unfold analyzeFunctionCall.
  destruct (SymbolTable.lookup f (symbolTable a)) as [sym|]; [|by left].
  destruct (isFunction sym); cbn [negb]; [|by left].
  repeat case_bool_decide; repeat case_match; simpl; eauto 10.
Qed.

(** A call to a function that is not a builtin yields the return type that
    its symbol declares. *)
Lemma user_call_type f args a sym :
  SymbolTable.lookup f (symbolTable a) = Some sym → isFunction sym = true →
  f ∉ builtinNames →
  (analyzeExpression (FunctionCall f args) a).1 = returnType sym.
Proof.
  intros Hsym Hf Hb. cbn [analyzeExpression]. unfold analyzeFunctionCall.
  rewrite Hsym, Hf. cbn [negb].
  repeat (case_bool_decide;
          [exfalso; apply Hb; destruct_or?; subst f;
           apply (bool_decide_unpack _); vm_compute; exact I|]).
  done.
Qed.

(** In the body of a function declared at top level a call of the function
    itself, unless a parameter hides its name, resolves to the signature that
    the declaration has just registered, and yields Void. *)
Lemma recursive_call_type f params args a g :
  SymbolTable.scopes (symbolTable a) = [g] → f ∉ params → f ∉ builtinNames →
  (analyzeExpression (FunctionCall f args) (bodyEntry f params a)).1 = DataType.VOID.
Proof.
  intros Hs Hparams Hbuiltin.
  rewrite (user_call_type f args _
             (mkSymbol f DataType.VOID true true
                (replicate (length params) DataType.UNKNOWN) DataType.VOID));
    [done| |done|done].
  rewrite bodyEntry_spec. cbn [symbolTable].
  unfold SymbolTable.addFunctionSignature. rewrite Hs.
  unfold SymbolTable.lookup. cbn [SymbolTable.scopes app].
  change (reverse [<[f:=_]> g; parameterScope params])
    with [parameterScope params;
          <[f:=mkSymbol f DataType.VOID true true
                 (replicate (length params) DataType.UNKNOWN) DataType.VOID]> g].
  cbn [SymbolTable.lookup_from].
  rewrite parameterScope_lookup, decide_False by done.
  by rewrite lookup_insert_eq.
Qed.

(** C6.  An arithmetic operator yields Number.  After the diagnostics of its
    operands it records one diagnostic for each operand whose type is none of
    Number, Unknown and Void, and nothing else; an Unknown or Void operand is
    let through.  A call to a function that is not a builtin yields the return
    type of its symbol; for the call of a top-level function inside its own
    body that type is Void, and in an analyzer whose symbols all return Void
    or Number (so a fresh one, and every step of the traversal keeps it so) no
    call at all is rejected as an operand.  A function that multiplies by its
    own recursive call passes the analysis. *)
Theorem arithmetic_accepts_unknown_and_void (l r : Expression) (op : string)
    (a : SemanticAnalyzer) :
  arithmeticOperator op →
  let '(leftType, a1) := analyzeExpression l a in
  let '(rightType, a2) := analyzeExpression r a1 in
  let result := analyzeExpression (BinaryOp l op r) a in
  result.1 = DataType.NUMBER
  ∧ errors result.2
    = errors a2 ++ operandMismatch "Left" op leftType ++ operandMismatch "Right" op rightType
  ∧ (∀ side t, t = DataType.UNKNOWN ∨ t = DataType.VOID → operandMismatch side op t = [])
  ∧ (∀ f args sym,
       SymbolTable.lookup f (symbolTable a) = Some sym → isFunction sym = true →
       f ∉ builtinNames →
       (analyzeExpression (FunctionCall f args) a).1 = returnType sym)
  ∧ (∀ f params args g,
       SymbolTable.scopes (symbolTable a) = [g] → f ∉ params → f ∉ builtinNames →
       (analyzeExpression (FunctionCall f args) (bodyEntry f params a)).1 = DataType.VOID)
  ∧ (returnsVoidOrNumber (symbolTable a) →
     ∀ side f args,
       operandMismatch side op (analyzeExpression (FunctionCall f args) a).1 = [])
  ∧ analyze
      (mkProgram
         [FunctionDeclaration "fact" ["n"]
            [ReturnStatement
               (Some (BinaryOp (Identifier "n") "*"
                        (FunctionCall "fact"
                           [BinaryOp (Identifier "n") "-" (NumberLiteral "1")])))];
          FunctionDeclaration "main" [] []])
      newAnalyzer
    = (true,
       with_symbolTable
         (SymbolTable.addFunctionSignature "main" [] DataType.VOID
            (SymbolTable.addFunctionSignature "fact" [DataType.UNKNOWN] DataType.VOID
               SymbolTable.new))
         newAnalyzer).
Proof.
  intros Hop.
  destruct (analyzeExpression l a) as [leftType a1] eqn:Hl.
  destruct (analyzeExpression r a1) as [rightType a2] eqn:Hr.
  intros result. subst result.
  assert (analyzeExpression (BinaryOp l op r) a
          = (DataType.NUMBER,
             let a3 := if bool_decide (leftType ≠ DataType.NUMBER ∧ leftType ≠ DataType.UNKNOWN
                                       ∧ leftType ≠ DataType.VOID)
                       then push_error ("ERROR: Left operand of '" +:+ op +:+ "' must be number") a2
                       else a2 in
             if bool_decide (rightType ≠ DataType.NUMBER ∧ rightType ≠ DataType.UNKNOWN
                             ∧ rightType ≠ DataType.VOID)
             then push_error ("ERROR: Right operand of '" +:+ op +:+ "' must be number") a3
             else a3)) as ->.
  { cbn [analyzeExpression]. unfold analyzeBinaryOp.
    by rewrite Hl, Hr, (bool_decide_eq_true_2 _ Hop). }
  split; [done|]. split; [|split; [|split; [|split; [|split]]]].
  - unfold operandMismatch, acceptedOperand.
    destruct leftType, rightType; simpl; rewrite <- ?app_assoc, ?app_nil_r; reflexivity.
  - intros side t [-> | ->]; reflexivity.
  - intros. by apply user_call_type.
  - intros. by eapply recursive_call_type.
  - intros Hinv side f args.
    destruct (analyzeFunctionCall_type f args a) as [-> | [-> | [-> | (sym & Hsym & ->)]]];
      try reflexivity.
    destruct (lookup_returnsVoidOrNumber _ _ _ Hinv Hsym) as [-> | ->]; reflexivity.
  - by vm_compute.
Qed.

(** [f() + g()] in a fresh analyzer, where neither name is defined: both
    calls are reported, the operator adds nothing; and [fact(n - 1)] at the
    start of the body of [kaam fact(n)] yields Void. *)
Lemma arithmetic_accepts_unknown_and_void_witness :
  arithmeticOperator "+"
  ∧ returnsVoidOrNumber (symbolTable newAnalyzer)
  ∧ (analyzeExpression (BinaryOp (FunctionCall "f" []) "+" (FunctionCall "g" [])) newAnalyzer).1
    = DataType.NUMBER
  ∧ operandMismatch "Left" "+" (analyzeExpression (FunctionCall "f" []) newAnalyzer).1 = []
  ∧ (analyzeExpression
       (FunctionCall "fact" [BinaryOp (Identifier "n") "-" (NumberLiteral "1")])
       (bodyEntry "fact" ["n"] newAnalyzer)).1
    = DataType.VOID.
Proof.
  assert (arithmeticOperator "+") as Hop by (by left).
  pose proof (arithmetic_accepts_unknown_and_void
                (FunctionCall "f" []) (FunctionCall "g" []) "+" newAnalyzer Hop) as H.
  split; [exact Hop|]. split; [exact returnsVoidOrNumber_new|].
  split; [exact (proj1 H)|]. split.
  - exact (proj1 (proj2 (proj2 (proj2 (proj2 (proj2 H)))))
             returnsVoidOrNumber_new "Left" "f" []).
  - refine (proj1 (proj2 (proj2 (proj2 (proj2 H)))) "fact" ["n"] _ _ eq_refl _ _);
      apply (bool_decide_unpack _); vm_compute; exact I.
Defined.

(** ** Entry point *)

(** [analyze] fails with the missing-entry-point diagnostic exactly when no
    visible symbol is named [main] after the traversal; otherwise it reports
    whether the traversal recorded nothing.  The symbol need not be a
    function. *)
Lemma analyze_by_lookup_main (program : Program) (a : SemanticAnalyzer) :
  let a' := analyzeBlock analyzeStatement (statements program) a in
  analyze program a
  = match SymbolTable.lookup "main" (symbolTable a') with
    | None => (false, push_error "ERROR: Main function 'kaam main()' not found" a')
    | Some _ => (bool_decide (errors a' = []), a')
    end.
Proof. reflexivity. Qed.

(** C1 (the code departs from the claim).  [banao main = 1;] declares no
    function at all, yet the front end reports that the analysis passed: the
    entry-point check finds the variable [main] and does not ask whether it
    is a function. *)
Theorem variable_named_main_passes_entry_point_check :
  let program := mkProgram [VariableDeclaration "main" (Some (NumberLiteral "1"))] in
  parseSource "banao main = 1;" = Some program
  ∧ run "banao main = 1;" = Passed
  ∧ (analyze program newAnalyzer).1 = true
  ∧ errors (analyze program newAnalyzer).2 = []
  ∧ SymbolTable.lookup "main" (symbolTable (analyze program newAnalyzer).2)
    = Some (Symbol_ "main" DataType.NUMBER false true).
Proof. by vm_compute. Qed.

(** ** Parser *)

(** [std::stod] at work: a number of 310 digits is out of the range of
    [double] and ends the run with [Fatal error: stod]; so does a number too
    small for a normalized [double]; [1.5.2] is converted up to its second
    dot. *)
Example number_literal_out_of_range :
  run ("banao x = 1" +:+ String.concat EmptyString (replicate 309 "0") +:+ ";") = FatalError "stod"
  ∧ run ("banao x = 0." +:+ String.concat EmptyString (replicate 400 "0") +:+ "1;") = FatalError "stod"
  ∧ parseSource "banao x = 1.5.2;"
    = Some (mkProgram [VariableDeclaration "x" (Some (NumberLiteral "1.5.2"))]).
Proof. by vm_compute. Qed.

(** C2 (the code departs from the claim).  An index applied to something other
    than an identifier raises no parse error: the index expression is parsed
    and then dropped.  In [a[0][1];] the second index is applied to the result
    of the first and vanishes; in [(1 + 2)[0];] the index vanishes from a
    parenthesized sum.  An assignment to the same sum is a parse error. *)
Theorem index_of_non_identifier_is_dropped :
  parseSource "a[0][1];"
  = Some (mkProgram [ExpressionStatement (ArrayAccess "a" (NumberLiteral "0"))])
  ∧ parseSource "(1 + 2)[0];"
    = Some (mkProgram
              [ExpressionStatement (BinaryOp (NumberLiteral "1") "+" (NumberLiteral "2"))])
  ∧ run "(1 + 2) = 0;" = FatalError "Invalid assignment target".
Proof. by vm_compute. Qed.

(** C3 (the code departs from the claim).  A bare block is accepted, and the
    statements in it are lost: [{ banao x = 1; }] parses to the empty program,
    and the block inside [main] leaves [main] with an empty body. *)
Theorem bare_block_statements_are_discarded :
  parseSource "{ banao x = 1; }" = Some (mkProgram [])
  ∧ parseSource "kaam main() { { dekh(1); } }"
    = Some (mkProgram [FunctionDeclaration "main" [] []]).
Proof. by vm_compute. Qed.

(** ** Lexer *)

(** At the end of the source [nextToken] returns [EOF_TOKEN] and leaves the
    lexer as it is. *)
Lemma nextToken_at_end lx :
  (String.length (Lexer.source lx) ≤ Lexer.pos lx)%nat →
  Lexer.nextToken lx
  = (Token.mk TokenType.EOF_TOKEN EmptyString (Lexer.line lx) (Lexer.column lx), lx).
Proof.
  intros Hend. unfold Lexer.nextToken, Lexer.skipWhitespaceAndComments.
  unfold mbind, Lexer.M_bind, Lexer.get.
  assert (Lexer.skipWhitespaceAndComments_loop (String.length (Lexer.source lx)) lx = ((), lx))
    as ->.
  { destruct (String.length (Lexer.source lx)) eqn:Hlen; [done|]. simpl.
    unfold mbind, Lexer.M_bind, Lexer.in_range.
    rewrite bool_decide_eq_false_2 by lia. done. }
  rewrite bool_decide_eq_true_2 by done. done.
Qed.

Ltac lexer_unfold :=
  unfold mbind, mret, Lexer.M_bind, Lexer.M_ret, Lexer.get, Lexer.at_, Lexer.in_range,
    Lexer.incr_pos, Lexer.incr_column in *.

Lemma scanString_type quote lx :
  Token.type (Lexer.scanString quote lx).1 = TokenType.STRING.
Proof.
  unfold Lexer.scanString. lexer_unfold. simpl.
  destruct (Lexer.scanString_loop _ _ _ _) as [value lx1]. simpl.
  by case_bool_decide.
Qed.

Lemma scanNumber_type lx : Token.type (Lexer.scanNumber lx).1 = TokenType.NUMBER.
Proof.
  unfold Lexer.scanNumber. lexer_unfold.
  by destruct (Lexer.scanWhile _ _ _ _ _) as [value lx1].
Qed.

Lemma keywords_not_EOF value kw :
  Lexer.keywords !! value = Some kw → kw ≠ TokenType.EOF_TOKEN.
Proof.
  unfold Lexer.keywords. intros H%elem_of_list_to_map_2.
  repeat (apply elem_of_cons in H as [[= -> ->]|H]; [done|]).
  by apply elem_of_nil in H.
Qed.

Lemma scanIdentifierOrKeyword_type lx :
  Token.type (Lexer.scanIdentifierOrKeyword lx).1 ≠ TokenType.EOF_TOKEN.
Proof.
  unfold Lexer.scanIdentifierOrKeyword. lexer_unfold.
  destruct (Lexer.scanWhile _ _ _ _ _) as [value lx1].
  destruct (Lexer.keywords !! value) as [kw|] eqn:Hkw; simpl; [|done].
  by eapply keywords_not_EOF.
Qed.

Lemma lookahead_type next two twoText one oneText tokenLine tokenCol lx :
  Token.type (Lexer.lookahead next two twoText one oneText tokenLine tokenCol lx).1 = two
  ∨ Token.type (Lexer.lookahead next two twoText one oneText tokenLine tokenCol lx).1 = one.
Proof.
  unfold Lexer.lookahead. lexer_unfold. simpl. case_bool_decide; simpl; auto.
Qed.

(** [nextToken] returns [EOF_TOKEN] only at the end of the source. *)
Lemma nextToken_EOF_at_end lx :
  Token.type (Lexer.nextToken lx).1 = TokenType.EOF_TOKEN →
  (String.length (Lexer.source (Lexer.nextToken lx).2) ≤ Lexer.pos (Lexer.nextToken lx).2)%nat
  ∧ (Lexer.nextToken lx).1
    = Token.mk TokenType.EOF_TOKEN EmptyString
        (Lexer.line (Lexer.nextToken lx).2) (Lexer.column (Lexer.nextToken lx).2).
Proof.
  destruct (Lexer.nextToken lx) as [tok lx'] eqn:Hnt. cbn [fst snd]. intros Htype.
  unfold Lexer.nextToken in Hnt.
  unfold mbind at 1, Lexer.M_bind at 1 in Hnt.
  destruct (Lexer.skipWhitespaceAndComments lx) as [[] lx1].
  unfold mbind at 1, Lexer.M_bind at 1, Lexer.get at 1 in Hnt.
  case_bool_decide as Hend; [by injection Hnt as <- <-|exfalso].
  unfold mbind at 1, Lexer.M_bind at 1, Lexer.at_ at 1 in Hnt.
  set (ch := default zero (String.get (Lexer.pos lx1) (Lexer.source lx1))) in Hnt.
  set (lx2 := Lexer.mk _ _ _ _ _) in Hnt.
  case_bool_decide.
  { pose proof (scanString_type ch lx2) as Ht. rewrite Hnt in Ht. simpl in Ht. congruence. }
  destruct (isdigit ch).
  { pose proof (scanNumber_type lx2) as Ht. rewrite Hnt in Ht. simpl in Ht. congruence. }
  destruct (isalpha ch || bool_decide (ch = "_"%char)).
  { pose proof (scanIdentifierOrKeyword_type lx2) as Ht. by rewrite Hnt in Ht. }
  unfold mbind at 1, Lexer.M_bind at 1, Lexer.incr_pos at 1 in Hnt.
  unfold mbind at 1, Lexer.M_bind at 1, Lexer.incr_column at 1 in Hnt.
  repeat (case_bool_decide;
          [first [ injection Hnt as <- <-; discriminate
                 | match type of Hnt with
                   | Lexer.lookahead ?n ?t2 ?s2 ?t1 ?s1 ?l ?c ?x = _ =>
                       destruct (lookahead_type n t2 s2 t1 s1 l c x) as [E|E];
                       rewrite Hnt in E; simpl in E; congruence
                   end]|]).
  injection Hnt as <- <-; discriminate.
Qed.

(** Once [nextToken] has returned [EOF_TOKEN], every later call returns the
    same token and leaves the lexer unchanged. *)
Lemma nextToken_EOF_persists lx :
  Token.type (Lexer.nextToken lx).1 = TokenType.EOF_TOKEN →
  Lexer.nextToken (Lexer.nextToken lx).2 = Lexer.nextToken lx.
Proof.
  intros [Hend Htok]%nextToken_EOF_at_end.
  rewrite (nextToken_at_end _ Hend). rewrite <- Htok. by destruct (Lexer.nextToken lx).
Qed.

Ltac within_solve :=
  unfold withinTerminator in *; simpl in *; destruct_and?;
  repeat match goal with H : Lexer.source _ = _ |- _ => rewrite <- H in * end;
  split_and!;
  [ reflexivity
  | lia
  | repeat (apply Forall_app; split); try assumption;
    try (apply Forall_singleton; lia); try constructor ].

Lemma withinTerminator_new src : withinTerminator src (Lexer.new src).
Proof. within_solve. Qed.

Lemma withinTerminator_count_char src c lx :
  withinTerminator src lx → withinTerminator src (Lexer.count_char c lx).2.
Proof. unfold Lexer.count_char. case_bool_decide; intros; within_solve. Qed.

Lemma skipComment_within src fuel lx :
  withinTerminator src lx → withinTerminator src (Lexer.skipComment fuel lx).2.
Proof.
  revert lx. induction fuel as [|fuel IH]; intros lx H; [done|].
  simpl. lexer_unfold.
  case_bool_decide as Hin; [|done]. simpl.
  case_bool_decide; simpl; [apply IH|]; within_solve.
Qed.

Lemma skipWhitespaceAndComments_loop_within src fuel lx :
  withinTerminator src lx →
  withinTerminator src (Lexer.skipWhitespaceAndComments_loop fuel lx).2.
Proof.
  revert lx. induction fuel as [|fuel IH]; intros lx H; [done|].
  simpl. lexer_unfold.
  case_bool_decide as Hin; [|done]. simpl.
  destruct (isspace _); simpl.
  - destruct (Lexer.count_char _ _) as [[] lx1] eqn:Hcount.
    assert (withinTerminator src lx1 ∧ Lexer.pos lx1 = Lexer.pos lx) as [H1 Hpos].
    { unfold Lexer.count_char in Hcount. case_bool_decide;
        injection Hcount as <-; (split; [within_solve|done]). }
    apply IH. within_solve.
  - case_bool_decide; simpl; [|within_solve].
    case_bool_decide as Hmore; simpl; [|within_solve].
    case_bool_decide; simpl; [|within_solve].
    destruct (Lexer.skipComment _ _) as [[] lx1] eqn:Hskip.
    apply IH.
    change lx1 with ((), lx1).2. rewrite <- Hskip. apply skipComment_within. within_solve.
Qed.

Lemma skipWhitespaceAndComments_within src lx :
  withinTerminator src lx → withinTerminator src (Lexer.skipWhitespaceAndComments lx).2.
Proof. apply skipWhitespaceAndComments_loop_within. Qed.

Lemma scanString_loop_within src fuel quote value lx :
  withinTerminator src lx →
  withinTerminator src (Lexer.scanString_loop fuel quote value lx).2.
Proof.
  revert value lx. induction fuel as [|fuel IH]; intros value lx H; [done|].
  simpl. lexer_unfold.
  case_bool_decide as Hin; [|done]. simpl.
  case_bool_decide; simpl; [|within_solve].
  destruct (Lexer.count_char _ _) as [[] lx1] eqn:Hcount.
  assert (withinTerminator src lx1 ∧ Lexer.pos lx1 = Lexer.pos lx) as [H1 Hpos].
  { unfold Lexer.count_char in Hcount. case_bool_decide;
      injection Hcount as <-; (split; [within_solve|done]). }
  apply IH. within_solve.
Qed.

Lemma scanWhile_within src fuel first other value lx :
  withinTerminator src lx →
  withinTerminator src (Lexer.scanWhile fuel first other value lx).2.
Proof.
  revert value lx. induction fuel as [|fuel IH]; intros value lx H; [done|].
  simpl. lexer_unfold.
  case_bool_decide as Hin; [|done]. simpl.
  destruct (first _); simpl; [apply IH; within_solve|].
  case_bool_decide; simpl; [apply IH|]; within_solve.
Qed.

Lemma scanString_within src quote lx :
  withinTerminator src lx → (Lexer.pos lx < String.length src)%nat →
  withinTerminator src (Lexer.scanString quote lx).2.
Proof.
  intros H Hpos. unfold Lexer.scanString. lexer_unfold. simpl.
  destruct (Lexer.scanString_loop _ _ _ _) as [value lx1] eqn:Hloop.
  assert (withinTerminator src lx1) as H1.
  { change lx1 with (value, lx1).2. rewrite <- Hloop.
    apply scanString_loop_within. within_solve. }
  simpl. case_bool_decide; simpl; within_solve.
Qed.

Lemma scanNumber_within src lx :
  withinTerminator src lx → withinTerminator src (Lexer.scanNumber lx).2.
Proof.
  intros H. unfold Lexer.scanNumber. lexer_unfold.
  destruct (Lexer.scanWhile _ _ _ _ _) as [value lx1] eqn:Hloop.
  change lx1 with (value, lx1).2. rewrite <- Hloop. by apply scanWhile_within.
Qed.

Lemma scanIdentifierOrKeyword_within src lx :
  withinTerminator src lx → withinTerminator src (Lexer.scanIdentifierOrKeyword lx).2.
Proof.
  intros H. unfold Lexer.scanIdentifierOrKeyword. lexer_unfold.
  destruct (Lexer.scanWhile _ _ _ _ _) as [value lx1] eqn:Hloop.
  assert (withinTerminator src lx1) as H1.
  { change lx1 with (value, lx1).2. rewrite <- Hloop. by apply scanWhile_within. }
  by destruct (Lexer.keywords !! value).
Qed.

(** Past the last character [source[i]] is the terminator. *)
Lemma get_past_end (s : string) (i : nat) :
  (String.length s ≤ i)%nat → String.get i s = None.
Proof.
  revert i. induction s as [|c s IH]; intros i Hi; [by destruct i|].
  destruct i as [|i]; simpl in *; [lia|]. apply IH. lia.
Qed.

(** The lookahead reads [source[pos]] with [pos] possibly equal to the length
    of the source; it advances only over a character that is there. *)
Lemma lookahead_within src next two twoText one oneText tokenLine tokenCol lx :
  next ≠ zero → withinTerminator src lx →
  withinTerminator src
    (Lexer.lookahead next two twoText one oneText tokenLine tokenCol lx).2.
Proof.
  intros Hnext H. unfold Lexer.lookahead. lexer_unfold. simpl.
  case_bool_decide as Hc; simpl; [|within_solve].
  assert (Lexer.pos lx < String.length (Lexer.source lx))%nat.
  { destruct (decide (Lexer.pos lx < String.length (Lexer.source lx))%nat); [done|].
    rewrite get_past_end in Hc by lia. simpl in Hc. congruence. }
  within_solve.
Qed.

(** [nextToken] reads the source at indices up to its length and no
    further. *)
Lemma nextToken_within src lx :
  withinTerminator src lx → withinTerminator src (Lexer.nextToken lx).2.
Proof.
  intros H. unfold Lexer.nextToken.
  unfold mbind at 1, Lexer.M_bind at 1.
  destruct (Lexer.skipWhitespaceAndComments lx) as [[] lx1] eqn:Hskip.
  assert (withinTerminator src lx1) as H1.
  { change lx1 with ((), lx1).2. rewrite <- Hskip.
    by apply skipWhitespaceAndComments_within. }
  unfold mbind at 1, Lexer.M_bind at 1, Lexer.get at 1.
  case_bool_decide as Hend; [done|].
  unfold mbind at 1, Lexer.M_bind at 1, Lexer.at_ at 1.
  set (ch := default zero (String.get (Lexer.pos lx1) (Lexer.source lx1))).
  set (lx2 := Lexer.mk _ _ _ _ _).
  assert (withinTerminator src lx2) as H2 by (subst lx2; within_solve).
  assert (Lexer.pos lx2 < String.length src)%nat as Hpos
    by (subst lx2; destruct H1 as (<- & _ & _); simpl; lia).
  case_bool_decide; [by apply scanString_within|].
  destruct (isdigit ch); [by apply scanNumber_within|].
  destruct (isalpha ch || bool_decide (ch = "_"%char));
    [by apply scanIdentifierOrKeyword_within|].
  unfold mbind at 1, Lexer.M_bind at 1, Lexer.incr_pos at 1.
  unfold mbind at 1, Lexer.M_bind at 1, Lexer.incr_column at 1.
  set (lx3 := Lexer.mk _ _ _ _ _).
  assert (withinTerminator src lx3) as H3 by (subst lx3; within_solve).
  repeat (case_bool_decide; [first [done | by apply lookahead_within]|]).
  done.
Qed.

(** Draining the lexer reads the source at indices up to its length and no
    further. *)
Lemma tokenize_loop_within src fuel tokens lx :
  withinTerminator src lx →
  withinTerminator src (Lexer.tokenize_loop fuel tokens lx).2.
Proof.
  revert tokens lx. induction fuel as [|fuel IH]; intros tokens lx H; simpl.
  - unfold mbind, Lexer.M_bind.
    destruct (Lexer.nextToken lx) as [token lx1] eqn:Hnt.
    assert (withinTerminator src lx1)
      by (change lx1 with (token, lx1).2; rewrite <- Hnt; by apply nextToken_within).
    by case_bool_decide.
  - unfold mbind, Lexer.M_bind.
    destruct (Lexer.nextToken lx) as [token lx1] eqn:Hnt.
    assert (withinTerminator src lx1)
      by (change lx1 with (token, lx1).2; rewrite <- Hnt; by apply nextToken_within).
    case_bool_decide; [by apply IH|done].
Qed.


(** * Further properties of the code *)

(** ** The 32-bit counters *)

Lemma wrap_int_small z : (- 2 ^ 31 ≤ z < 2 ^ 31)%Z → wrap_int z = z.
Proof. intros H. unfold wrap_int. rewrite Z.mod_small; lia. Qed.

Lemma wrap_int_add_l a b : wrap_int (wrap_int a + b) = wrap_int (a + b).
Proof.
  unfold wrap_int.
  replace ((a + 2 ^ 31) mod 2 ^ 32 - 2 ^ 31 + b + 2 ^ 31)%Z
    with ((a + 2 ^ 31) mod 2 ^ 32 + b)%Z by lia.
  rewrite Zplus_mod_idemp_l. f_equal. f_equal. lia.
Qed.

Lemma columnAfter_S c k : columnAfter (wrap_int (c + 1)) k = columnAfter c (S k).
Proof.
  destruct k as [|k]; unfold columnAfter; [done|].
  rewrite wrap_int_add_l. f_equal. lia.
Qed.

Lemma columnAfter_small c k :
  (- 2 ^ 31 ≤ c)%Z → (c + Z.of_nat k < 2 ^ 31)%Z → columnAfter c k = (c + Z.of_nat k)%Z.
Proof.
  intros Hc Hk. destruct k as [|k]; unfold columnAfter; [lia|].
  apply wrap_int_small. lia.
Qed.

(** ** Symbol table *)

Lemma lookup_snoc outer cur n :
  SymbolTable.lookup n (SymbolTable.mk (outer ++ [cur]))
  = match cur !! n with
    | Some sym => Some sym
    | None => SymbolTable.lookup n (SymbolTable.mk outer)
    end.
Proof. unfold SymbolTable.lookup. cbn [SymbolTable.scopes]. by rewrite reverse_snoc. Qed.

Lemma define_length n ty isFunc isInit tbl :
  length (SymbolTable.scopes (SymbolTable.define n ty isFunc isInit tbl).2)
  = length (SymbolTable.scopes tbl).
Proof.
  unfold SymbolTable.define. destruct (last _) as [cur|]; [|done].
  destruct (cur !! n); [done|]. cbn [snd SymbolTable.scopes]. by rewrite length_insert.
Qed.

(** X1.  [define] looks at the innermost scope only.  It fails, and changes
    nothing, exactly when that scope already binds the name; otherwise the
    name resolves to the new symbol afterwards, whatever the outer scopes
    bind, every other name resolves as before and the scope stack keeps its
    depth. *)
Theorem define_binds_in_innermost_scope (n : string) (ty : DataType.t)
    (isFunc isInit : bool) (tbl : SymbolTable.t) (cur : gmap string Symbol) :
  last (SymbolTable.scopes tbl) = Some cur →
  let '(defined, tbl') := SymbolTable.define n ty isFunc isInit tbl in
  defined = bool_decide (cur !! n = None)
  ∧ (defined = false → tbl' = tbl)
  ∧ (defined = true → SymbolTable.lookup n tbl' = Some (Symbol_ n ty isFunc isInit))
  ∧ (∀ m, m ≠ n → SymbolTable.lookup m tbl' = SymbolTable.lookup m tbl)
  ∧ length (SymbolTable.scopes tbl') = length (SymbolTable.scopes tbl).
Proof.
  intros Hlast. pose proof (define_length n ty isFunc isInit tbl) as Hlen.
  destruct tbl as [scopes]. cbn [SymbolTable.scopes] in *.
  apply last_Some in Hlast as [outer ->]. rewrite define_innermost in *.
  destruct (cur !! n) as [sym|] eqn:Hn.
  - rewrite bool_decide_eq_false_2 by done. done.
  - rewrite bool_decide_eq_true_2 by done. split_and!; try done.
    + intros _. by rewrite lookup_snoc, lookup_insert_eq.
    + intros m Hm. by rewrite !lookup_snoc, lookup_insert_ne.
Qed.

(** [banao x = 1;] in a scope entered from the fresh table. *)
Lemma define_binds_in_innermost_scope_witness :
  last (SymbolTable.scopes (SymbolTable.enterScope SymbolTable.new)) = Some ∅
  ∧ SymbolTable.lookup "x"
      (SymbolTable.define "x" DataType.NUMBER false true
         (SymbolTable.enterScope SymbolTable.new)).2
    = Some (Symbol_ "x" DataType.NUMBER false true).
Proof.
  split; [reflexivity|].
  pose proof (define_binds_in_innermost_scope "x" DataType.NUMBER false true
                (SymbolTable.enterScope SymbolTable.new) ∅ eq_refl) as H.
  destruct (SymbolTable.define _ _ _ _ _) as [defined tbl'].
  destruct H as (Hdefined & _ & Hlookup & _). apply Hlookup. by rewrite Hdefined.
Defined.

Lemma defineAll_innermost defs outer cur :
  ∃ cur',
    defineAll defs (SymbolTable.mk (outer ++ [cur])) = SymbolTable.mk (outer ++ [cur'])
    ∧ ∀ n, cur' !! n = match cur !! n with
                       | Some sym => Some sym
                       | None => (λ ty, Symbol_ n ty false true) <$> firstDeclared defs n
                       end.
Proof.
  unfold defineAll. revert cur. induction defs as [|[m ty] defs IH]; intros cur; simpl.
  - exists cur. split; [done|]. intros n. by destruct (cur !! n).
  - rewrite define_innermost. destruct (cur !! m) as [s|] eqn:Hm; cbn [snd].
    + destruct (IH cur) as (cur' & Heq & Hcur'). exists cur'. split; [done|].
      intros n. rewrite Hcur'. destruct (cur !! n) eqn:Hn; [done|].
      case_decide; [congruence|done].
    + destruct (IH (<[m := Symbol_ m ty false true]> cur)) as (cur' & Heq & Hcur').
      exists cur'. split; [done|]. intros n. rewrite Hcur', lookup_insert.
      case_decide; [subst; by rewrite Hm|]. done.
Qed.

(** X2.  Declarations made in a scope of their own shadow the enclosing
    scopes while it lasts, the first declaration of a name winning, and are
    gone when the scope is left: [exitScope] gives back the table that
    [enterScope] started from. *)
Theorem nested_scope_shadows_and_is_dropped (defs : list (string * DataType.t))
    (tbl : SymbolTable.t) :
  SymbolTable.scopes tbl ≠ [] →
  let nested := defineAll defs (SymbolTable.enterScope tbl) in
  (∀ n, SymbolTable.lookup n nested
        = match firstDeclared defs n with
          | Some ty => Some (Symbol_ n ty false true)
          | None => SymbolTable.lookup n tbl
          end)
  ∧ SymbolTable.exitScope nested = tbl.
Proof.
  intros Hne nested. subst nested. destruct tbl as [scopes]. cbn [SymbolTable.scopes] in Hne.
  unfold SymbolTable.enterScope. cbn [SymbolTable.scopes].
  destruct (defineAll_innermost defs scopes ∅) as (cur' & -> & Hcur'). split.
  - intros n. rewrite lookup_snoc, Hcur', lookup_empty.
    by destruct (firstDeclared defs n).
  - unfold SymbolTable.exitScope. cbn [SymbolTable.scopes].
    rewrite decide_True; [by rewrite removelast_snoc|].
    rewrite length_app. simpl. destruct scopes; [done|simpl; lia].
Qed.

(** A variable [abs] declared twice in a nested scope hides the builtin. *)
Lemma nested_scope_shadows_and_is_dropped_witness :
  SymbolTable.scopes SymbolTable.new ≠ []
  ∧ SymbolTable.lookup "abs"
      (defineAll [("abs", DataType.STRING); ("abs", DataType.NUMBER)]
         (SymbolTable.enterScope SymbolTable.new))
    = Some (Symbol_ "abs" DataType.STRING false true)
  ∧ SymbolTable.exitScope
      (defineAll [("abs", DataType.STRING); ("abs", DataType.NUMBER)]
         (SymbolTable.enterScope SymbolTable.new))
    = SymbolTable.new.
Proof.
  assert (SymbolTable.scopes SymbolTable.new ≠ []) as Hne by done.
  split; [exact Hne|].
  pose proof (nested_scope_shadows_and_is_dropped
                [("abs", DataType.STRING); ("abs", DataType.NUMBER)] SymbolTable.new Hne)
    as [Hlookup Hexit].
  split; [exact (Hlookup "abs")|exact Hexit].
Defined.

Lemma update_from_length l n l' :
  SymbolTable.update_from l n = Some l' → length l' = length l.
Proof.
  revert l'. induction l as [|sc l IH]; intros l'; simpl; [done|].
  destruct (sc !! n); [by intros [= <-]|].
  destruct (SymbolTable.update_from l n) as [l0|]; simpl; [|done].
  intros [= <-]. simpl. by rewrite (IH l0).
Qed.

Lemma update_from_is_Some l n :
  is_Some (SymbolTable.update_from l n) ↔ is_Some (SymbolTable.lookup_from l n).
Proof.
  induction l as [|sc l IH]; simpl; [done|].
  destruct (sc !! n); [by split; eauto|].
  rewrite <- IH. by rewrite fmap_is_Some.
Qed.

Lemma update_from_idemp l n l' :
  SymbolTable.update_from l n = Some l' → SymbolTable.update_from l' n = Some l'.
Proof.
  revert l'. induction l as [|sc l IH]; intros l'; simpl; [done|].
  destruct (sc !! n) as [s|] eqn:Hn.
  - intros [= <-]. simpl. rewrite lookup_insert_eq. by rewrite insert_insert_eq.
  - destruct (SymbolTable.update_from l n) as [l0|]; simpl; [|done].
    intros [= <-]. simpl. rewrite Hn. by rewrite (IH l0).
Qed.

(** X3.  [update] reports whether the name is visible.  It sets the
    [isInitialized] flag of the nearest binding of the name and touches
    nothing else: every other name resolves as before, the scope stack keeps
    its depth, a table in which the name is not visible is left as it is, and
    a second [update] of the same name changes nothing further. *)
Theorem update_initializes_nearest_binding (n : string) (tbl : SymbolTable.t) :
  let '(found, tbl') := SymbolTable.update n tbl in
  found = bool_decide (is_Some (SymbolTable.lookup n tbl))
  ∧ SymbolTable.lookup n tbl' = set_isInitialized <$> SymbolTable.lookup n tbl
  ∧ (∀ m, m ≠ n → SymbolTable.lookup m tbl' = SymbolTable.lookup m tbl)
  ∧ (found = false → tbl' = tbl)
  ∧ length (SymbolTable.scopes tbl') = length (SymbolTable.scopes tbl)
  ∧ SymbolTable.update n tbl' = (found, tbl').
Proof.
  pose proof (lookup_update n n tbl) as Hn. rewrite decide_True in Hn by done.
  pose proof (λ m, lookup_update m n tbl) as Hm.
  pose proof (update_from_is_Some (reverse (SymbolTable.scopes tbl)) n) as Hsome.
  fold (SymbolTable.lookup n tbl) in Hsome.
  unfold SymbolTable.update in *.
  destruct (SymbolTable.update_from (reverse (SymbolTable.scopes tbl)) n) as [l'|] eqn:Hu;
    cbn [fst snd] in *.
  - split_and!.
    + symmetry. apply bool_decide_eq_true_2, Hsome. eauto.
    + done.
    + intros m Hne. rewrite Hm. by rewrite decide_False.
    + done.
    + cbn [SymbolTable.scopes].
      rewrite length_reverse, (update_from_length _ _ _ Hu). by rewrite length_reverse.
    + cbn [SymbolTable.scopes]. rewrite reverse_involutive.
      by rewrite (update_from_idemp _ _ _ Hu).
  - split_and!; try done.
    + symmetry. apply bool_decide_eq_false_2. rewrite <- Hsome. by intros [??].
    + by rewrite Hu.
Qed.

Lemma lookup_from_app l1 l2 n :
  SymbolTable.lookup_from (l1 ++ l2) n
  = match SymbolTable.lookup_from l1 n with
    | Some sym => Some sym
    | None => SymbolTable.lookup_from l2 n
    end.
Proof. induction l1 as [|sc l1 IH]; simpl; [done|]. by destruct (sc !! n). Qed.

Lemma lookup_cons g inner n :
  SymbolTable.lookup n (SymbolTable.mk (g :: inner))
  = match SymbolTable.lookup n (SymbolTable.mk inner) with
    | Some sym => Some sym
    | None => g !! n
    end.
Proof.
  unfold SymbolTable.lookup. cbn [SymbolTable.scopes].
  rewrite reverse_cons, lookup_from_app. simpl. by destruct (g !! n).
Qed.

Lemma exitScope_all g inner :
  Nat.iter (length inner) SymbolTable.exitScope (SymbolTable.mk (g :: inner))
  = SymbolTable.mk [g].
Proof.
  induction inner as [|c inner IH] using rev_ind; [done|].
  rewrite length_app, Nat.add_comm. cbn [length Nat.add]. rewrite Nat.iter_succ_r.
  unfold SymbolTable.exitScope at 2. cbn [SymbolTable.scopes].
  rewrite decide_True by (simpl; rewrite length_app; simpl; lia).
  by rewrite app_comm_cons, removelast_snoc.
Qed.

(** X4.  [addFunctionSignature] writes the global scope, at whatever depth it
    is called, and replaces what the global scope bound under the name.  The
    signature is what the name resolves to unless an inner scope binds the
    name; every other name resolves as before; and once the inner scopes are
    left the name resolves to the signature. *)
Theorem function_signature_goes_to_global_scope (f : string) (params : list DataType.t)
    (ret : DataType.t) (tbl : SymbolTable.t) (g : gmap string Symbol)
    (inner : list (gmap string Symbol)) :
  SymbolTable.scopes tbl = g :: inner →
  let signature := mkSymbol f DataType.VOID true true params ret in
  let tbl' := SymbolTable.addFunctionSignature f params ret tbl in
  SymbolTable.scopes tbl' = <[f := signature]> g :: inner
  ∧ SymbolTable.lookup f tbl'
    = Some (default signature (SymbolTable.lookup f (SymbolTable.mk inner)))
  ∧ (∀ m, m ≠ f → SymbolTable.lookup m tbl' = SymbolTable.lookup m tbl)
  ∧ SymbolTable.lookup f (Nat.iter (length inner) SymbolTable.exitScope tbl')
    = Some signature.
Proof.
  intros Hs signature tbl'. subst tbl'. destruct tbl as [scopes].
  cbn [SymbolTable.scopes] in Hs. subst scopes.
  unfold SymbolTable.addFunctionSignature. cbn [SymbolTable.scopes]. fold signature.
  split_and!.
  - done.
  - rewrite lookup_cons, lookup_insert_eq. by destruct (SymbolTable.lookup f _).
  - intros m Hm. by rewrite !lookup_cons, lookup_insert_ne.
  - rewrite exitScope_all. unfold SymbolTable.lookup. simpl. by rewrite lookup_insert_eq.
Qed.

(** [kaam x() { }] met two scopes deep, where the inner scope has a variable
    [x]. *)
Lemma function_signature_goes_to_global_scope_witness :
  SymbolTable.lookup "x"
    (SymbolTable.addFunctionSignature "x" [] DataType.VOID
       (SymbolTable.define "x" DataType.NUMBER false true
          (SymbolTable.enterScope (SymbolTable.enterScope SymbolTable.new))).2)
  = Some (Symbol_ "x" DataType.NUMBER false true)
  ∧ SymbolTable.lookup "x"
      (SymbolTable.exitScope (SymbolTable.exitScope
         (SymbolTable.addFunctionSignature "x" [] DataType.VOID
            (SymbolTable.define "x" DataType.NUMBER false true
               (SymbolTable.enterScope (SymbolTable.enterScope SymbolTable.new))).2)))
    = Some (mkSymbol "x" DataType.VOID true true [] DataType.VOID).
Proof.
  pose proof (function_signature_goes_to_global_scope "x" [] DataType.VOID
                (SymbolTable.define "x" DataType.NUMBER false true
                   (SymbolTable.enterScope (SymbolTable.enterScope SymbolTable.new))).2
                _ _ eq_refl) as (_ & Hlookup & _ & Hexit).
  split; [exact Hlookup|exact Hexit].
Defined.

(** X5.  [lookup] finds the innermost binding: it returns a symbol exactly
    when some scope binds the name to it and no scope further in binds the
    name at all, and it fails exactly when no scope binds the name. *)
Theorem lookup_finds_innermost_binding (n : string) (tbl : SymbolTable.t) :
  (∀ sym,
     SymbolTable.lookup n tbl = Some sym
     ↔ ∃ outer sc inner,
         SymbolTable.scopes tbl = outer ++ sc :: inner
         ∧ sc !! n = Some sym
         ∧ Forall (λ sc', sc' !! n = None) inner)
  ∧ (SymbolTable.lookup n tbl = None
     ↔ Forall (λ sc, sc !! n = None) (SymbolTable.scopes tbl)).
Proof.
  destruct tbl as [scopes]. cbn [SymbolTable.scopes].
  induction scopes as [|cur scopes [IHsome IHnone]] using rev_ind.
  - split; [|by split]. intros sym. split; [done|].
    intros (outer & sc & inner & Heq & _). by destruct outer.
  - split.
    + intros sym. rewrite lookup_snoc. destruct (cur !! n) as [s|] eqn:Hcur.
      * split.
        -- intros [= ->]. exists scopes, cur, []. by split_and!.
        -- intros (outer & sc & inner & Heq & Hsc & Hinner).
           destruct inner as [|sc' inner _] using rev_ind.
           ++ apply app_inj_tail in Heq as [_ <-]. congruence.
           ++ rewrite app_comm_cons, app_assoc in Heq. apply app_inj_tail in Heq as [_ <-].
              apply Forall_app in Hinner as [_ Hlast]. rewrite Forall_singleton in Hlast.
              congruence.
      * rewrite IHsome. split.
        -- intros (outer & sc & inner & -> & Hsc & Hinner).
           exists outer, sc, (inner ++ [cur]). split_and!; [by rewrite <- app_assoc|done|].
           apply Forall_app. split; [done|]. by apply Forall_singleton.
        -- intros (outer & sc & inner & Heq & Hsc & Hinner).
           destruct inner as [|sc' inner _] using rev_ind.
           ++ apply app_inj_tail in Heq as [_ <-]. congruence.
           ++ rewrite app_comm_cons, app_assoc in Heq. apply app_inj_tail in Heq as [-> <-].
              apply Forall_app in Hinner as [Hinner _]. by exists outer, sc, inner.
    + rewrite lookup_snoc, Forall_app, Forall_singleton. destruct (cur !! n) eqn:Hcur.
      * split; [done|]. by intros [_ ?].
      * rewrite IHnone. naive_solver.
Qed.

(** ** Block scoping *)

Lemma agreeOutside_refl F sc : agreeOutside F sc sc.
Proof. by intros n _. Qed.

Lemma agreeOutside_mono F F' sc sc' :
  F ⊆ F' → agreeOutside F sc sc' → agreeOutside F' sc sc'.
Proof. intros HF H n Hn. apply H. intros Hin. by apply Hn, HF. Qed.

Lemma agreeOutside_trans F sc1 sc2 sc3 :
  agreeOutside F sc1 sc2 → agreeOutside F sc2 sc3 → agreeOutside F sc1 sc3.
Proof. intros H12 H23 n Hn. by rewrite (H23 n Hn), (H12 n Hn). Qed.

Lemma agreeOutside_all_mono F F' l l' :
  F ⊆ F' → Forall2 (agreeOutside F) l l' → Forall2 (agreeOutside F') l l'.
Proof.
  intros HF H. eapply Forall2_impl; [exact H|].
  intros sc sc'. by apply agreeOutside_mono.
Qed.

Lemma agreeOutside_all_refl F l : Forall2 (agreeOutside F) l l.
Proof. induction l; constructor; [apply agreeOutside_refl|done]. Qed.

Lemma agreeOutside_all_trans F l1 l2 l3 :
  Forall2 (agreeOutside F) l1 l2 → Forall2 (agreeOutside F) l2 l3 →
  Forall2 (agreeOutside F) l1 l3.
Proof.
  intros H12. revert l3. induction H12 as [|sc1 sc2 l1 l2 H _ IH]; intros l3 H23.
  - by inversion H23.
  - inversion H23 as [|? sc3 ? l3' H' H23']; subst. constructor; [|by apply IH].
    by eapply agreeOutside_trans.
Qed.

Lemma agreeOutside_lookup_from F l l' n :
  Forall2 (agreeOutside F) l l' → n ∉ F →
  set_isInitialized <$> SymbolTable.lookup_from l' n
  = set_isInitialized <$> SymbolTable.lookup_from l n.
Proof.
  intros H Hn. induction H as [|sc sc' l l' Hsc _ IH]; simpl; [done|].
  specialize (Hsc n Hn).
  destruct (sc !! n), (sc' !! n); simpl in *; done.
Qed.

Lemma agreeOutside_lookup F l l' n :
  Forall2 (agreeOutside F) l l' → n ∉ F →
  set_isInitialized <$> SymbolTable.lookup n (SymbolTable.mk l')
  = set_isInitialized <$> SymbolTable.lookup n (SymbolTable.mk l).
Proof.
  intros H Hn. unfold SymbolTable.lookup. cbn [SymbolTable.scopes].
  apply (agreeOutside_lookup_from F); [by apply Forall2_reverse|done].
Qed.

Lemma update_from_agree l n l' :
  SymbolTable.update_from l n = Some l' → Forall2 (agreeOutside []) l l'.
Proof.
  revert l'. induction l as [|sc l IH]; intros l'; simpl; [done|].
  destruct (sc !! n) as [s|] eqn:Hn.
  - intros [= <-]. constructor; [|apply agreeOutside_all_refl].
    intros m _. rewrite lookup_insert. case_decide; [subst; by rewrite Hn|done].
  - destruct (SymbolTable.update_from l n) as [l0|]; simpl; [|done].
    intros [= <-]. constructor; [apply agreeOutside_refl|by apply IH].
Qed.

Lemma update_agree n tbl :
  Forall2 (agreeOutside []) (SymbolTable.scopes tbl)
    (SymbolTable.scopes (SymbolTable.update n tbl).2).
Proof.
  unfold SymbolTable.update.
  destruct (SymbolTable.update_from _ _) as [l'|] eqn:Hu; cbn [snd SymbolTable.scopes];
    [|apply agreeOutside_all_refl].
  apply update_from_agree, Forall2_reverse in Hu. by rewrite reverse_involutive in Hu.
Qed.

(** An expression changes the scope stack by [update] only. *)
Lemma analyzeExpression_agree e a :
  Forall2 (agreeOutside []) (SymbolTable.scopes (symbolTable a))
    (SymbolTable.scopes (symbolTable (analyzeExpression e a).2)).
Proof.
  apply (analyzeExpression_keepsTable
           (λ tbl, Forall2 (agreeOutside []) (SymbolTable.scopes (symbolTable a))
                     (SymbolTable.scopes tbl))); [|apply agreeOutside_all_refl].
  intros n tbl H. eapply agreeOutside_all_trans; [exact H|apply update_agree].
Qed.

Lemma scopesStep_of_agree l l' :
  l ≠ [] → Forall2 (agreeOutside []) l l' → scopesStep [] [] l l'.
Proof.
  intros Hne H. destruct l as [|sc l _] using rev_ind; [done|].
  apply Forall2_app_inv_l in H as (outer' & k & Houter & Hk & ->).
  apply Forall2_cons_inv_l in Hk as (cur' & k' & Hcur & Hk' & ->).
  apply Forall2_nil_inv_l in Hk' as ->.
  exists l, sc, outer', cur'. done.
Qed.

Lemma scopesStep_mono F D F' D' l l' :
  F ⊆ F' → D ⊆ D' → scopesStep F D l l' → scopesStep F' D' l l'.
Proof.
  intros HF HD (outer & cur & outer' & cur' & -> & -> & Houter & Hcur).
  exists outer, cur, outer', cur'. split_and!; try done.
  - by eapply agreeOutside_all_mono.
  - eapply agreeOutside_mono; [|done]. set_solver.
Qed.

Lemma scopesStep_trans F D l1 l2 l3 :
  scopesStep F D l1 l2 → scopesStep F D l2 l3 → scopesStep F D l1 l3.
Proof.
  intros (outer1 & cur1 & outer2 & cur2 & -> & -> & Houter & Hcur)
         (outer2' & cur2' & outer3 & cur3 & Heq & -> & Houter' & Hcur').
  apply app_inj_tail in Heq as [<- <-].
  exists outer1, cur1, outer3, cur3. split_and!; try done.
  - by eapply agreeOutside_all_trans.
  - by eapply agreeOutside_trans.
Qed.

Lemma scopesStep_nonempty F D l l' : scopesStep F D l l' → l' ≠ [].
Proof. intros (? & ? & outer' & cur' & _ & -> & _). by destruct outer'. Qed.

Lemma scopesStep_length F D l l' : scopesStep F D l l' → length l' = length l.
Proof.
  intros (outer & cur & outer' & cur' & -> & -> & Houter & _).
  rewrite !length_app. by rewrite (Forall2_length _ _ _ Houter).
Qed.

(** What a block analysed in a scope of its own leaves behind. *)
Lemma scopesStep_scoped F D l c l'' :
  l ≠ [] → scopesStep F D (l ++ [c]) l'' →
  ∃ l', SymbolTable.exitScope (SymbolTable.mk l'') = SymbolTable.mk l'
        ∧ scopesStep F [] l l'.
Proof.
  intros Hne (outer & cur & outer' & cur' & Heq & -> & Houter & _).
  apply app_inj_tail in Heq as [<- _].
  exists outer'. split.
  - unfold SymbolTable.exitScope. cbn [SymbolTable.scopes].
    rewrite removelast_snoc, decide_True; [done|].
    rewrite length_app, <- (Forall2_length _ _ _ Houter). simpl.
    destruct l; [done|simpl; lia].
  - destruct l as [|sc l _] using rev_ind; [done|].
    apply Forall2_app_inv_l in Houter as (o' & k & Ho & Hk & ->).
    apply Forall2_cons_inv_l in Hk as (c' & k' & Hc & Hk' & ->).
    apply Forall2_nil_inv_l in Hk' as ->.
    exists l, sc, o', c'. split_and!; try done.
    eapply agreeOutside_mono; [|done]. set_solver.
Qed.

Lemma scopesStep_refl F D l : l ≠ [] → scopesStep F D l l.
Proof.
  intros Hne. eapply (scopesStep_mono [] []); [set_solver..|].
  apply scopesStep_of_agree; [done|apply agreeOutside_all_refl].
Qed.

Lemma scopesStep_expression F D e a :
  SymbolTable.scopes (symbolTable a) ≠ [] →
  scopesStep F D (SymbolTable.scopes (symbolTable a))
    (SymbolTable.scopes (symbolTable (analyzeExpression e a).2)).
Proof.
  intros Hne. eapply (scopesStep_mono [] []); [set_solver..|].
  apply scopesStep_of_agree; [done|apply analyzeExpression_agree].
Qed.

Lemma scopesStep_define n ty isFunc isInit tbl :
  SymbolTable.scopes tbl ≠ [] →
  scopesStep [] [n] (SymbolTable.scopes tbl)
    (SymbolTable.scopes (SymbolTable.define n ty isFunc isInit tbl).2).
Proof.
  intros Hne. destruct tbl as [l]. cbn [SymbolTable.scopes] in *.
  destruct l as [|cur outer _] using rev_ind; [done|].
  rewrite define_innermost. destruct (cur !! n) eqn:Hn; cbn [snd SymbolTable.scopes].
  - by apply scopesStep_refl.
  - exists outer, cur, outer, (<[n := Symbol_ n ty isFunc isInit]> cur).
    split_and!; try done; [apply agreeOutside_all_refl|].
    intros m Hm. rewrite lookup_insert_ne; [done|]. set_solver.
Qed.

Lemma scopesStep_addFunctionSignature f params ret tbl :
  SymbolTable.scopes tbl ≠ [] →
  scopesStep [f] [] (SymbolTable.scopes tbl)
    (SymbolTable.scopes (SymbolTable.addFunctionSignature f params ret tbl)).
Proof.
  intros Hne. unfold SymbolTable.addFunctionSignature.
  destruct (SymbolTable.scopes tbl) as [|g inner] eqn:Hs; [done|].
  cbn [SymbolTable.scopes].
  assert (agreeOutside [f] g (<[f := mkSymbol f DataType.VOID true true params ret]> g))
    as Hg.
  { intros m Hm. rewrite lookup_insert_ne; [done|]. set_solver. }
  destruct inner as [|cur outer _] using rev_ind.
  - exists [], g, [], (<[f := mkSymbol f DataType.VOID true true params ret]> g).
    split_and!; done.
  - exists (g :: outer), cur,
      (<[f := mkSymbol f DataType.VOID true true params ret]> g :: outer), cur.
    split_and!;
      first [done | constructor; [done|apply agreeOutside_all_refl] | apply agreeOutside_refl].
Qed.

Lemma defineParameters_scopes params a l c :
  SymbolTable.scopes (symbolTable a) = l ++ [c] →
  ∃ c', SymbolTable.scopes (symbolTable (defineParameters params a)) = l ++ [c'].
Proof.
  intros Hs. destruct (defineParameters_innermost params a l c Hs) as (c' & -> & _).
  by exists c'.
Qed.

Lemma scopesStep_block block :
  Forall (λ s, ∀ a, SymbolTable.scopes (symbolTable a) ≠ [] →
               scopesStep (functionNames s) (variableName s)
                 (SymbolTable.scopes (symbolTable a))
                 (SymbolTable.scopes (symbolTable (analyzeStatement s a)))) block →
  ∀ a, SymbolTable.scopes (symbolTable a) ≠ [] →
       scopesStep (flat_map functionNames block) (flat_map variableName block)
         (SymbolTable.scopes (symbolTable a))
         (SymbolTable.scopes (symbolTable (analyzeBlock analyzeStatement block a))).
Proof.
  unfold analyzeBlock. induction 1 as [|s block Hs _ IH]; intros a Hne; simpl.
  - by apply scopesStep_refl.
  - specialize (Hs a Hne). pose proof (scopesStep_nonempty _ _ _ _ Hs) as Hne'.
    eapply scopesStep_trans.
    + eapply scopesStep_mono; [| |exact Hs]; set_solver.
    + eapply scopesStep_mono; [| |exact (IH _ Hne')]; set_solver.
Qed.

(** A block analysed between [enterScope] and [exitScope]. *)
Lemma scopesStep_scopedBlock block a :
  Forall (λ s, ∀ a, SymbolTable.scopes (symbolTable a) ≠ [] →
               scopesStep (functionNames s) (variableName s)
                 (SymbolTable.scopes (symbolTable a))
                 (SymbolTable.scopes (symbolTable (analyzeStatement s a)))) block →
  SymbolTable.scopes (symbolTable a) ≠ [] →
  scopesStep (flat_map functionNames block) []
    (SymbolTable.scopes (symbolTable a))
    (SymbolTable.scopes
       (symbolTable (exited (analyzeBlock analyzeStatement block (entered a))))).
Proof.
  intros Hblock Hne.
  pose proof (scopesStep_block block Hblock (entered a)) as H.
  cbn [entered symbolTable with_symbolTable SymbolTable.enterScope SymbolTable.scopes] in H.
  specialize (H ltac:(by destruct (SymbolTable.scopes (symbolTable a)))).
  apply scopesStep_scoped in H as (l' & Hexit & Hstep); [|done].
  unfold exited. cbn [symbolTable with_symbolTable].
  destruct (symbolTable (analyzeBlock _ _ _)) as [l'']. cbn [SymbolTable.scopes] in *.
  by rewrite Hexit.
Qed.

Lemma analyzeStatement_scopesStep s a :
  SymbolTable.scopes (symbolTable a) ≠ [] →
  scopesStep (functionNames s) (variableName s)
    (SymbolTable.scopes (symbolTable a))
    (SymbolTable.scopes (symbolTable (analyzeStatement s a))).
Proof.
  revert a.
  induction s as [n init|f params body IH|c th el IHth IHel|c body IH|v|e]
    using Statement_nested_ind; intros a Hne; cbn [analyzeStatement functionNames variableName].
  - unfold analyzeVariableDeclaration.
    assert (∃ ty a1, (match init with
                      | Some e => analyzeExpression e a
                      | None => (DataType.UNKNOWN, a)
                      end) = (ty, a1)
                     ∧ scopesStep [] [n] (SymbolTable.scopes (symbolTable a))
                         (SymbolTable.scopes (symbolTable a1)))
      as (ty & a1 & -> & He).
    { destruct init as [e|].
      - pose proof (scopesStep_expression [] [n] e a Hne).
        destruct (analyzeExpression e a) as [ty a1]. by exists ty, a1.
      - exists DataType.UNKNOWN, a. split; [done|]. by apply scopesStep_refl. }
    pose proof (scopesStep_define n ty false true (symbolTable a1)
                  (scopesStep_nonempty _ _ _ _ He)) as Hd.
    destruct (SymbolTable.define n ty false true (symbolTable a1)) as [defined tbl].
    cbn [snd] in Hd.
    eapply scopesStep_trans; [exact He|]. by destruct defined.
  - unfold analyzeFunctionDeclaration. cbv zeta.
    pose proof (scopesStep_addFunctionSignature f
                  (replicate (length params) DataType.UNKNOWN) DataType.VOID
                  (symbolTable a) Hne) as Hadd.
    set (a1 := with_symbolTable (SymbolTable.addFunctionSignature _ _ _ _) a) in *.
    change (SymbolTable.scopes (SymbolTable.addFunctionSignature _ _ _ _))
      with (SymbolTable.scopes (symbolTable a1)) in Hadd.
    pose proof (scopesStep_nonempty _ _ _ _ Hadd) as Hne1.
    set (a2 := with_function_context true DataType.UNKNOWN _).
    destruct (defineParameters_scopes params a2 (SymbolTable.scopes (symbolTable a1)) ∅ eq_refl)
      as (c' & Hparams).
    pose proof (scopesStep_block body IH (defineParameters params a2)) as Hbody.
    rewrite Hparams in Hbody.
    specialize (Hbody ltac:(by destruct (SymbolTable.scopes (symbolTable a1)))).
    apply scopesStep_scoped in Hbody as (l' & Hexit & Hstep); [|done].
    cbn [symbolTable with_symbolTable with_function_context].
    destruct (symbolTable (analyzeBlock _ _ _)) as [l'']. cbn [SymbolTable.scopes] in Hexit.
    rewrite Hexit. cbn [SymbolTable.scopes].
    eapply scopesStep_trans.
    + eapply scopesStep_mono; [| |exact Hadd]; set_solver.
    + eapply scopesStep_mono; [| |exact Hstep]; set_solver.
  - unfold analyzeIfStatement.
    pose proof (scopesStep_expression
                  (flat_map functionNames th ++ flat_map functionNames el) [] c a Hne) as Hc.
    destruct (analyzeExpression c a) as [condType a1]. cbn [snd] in Hc.
    set (a2 := if bool_decide _ then _ else a1).
    assert (symbolTable a2 = symbolTable a1) as Ha2 by (unfold a2; by case_bool_decide).
    rewrite <- Ha2 in Hc. clearbody a2.
    pose proof (scopesStep_nonempty _ _ _ _ Hc) as Hne2.
    pose proof (scopesStep_scopedBlock th a2 IHth Hne2) as Hth.
    fold (entered a2). fold (exited (analyzeBlock analyzeStatement th (entered a2))).
    set (a3 := exited _) in *.
    pose proof (scopesStep_nonempty _ _ _ _ Hth) as Hne3.
    eapply scopesStep_trans; [exact Hc|].
    destruct el as [|s0 el].
    + eapply scopesStep_mono; [| |exact Hth]; set_solver.
    + pose proof (scopesStep_scopedBlock (s0 :: el) a3 IHel Hne3) as Hel.
      eapply scopesStep_trans.
      * eapply scopesStep_mono; [| |exact Hth]; set_solver.
      * eapply scopesStep_mono; [| |exact Hel]; set_solver.
  - unfold analyzeLoopStatement.
    pose proof (scopesStep_expression (flat_map functionNames body) [] c a Hne) as Hc.
    destruct (analyzeExpression c a) as [condType a1]. cbn [snd] in Hc.
    set (a2 := if bool_decide _ then _ else a1).
    assert (symbolTable a2 = symbolTable a1) as Ha2 by (unfold a2; by case_bool_decide).
    rewrite <- Ha2 in Hc. clearbody a2.
    pose proof (scopesStep_nonempty _ _ _ _ Hc) as Hne2.
    eapply scopesStep_trans; [exact Hc|].
    exact (scopesStep_scopedBlock body a2 IH Hne2).
  - unfold analyzeReturnStatement.
    destruct (inFunction a); cbn [negb]; [|by apply scopesStep_refl].
    destruct v as [e|]; [by apply scopesStep_expression|by apply scopesStep_refl].
  - by apply scopesStep_expression.
Qed.

Lemma scopesStep_lookup F D l l' n :
  scopesStep F D l l' → n ∉ F → n ∉ D →
  set_isInitialized <$> SymbolTable.lookup n (SymbolTable.mk l')
  = set_isInitialized <$> SymbolTable.lookup n (SymbolTable.mk l).
Proof.
  intros (outer & cur & outer' & cur' & -> & -> & Houter & Hcur) HF HD.
  rewrite !lookup_snoc.
  specialize (Hcur n ltac:(set_solver)).
  pose proof (agreeOutside_lookup F outer outer' n Houter HF).
  destruct (cur !! n), (cur' !! n); simpl in *; done.
Qed.

(** X6.  The analysis of a statement leaves the scope stack at the depth at
    which it found it, and every name resolves afterwards to the symbol to
    which it resolved before, up to the [isInitialized] flag, except the
    variable that the statement itself declares in its scope and the names of
    the functions declared in it at any depth.  So what a branch, a loop body
    or a function body declares as a variable or a parameter is gone
    afterwards, and nothing that it declares changes a binding outside. *)
Theorem declarations_are_block_scoped (s : Statement) (a : SemanticAnalyzer) :
  SymbolTable.scopes (symbolTable a) ≠ [] →
  length (SymbolTable.scopes (symbolTable (analyzeStatement s a)))
  = length (SymbolTable.scopes (symbolTable a))
  ∧ ∀ n, n ∉ functionNames s → n ∉ variableName s →
         set_isInitialized <$> SymbolTable.lookup n (symbolTable (analyzeStatement s a))
         = set_isInitialized <$> SymbolTable.lookup n (symbolTable a).
Proof.
  intros Hne. pose proof (analyzeStatement_scopesStep s a Hne) as Hstep.
  split; [by eapply scopesStep_length|].
  intros n HF HD.
  pose proof (scopesStep_lookup _ _ _ _ n Hstep HF HD) as H.
  by destruct (symbolTable (analyzeStatement s a)), (symbolTable a).
Qed.

(** [agar (haan) { banao x = 1; }]: [x] is not defined afterwards. *)
Lemma declarations_are_block_scoped_witness :
  SymbolTable.scopes (symbolTable newAnalyzer) ≠ []
  ∧ set_isInitialized <$>
      SymbolTable.lookup "x"
        (symbolTable
           (analyzeStatement
              (IfStatement (BooleanLiteral true)
                 [VariableDeclaration "x" (Some (NumberLiteral "1"))] [])
              newAnalyzer))
    = set_isInitialized <$> SymbolTable.lookup "x" (symbolTable newAnalyzer).
Proof.
  assert (SymbolTable.scopes (symbolTable newAnalyzer) ≠ []) as Hne by done.
  split; [exact Hne|].
  apply (declarations_are_block_scoped
           (IfStatement (BooleanLiteral true)
              [VariableDeclaration "x" (Some (NumberLiteral "1"))] [])
           newAnalyzer Hne); apply (bool_decide_unpack _); vm_compute; exact I.
Defined.

(** ** Function context *)

Lemma sameContext_trans a1 a2 a3 : sameContext a1 a2 → sameContext a2 a3 → sameContext a1 a3.
Proof. intros [??] [??]. split; congruence. Qed.

Lemma sameContext_foldl {B} (f : B → SemanticAnalyzer → SemanticAnalyzer) (l : list B) :
  Forall (λ x, ∀ a, sameContext a (f x a)) l → ∀ a, sameContext a (foldl (λ a x, f x a) a l).
Proof.
  induction 1 as [|x l Hx _ IH]; intros a; simpl; [done|].
  eapply sameContext_trans; [apply Hx|apply IH].
Qed.

Lemma sameContext_push_error a a' msg :
  sameContext a a' → sameContext a (push_error msg a').
Proof. done. Qed.

Lemma sameContext_with_symbolTable a a' tbl :
  sameContext a a' → sameContext a (with_symbolTable tbl a').
Proof. done. Qed.

Lemma analyzeExpression_sameContext e : ∀ a, sameContext a (analyzeExpression e a).2.
Proof.
  induction e as [v|v|v|n|l op r IHl IHr|op e IH|n v IH|n args IH|es _|ms _|n i IH]
    using Expression_nested_ind; intros a; cbn [analyzeExpression]; try done.
  - by destruct (SymbolTable.lookup n (symbolTable a)).
  - unfold analyzeBinaryOp.
    pose proof (IHl a) as Hl. destruct (analyzeExpression l a) as [lt a1].
    pose proof (IHr a1) as Hr. destruct (analyzeExpression r a1) as [rt a2].
    cbn [snd] in *. pose proof (sameContext_trans _ _ _ Hl Hr) as H.
    repeat case_bool_decide; cbn [snd];
      repeat first [apply sameContext_push_error | exact H].
  - unfold analyzeUnaryOp.
    pose proof (IH a) as H. destruct (analyzeExpression e a) as [t a1]. cbn [snd] in *.
    repeat case_bool_decide; cbn [snd];
      repeat first [apply sameContext_push_error | exact H].
  - unfold analyzeAssignment.
    destruct (SymbolTable.lookup n (symbolTable a)); [|done].
    pose proof (IH a) as H. destruct (analyzeExpression v a) as [t a1]. cbn [snd] in *.
    repeat case_bool_decide; cbn [snd]; apply sameContext_with_symbolTable;
      repeat first [apply sameContext_push_error | exact H].
  - assert (∀ a, sameContext a (analyzeArguments analyzeExpression args a)) as Hargs.
    { apply (sameContext_foldl (λ arg a, (analyzeExpression arg a).2)), IH. }
    assert (∀ a, sameContext a (foldl (λ a arg,
                    let '(argType, a) := analyzeExpression arg a in
                    if bool_decide (argType ≠ DataType.NUMBER ∧ argType ≠ DataType.UNKNOWN)
                    then push_error ("ERROR: " +:+ n +:+ "() expects number arguments") a
                    else a) a args)) as Hpow.
    { apply (sameContext_foldl (λ arg a,
                    let '(argType, a) := analyzeExpression arg a in
                    if bool_decide (argType ≠ DataType.NUMBER ∧ argType ≠ DataType.UNKNOWN)
                    then push_error ("ERROR: " +:+ n +:+ "() expects number arguments") a
                    else a)).
      eapply Forall_impl; [exact IH|]. intros e He a'. cbv beta in He.
      pose proof (He a') as H. destruct (analyzeExpression e a') as [t a1]. cbn [snd] in *.
      by case_bool_decide. }
    unfold analyzeFunctionCall.
    destruct (SymbolTable.lookup n (symbolTable a)) as [funcSym|]; [|done].
    destruct (isFunction funcSym); cbn [negb]; [|done].
    destruct args as [|arg0 [|arg1 rest]];
      repeat match goal with
             | H : Forall _ (_ :: _) |- _ => apply Forall_cons in H as [? H]
             end;
      cbv beta in *;
      repeat case_bool_decide; cbn [snd length];
      repeat first
        [ done
        | apply Hargs
        | apply Hpow
        | apply sameContext_push_error
        | match goal with
          | IH : ∀ a, sameContext a (analyzeExpression ?e a).2
            |- context [analyzeExpression ?e ?x] =>
              let H := fresh "Hc" in
              pose proof (IH x) as H;
              destruct (analyzeExpression e x) as [? ?]; cbn [fst snd] in H |- *
          end
        | case_bool_decide
        | eapply sameContext_trans; [eassumption|] ].
    all: eapply sameContext_trans; [|apply Hargs]; done.
  - unfold analyzeArrayAccess.
    destruct (SymbolTable.lookup n (symbolTable a)); [|done].
    set (a0 := if bool_decide _ then _ else a).
    assert (sameContext a a0) as H0 by (unfold a0; by case_bool_decide).
    pose proof (IH a0) as H. destruct (analyzeExpression i a0) as [t a1]. cbn [snd] in *.
    pose proof (sameContext_trans _ _ _ H0 H).
    by case_bool_decide.
Qed.

Lemma analyzeBlock_sameContext block :
  Forall (λ s, ∀ a, sameContext a (analyzeStatement s a)) block →
  ∀ a, sameContext a (analyzeBlock analyzeStatement block a).
Proof. intros H. by apply (sameContext_foldl (λ s a, analyzeStatement s a)). Qed.

Lemma analyzeStatement_sameContext s : ∀ a, sameContext a (analyzeStatement s a).
Proof.
  induction s as [n init|f params body IH|c th el IHth IHel|c body IH|v|e]
    using Statement_nested_ind; intros a; cbn [analyzeStatement].
  - unfold analyzeVariableDeclaration.
    assert (∃ ty a1, (match init with
                      | Some e => analyzeExpression e a
                      | None => (DataType.UNKNOWN, a)
                      end) = (ty, a1) ∧ sameContext a a1) as (ty & a1 & -> & H).
    { destruct init as [e|]; [|by eexists _, _].
      pose proof (analyzeExpression_sameContext e a).
      destruct (analyzeExpression e a) as [ty a1]. by exists ty, a1. }
    destruct (SymbolTable.define _ _ _ _ _) as [[] tbl]; done.
  - done.
  - unfold analyzeIfStatement.
    pose proof (analyzeExpression_sameContext c a) as Hc.
    destruct (analyzeExpression c a) as [condType a1]. cbn [snd] in Hc.
    set (a2 := if bool_decide _ then _ else a1).
    assert (sameContext a a2) as H2 by (unfold a2; by case_bool_decide).
    clearbody a2. fold (entered a2).
    fold (exited (analyzeBlock analyzeStatement th (entered a2))).
    assert (sameContext a (exited (analyzeBlock analyzeStatement th (entered a2)))) as H3.
    { eapply sameContext_trans; [exact H2|].
      apply (sameContext_trans _ (entered a2)); [done|].
      apply (sameContext_with_symbolTable (entered a2)).
      by apply analyzeBlock_sameContext. }
    destruct el as [|s0 el]; [done|].
    set (a3 := exited _) in *. fold (entered a3).
    eapply sameContext_trans; [exact H3|].
    apply (sameContext_trans _ (entered a3)); [done|].
    apply (sameContext_with_symbolTable (entered a3)).
    by apply analyzeBlock_sameContext.
  - unfold analyzeLoopStatement.
    pose proof (analyzeExpression_sameContext c a) as Hc.
    destruct (analyzeExpression c a) as [condType a1]. cbn [snd] in Hc.
    set (a2 := if bool_decide _ then _ else a1).
    assert (sameContext a a2) as H2 by (unfold a2; by case_bool_decide).
    clearbody a2. fold (entered a2).
    eapply sameContext_trans; [exact H2|].
    apply (sameContext_trans _ (entered a2)); [done|].
    apply (sameContext_with_symbolTable (entered a2)).
    by apply analyzeBlock_sameContext.
  - unfold analyzeReturnStatement. destruct (inFunction a); cbn [negb]; [|done].
    destruct v as [e|]; [apply analyzeExpression_sameContext|done].
  - apply analyzeExpression_sameContext.
Qed.

(** X7.  Every statement leaves the analyzer in the function context in
    which it found it: [inFunction] and [currentReturnType] are the same
    before and after, also across a function declaration.  A [wapas] that
    follows is therefore judged by the context before the statement: outside
    a function it is reported and its value is not looked at, inside a
    function its value is analyzed and nothing is recorded about the
    [wapas] itself. *)
Theorem function_context_is_restored (s : Statement) (v : option Expression)
    (a : SemanticAnalyzer) :
  let a' := analyzeStatement s a in
  inFunction a' = inFunction a
  ∧ currentReturnType a' = currentReturnType a
  ∧ analyzeStatement (ReturnStatement v) a'
    = if inFunction a then
        match v with
        | Some e => (analyzeExpression e a').2
        | None => a'
        end
      else push_error "ERROR: Return statement outside function" a'.
Proof.
  intros a'. destruct (analyzeStatement_sameContext s a) as [Hin Hret]. fold a' in Hin, Hret.
  split; [done|]. split; [done|].
  cbn [analyzeStatement]. unfold analyzeReturnStatement. rewrite Hin.
  by destruct (inFunction a).
Qed.

(** ** What the global scope holds *)

(** [P] is a property of symbols that does not depend on the
    [isInitialized] flag and that the signature of a declared function has. *)
Section GlobalBinding.

Variable P : Symbol → Prop.
Hypothesis P_flag :
  ∀ sym sym', set_isInitialized sym' = set_isInitialized sym → P sym → P sym'.
Hypothesis P_function :
  ∀ f params, P (mkSymbol f DataType.VOID true true params DataType.VOID).

Lemma globalHolds_update n m tbl :
  globalHolds P n tbl → globalHolds P n (SymbolTable.update m tbl).2.
Proof.
  intros (g & inner & sym & Hs & Hn & HP).
  pose proof (update_agree m tbl) as H. rewrite Hs in H.
  apply Forall2_cons_inv_l in H as (g' & inner' & Hg & _ & Hs').
  specialize (Hg n ltac:(set_solver)). rewrite Hn in Hg.
  destruct (g' !! n) as [sym'|] eqn:Hn'; [|done].
  exists g', inner', sym'. split_and!; [done..|].
  cbn [fmap option_fmap option_map] in Hg.
  apply (P_flag sym); [congruence|done].
Qed.

Lemma globalHolds_define n m ty isFunc isInit tbl :
  globalHolds P n tbl → globalHolds P n (SymbolTable.define m ty isFunc isInit tbl).2.
Proof.
  intros (g & inner & sym & Hs & Hn & HP). destruct tbl as [l]. cbn [SymbolTable.scopes] in Hs.
  subst l. destruct inner as [|cur outer _] using rev_ind.
  - pose proof (define_innermost [] g m ty isFunc isInit) as Hd. cbn [app] in Hd.
    rewrite Hd. destruct (g !! m) eqn:Hm; cbn [snd].
    + by exists g, [], sym.
    + exists (<[m := Symbol_ m ty isFunc isInit]> g), [], sym. split_and!; [done| |done].
      rewrite lookup_insert_ne; [done|]. congruence.
  - rewrite app_comm_cons, define_innermost. destruct (cur !! m); cbn [snd].
    + by exists g, (outer ++ [cur]), sym.
    + by exists g, (outer ++ [<[m := Symbol_ m ty isFunc isInit]> cur]), sym.
Qed.

Lemma globalHolds_addFunctionSignature n f params tbl :
  globalHolds P n tbl →
  globalHolds P n (SymbolTable.addFunctionSignature f params DataType.VOID tbl).
Proof.
  intros (g & inner & sym & Hs & Hn & HP). unfold SymbolTable.addFunctionSignature.
  rewrite Hs. destruct (decide (f = n)) as [->|Hne].
  - eexists _, inner, _. split_and!; [done|by rewrite lookup_insert_eq|apply P_function].
  - eexists _, inner, sym. split_and!; [done|by rewrite lookup_insert_ne|done].
Qed.

Lemma globalHolds_enterScope n tbl :
  globalHolds P n tbl → globalHolds P n (SymbolTable.enterScope tbl).
Proof.
  intros (g & inner & sym & Hs & Hn & HP). exists g, (inner ++ [∅]), sym.
  unfold SymbolTable.enterScope. cbn [SymbolTable.scopes]. by rewrite Hs.
Qed.

Lemma globalHolds_exitScope n tbl :
  globalHolds P n tbl → globalHolds P n (SymbolTable.exitScope tbl).
Proof.
  intros (g & inner & sym & Hs & Hn & HP). unfold SymbolTable.exitScope.
  case_decide as Hlen; [|by exists g, inner, sym].
  rewrite Hs in *. destruct inner as [|sc inner]; simpl in Hlen; [lia|].
  by exists g, (removelast (sc :: inner)), sym.
Qed.

(** Once the global scope binds [n] to such a symbol, it does so for the
    rest of the analysis. *)
Lemma analyzeStatement_globalHolds n s :
  keepsTable (globalHolds P n) (analyzeStatement s).
Proof.
  apply analyzeStatement_keepsTable.
  - intros ??. apply globalHolds_update.
  - intros ???. apply globalHolds_define.
  - intros ???. apply globalHolds_addFunctionSignature.
  - apply globalHolds_enterScope.
  - apply globalHolds_exitScope.
Qed.

Lemma analyzeBlock_globalHolds n block :
  keepsTable (globalHolds P n) (analyzeBlock analyzeStatement block).
Proof.
  apply (keepsTable_foldl (globalHolds P n) (λ s a, analyzeStatement s a)).
  apply Forall_forall. intros s _. apply analyzeStatement_globalHolds.
Qed.

Lemma defineParameters_globalHolds n params :
  keepsTable (globalHolds P n) (defineParameters params).
Proof.
  apply defineParameters_keepsTable. intros ???. apply globalHolds_define.
Qed.

(** A function declaration, at whatever depth, puts the name into the
    global scope. *)
Lemma function_declaration_globalHolds n s a :
  n ∈ functionNames s → SymbolTable.scopes (symbolTable a) ≠ [] →
  globalHolds P n (symbolTable (analyzeStatement s a)).
Proof.
  revert a.
  assert (∀ block,
            Forall (λ s, ∀ a, n ∈ functionNames s →
                              SymbolTable.scopes (symbolTable a) ≠ [] →
                              globalHolds P n (symbolTable (analyzeStatement s a))) block →
            ∀ a, n ∈ flat_map functionNames block →
                 SymbolTable.scopes (symbolTable a) ≠ [] →
                 globalHolds P n (symbolTable (analyzeBlock analyzeStatement block a)))
    as Hblock.
  { induction 1 as [|s0 block Hs _ IH]; intros a Hn Hne; simpl in Hn; [set_solver|].
    change (analyzeBlock analyzeStatement (s0 :: block) a)
      with (analyzeBlock analyzeStatement block (analyzeStatement s0 a)).
    apply elem_of_app in Hn as [Hn|Hn].
    - by apply analyzeBlock_globalHolds, Hs.
    - apply IH; [done|]. eapply scopesStep_nonempty. by apply analyzeStatement_scopesStep. }
  induction s as [m init|f params body IH|c th el IHth IHel|c body IH|v|e]
    using Statement_nested_ind; intros a Hn Hne; cbn [functionNames] in Hn;
    try (by apply elem_of_nil in Hn).
  - cbn [analyzeStatement]. unfold analyzeFunctionDeclaration. cbv zeta.
    cbn [symbolTable with_symbolTable with_function_context].
    apply globalHolds_exitScope.
    apply elem_of_cons in Hn as [->|Hn].
    + apply analyzeBlock_globalHolds, defineParameters_globalHolds.
      cbn [symbolTable with_symbolTable with_function_context].
      apply globalHolds_enterScope.
      unfold SymbolTable.addFunctionSignature.
      destruct (SymbolTable.scopes (symbolTable a)) as [|g inner] eqn:Hs; [done|].
      eexists _, inner, _. split_and!; [done|by rewrite lookup_insert_eq|apply P_function].
    + apply (Hblock body IH); [done|].
      set (a2 := with_function_context _ _ _).
      destruct (defineParameters_scopes params a2
                  (SymbolTable.scopes
                     (SymbolTable.addFunctionSignature f
                        (replicate (length params) DataType.UNKNOWN) DataType.VOID
                        (symbolTable a))) ∅ eq_refl) as (c' & ->).
      by intros [_ ?]%app_eq_nil.
  - cbn [analyzeStatement]. unfold analyzeIfStatement.
    pose proof (scopesStep_expression [] [] c a Hne) as Hc.
    destruct (analyzeExpression c a) as [condType a1]. cbn [snd] in Hc.
    set (a2 := if bool_decide _ then _ else a1).
    assert (symbolTable a2 = symbolTable a1) as Ha2 by (unfold a2; by case_bool_decide).
    rewrite <- Ha2 in Hc. clearbody a2.
    pose proof (scopesStep_nonempty _ _ _ _ Hc) as Hne2.
    fold (entered a2). fold (exited (analyzeBlock analyzeStatement th (entered a2))).
    set (a3 := exited _).
    assert (SymbolTable.scopes (symbolTable a3) ≠ []) as Hne3.
    { eapply scopesStep_nonempty, (scopesStep_scopedBlock th a2); [|done].
      apply Forall_forall. intros s _ a'. apply analyzeStatement_scopesStep. }
    assert (n ∈ flat_map functionNames th → globalHolds P n (symbolTable a3)) as Hth.
    { intros Hin. apply globalHolds_exitScope, (Hblock th IHth); [done|].
      cbn [entered symbolTable with_symbolTable SymbolTable.enterScope SymbolTable.scopes].
      by intros [_ ?]%app_eq_nil. }
    destruct el as [|s0 el].
    + apply Hth. by rewrite app_nil_r in Hn.
    + fold (entered a3). cbn [symbolTable with_symbolTable].
      apply globalHolds_exitScope.
      apply elem_of_app in Hn as [Hn|Hn].
      * apply analyzeBlock_globalHolds. cbn [entered symbolTable with_symbolTable].
        by apply globalHolds_enterScope, Hth.
      * apply (Hblock (s0 :: el) IHel); [done|].
        cbn [entered symbolTable with_symbolTable SymbolTable.enterScope SymbolTable.scopes].
        by intros [_ ?]%app_eq_nil.
  - cbn [analyzeStatement]. unfold analyzeLoopStatement.
    pose proof (scopesStep_expression [] [] c a Hne) as Hc.
    destruct (analyzeExpression c a) as [condType a1]. cbn [snd] in Hc.
    set (a2 := if bool_decide _ then _ else a1).
    assert (symbolTable a2 = symbolTable a1) as Ha2 by (unfold a2; by case_bool_decide).
    rewrite <- Ha2 in Hc. clearbody a2.
    pose proof (scopesStep_nonempty _ _ _ _ Hc) as Hne2.
    cbn [symbolTable with_symbolTable].
    apply globalHolds_exitScope, (Hblock body IH); [done|].
    cbn [symbolTable with_symbolTable SymbolTable.enterScope SymbolTable.scopes].
    by intros [_ ?]%app_eq_nil.
Qed.

Lemma function_declaration_in_block_globalHolds n block a :
  n ∈ flat_map functionNames block → SymbolTable.scopes (symbolTable a) ≠ [] →
  globalHolds P n (symbolTable (analyzeBlock analyzeStatement block a)).
Proof.
  revert a. induction block as [|s block IH]; intros a Hn Hne; simpl in Hn; [set_solver|].
  change (analyzeBlock analyzeStatement (s :: block) a)
    with (analyzeBlock analyzeStatement block (analyzeStatement s a)).
  apply elem_of_app in Hn as [Hn|Hn].
  - by apply analyzeBlock_globalHolds, function_declaration_globalHolds.
  - apply IH; [done|]. eapply scopesStep_nonempty. by apply analyzeStatement_scopesStep.
Qed.

End GlobalBinding.

Lemma single_scope_after_statement s a g :
  SymbolTable.scopes (symbolTable a) = [g] →
  ∃ g', SymbolTable.scopes (symbolTable (analyzeStatement s a)) = [g'].
Proof.
  intros Hs. pose proof (analyzeStatement_scopesStep s a ltac:(by rewrite Hs)) as H.
  apply scopesStep_length in H. rewrite Hs in H.
  destruct (SymbolTable.scopes (symbolTable (analyzeStatement s a))) as [|g' [|??]];
    simpl in H; [lia| |lia].
  by exists g'.
Qed.

Lemma single_scope_after_block block a g :
  SymbolTable.scopes (symbolTable a) = [g] →
  ∃ g', SymbolTable.scopes (symbolTable (analyzeBlock analyzeStatement block a)) = [g'].
Proof.
  revert a g. induction block as [|s block IH]; intros a g Hs; [by exists g|].
  destruct (single_scope_after_statement s a g Hs) as (g' & Hs').
  exact (IH _ _ Hs').
Qed.

Lemma declared_function_lookup block f a g :
  SymbolTable.scopes (symbolTable a) = [g] →
  f ∈ flat_map functionNames block →
  ∃ sym, SymbolTable.lookup f (symbolTable (analyzeBlock analyzeStatement block a)) = Some sym
         ∧ isFunction sym = true.
Proof.
  intros Hs Hf.
  destruct (function_declaration_in_block_globalHolds (λ sym, isFunction sym = true))
    with (n := f) (block := block) (a := a) as (g1 & inner & sym & Hs1 & Hsym & Hfun);
    [intros [] [] [=]; by intros; simplify_eq/=|done|done|by rewrite Hs|].
  destruct (single_scope_after_block block a g Hs) as (g' & Hs').
  rewrite Hs' in Hs1. injection Hs1 as <- <-.
  exists sym. split; [|done]. unfold SymbolTable.lookup. rewrite Hs'. simpl. by rewrite Hsym.
Qed.

(** X8.  A function declared anywhere in a run of top-level statements, be
    it inside a branch, a loop body or the body of another function, is bound
    in the global scope when the run is over: its name then resolves to a
    function symbol, even if a variable of that name was declared at top
    level before or after it. *)
Theorem declared_function_is_global (block : list Statement) (f : string)
    (a : SemanticAnalyzer) (g : gmap string Symbol) :
  SymbolTable.scopes (symbolTable a) = [g] →
  f ∈ flat_map functionNames block →
  ∃ sym, SymbolTable.lookup f (symbolTable (analyzeBlock analyzeStatement block a)) = Some sym
         ∧ isFunction sym = true.
Proof. apply declared_function_lookup. Qed.

(** [banao f = 1; agar (haan) { kaam f() { } }]. *)
Lemma declared_function_is_global_witness :
  ∃ sym,
    SymbolTable.lookup "f"
      (symbolTable
         (analyzeBlock analyzeStatement
            [VariableDeclaration "f" (Some (NumberLiteral "1"));
             IfStatement (BooleanLiteral true) [FunctionDeclaration "f" [] []] []]
            newAnalyzer))
    = Some sym
    ∧ isFunction sym = true.
Proof.
  eapply (declared_function_is_global _ "f" newAnalyzer); [reflexivity|].
  apply (bool_decide_unpack _); vm_compute; exact I.
Defined.

Lemma variable_declaration_in_block_globalHolds n block a g :
  SymbolTable.scopes (symbolTable a) = [g] →
  n ∈ flat_map variableName block →
  globalHolds (λ _, True) n (symbolTable (analyzeBlock analyzeStatement block a)).
Proof.
  revert a g. induction block as [|s block IH]; intros a g Hs Hn; simpl in Hn; [set_solver|].
  change (analyzeBlock analyzeStatement (s :: block) a)
    with (analyzeBlock analyzeStatement block (analyzeStatement s a)).
  destruct (single_scope_after_statement s a g Hs) as (g' & Hs').
  apply elem_of_app in Hn as [Hn|Hn]; [|by eapply IH].
  apply analyzeBlock_globalHolds; [by intros|done|].
  destruct s as [m init| | | | |]; simpl in Hn; try (by apply elem_of_nil in Hn).
  apply list_elem_of_singleton in Hn as ->.
  clear Hs'. cbn [analyzeStatement]. unfold analyzeVariableDeclaration.
  assert (∃ ty a1 g1, (match init with
                       | Some e => analyzeExpression e a
                       | None => (DataType.UNKNOWN, a)
                       end) = (ty, a1)
                      ∧ symbolTable a1 = SymbolTable.mk [g1])
    as (ty & a1 & g1 & -> & Hs1).
  { destruct init as [e|].
    - destruct (single_scope_after_statement (ExpressionStatement e) a g Hs) as (g1 & Hs1).
      cbn [analyzeStatement] in Hs1. destruct (analyzeExpression e a) as [ty a1].
      cbn [snd] in Hs1. exists ty, a1, g1. split; [done|].
      destruct (symbolTable a1) as [l]. cbn [SymbolTable.scopes] in Hs1. by subst l.
    - exists DataType.UNKNOWN, a, g. split; [done|].
      destruct (symbolTable a) as [l]. cbn [SymbolTable.scopes] in Hs. by subst l. }
  rewrite Hs1. pose proof (define_innermost [] g1 m ty false true) as Hd. cbn [app] in Hd.
  rewrite Hd. destruct (g1 !! m) as [sym|] eqn:Hm.
  - by exists g1, [], sym.
  - eexists _, [], _. split_and!; [done|by rewrite lookup_insert_eq|done].
Qed.

(** X9.  From a fresh analyzer, [analyze] records the missing-entry-point
    diagnostic, and fails, exactly when the program declares neither a
    function named [main], at any depth, nor a top-level variable named
    [main].  Otherwise its verdict is whether the traversal recorded no
    diagnostic; and where a function [main] is declared, [main] resolves to a
    function symbol at the end. *)
Theorem entry_point_check_sees_global_names (program : Program) :
  let a' := analyzeBlock analyzeStatement (statements program) newAnalyzer in
  analyze program newAnalyzer
  = (if decide ("main" ∈ globalNames (statements program))
     then (bool_decide (errors a' = []), a')
     else (false, push_error "ERROR: Main function 'kaam main()' not found" a'))
  ∧ ("main" ∈ flat_map functionNames (statements program) →
     ∃ sym, SymbolTable.lookup "main" (symbolTable a') = Some sym ∧ isFunction sym = true).
Proof.
  intros a'. split; [|by apply (declared_function_lookup _ _ newAnalyzer _ eq_refl)].
  rewrite analyze_by_lookup_main. cbv zeta. fold a'.
  case_decide as Hmain.
  - assert (globalHolds (λ _, True) "main" (symbolTable a'))
      as (g & inner & sym & Hs & Hsym & _).
    { apply elem_of_app in Hmain as [Hmain|Hmain].
      - apply function_declaration_in_block_globalHolds; done.
      - by eapply variable_declaration_in_block_globalHolds. }
    destruct (symbolTable a') as [l]. cbn [SymbolTable.scopes] in Hs. subst l.
    rewrite lookup_cons, Hsym. by destruct (SymbolTable.lookup _ _).
  - pose proof (scopesStep_block (statements program)) as Hstep.
    specialize (Hstep ltac:(apply Forall_forall; intros s _ a0;
                            apply analyzeStatement_scopesStep) newAnalyzer ltac:(done)).
    fold a' in Hstep.
    apply scopesStep_lookup with (n := "main") in Hstep; [|set_solver..].
    destruct (symbolTable a') as [l]. cbn [SymbolTable.scopes] in Hstep.
    by destruct (SymbolTable.lookup "main" _).
Qed.

Lemma isFunction_flag sym sym' :
  set_isInitialized sym' = set_isInitialized sym →
  isFunction sym = true → isFunction sym' = true.
Proof. destruct sym, sym'. intros [=]. by intros; simplify_eq/=. Qed.

Lemma builtin_globalHolds b :
  b ∈ builtinNames → globalHolds (λ sym, isFunction sym = true) b SymbolTable.new.
Proof.
  intros Hb. destruct globalAtZero_new as (g & inner & Hs & Hg).
  destruct (Hg b Hb) as (sym & Hsym & Hf). by exists g, inner, sym.
Qed.

(** X10.  At top level a builtin name stays a function: after any run of
    top-level statements from a fresh analyzer each builtin name resolves to
    a function symbol, and a top-level [banao] of that name is rejected as
    already defined (once its initializer, if any, has been analyzed) and
    binds nothing. *)
Theorem builtin_names_stay_functions_at_top_level (block : list Statement) (b : string)
    (init : option Expression) :
  b ∈ builtinNames →
  let a := analyzeBlock analyzeStatement block newAnalyzer in
  (∃ sym, SymbolTable.lookup b (symbolTable a) = Some sym ∧ isFunction sym = true)
  ∧ analyzeStatement (VariableDeclaration b init) a
    = push_error ("ERROR: Variable '" +:+ b +:+ "' already defined in current scope")
        match init with
        | Some e => (analyzeExpression e a).2
        | None => a
        end.
Proof.
  intros Hb a.
  assert (globalHolds (λ sym, isFunction sym = true) b (symbolTable a)) as Ha.
  { apply analyzeBlock_globalHolds; [apply isFunction_flag|done|by apply builtin_globalHolds]. }
  destruct (single_scope_after_block block newAnalyzer _ eq_refl) as (g & Hs). fold a in Hs.
  split.
  - destruct Ha as (g0 & inner & sym & Hs0 & Hsym & Hf). rewrite Hs in Hs0.
    injection Hs0 as <- <-. exists sym. split; [|done].
    unfold SymbolTable.lookup. rewrite Hs. simpl. by rewrite Hsym.
  - cbn [analyzeStatement]. unfold analyzeVariableDeclaration.
    assert (∃ ty a1, (match init with
                      | Some e => analyzeExpression e a
                      | None => (DataType.UNKNOWN, a)
                      end) = (ty, a1)
                     ∧ a1 = match init with
                            | Some e => (analyzeExpression e a).2
                            | None => a
                            end) as (ty & a1 & -> & Ha1).
    { destruct init as [e|]; [|by eexists _, _].
      destruct (analyzeExpression e a) as [ty a1]. by exists ty, a1. }
    rewrite <- Ha1.
    assert (globalHolds (λ sym, isFunction sym = true) b (symbolTable a1)
            ∧ ∃ g1, SymbolTable.scopes (symbolTable a1) = [g1]) as [H1 (g1 & Hs1)].
    { subst a1. destruct init as [e|]; [|by eauto].
      split.
      - by apply (analyzeStatement_globalHolds _ isFunction_flag ltac:(done) b
                    (ExpressionStatement e)).
      - exact (single_scope_after_statement (ExpressionStatement e) a g Hs). }
    destruct H1 as (g0 & inner & sym & Hs0 & Hsym & Hf). rewrite Hs1 in Hs0.
    injection Hs0 as <- <-.
    destruct a1 as [[l] errs ret inFn]. cbn [symbolTable SymbolTable.scopes] in *. subst l.
    pose proof (define_innermost [] g1 b ty false true) as Hd. cbn [app] in Hd.
    rewrite Hd, Hsym. reflexivity.
Qed.

(** [banao abs = 1;] after [kaam main() { }]. *)
Lemma builtin_names_stay_functions_at_top_level_witness :
  "abs" ∈ builtinNames
  ∧ analyzeStatement (VariableDeclaration "abs" (Some (NumberLiteral "1")))
      (analyzeBlock analyzeStatement [FunctionDeclaration "main" [] []] newAnalyzer)
    = push_error "ERROR: Variable 'abs' already defined in current scope"
        (analyzeBlock analyzeStatement [FunctionDeclaration "main" [] []] newAnalyzer).
Proof.
  assert ("abs" ∈ builtinNames) as Hb by (apply (bool_decide_unpack _); vm_compute; exact I).
  split; [exact Hb|].
  exact (proj2 (builtin_names_stay_functions_at_top_level
                  [FunctionDeclaration "main" [] []] "abs" (Some (NumberLiteral "1")) Hb)).
Defined.

(** ** Diagnostics *)

(** X11.  The analysis only ever appends to the list of diagnostics and
    never reads it: run with diagnostics [E] already recorded, a block leaves
    [E] in front of exactly what it leaves without them.  The diagnostics of a
    sequence of statements are those of its first part followed by those of
    the rest, analysed where the first part ends. *)
Theorem diagnostics_accumulate_in_order (E : list string) (block rest : list Statement)
    (a : SemanticAnalyzer) :
  analyzeBlock analyzeStatement block (prepend E a)
  = prepend E (analyzeBlock analyzeStatement block a)
  ∧ errors (analyzeBlock analyzeStatement (block ++ rest) a)
    = errors a ++ blockDiagnostics block a
      ++ blockDiagnostics rest (analyzeBlock analyzeStatement block a).
Proof.
  split.
  - apply analyzeBlock_framed, Forall_forall. intros s _. apply analyzeStatement_framed.
  - unfold analyzeBlock at 1. rewrite foldl_app.
    fold (analyzeBlock analyzeStatement block a).
    fold (analyzeBlock analyzeStatement rest (analyzeBlock analyzeStatement block a)).
    by rewrite analyzeBlock_errors, (analyzeBlock_errors block), app_assoc.
Qed.

(** X12.  [analyze] reports success exactly when the list of diagnostics is
    empty at the end; the list then holds what it held before, what the
    traversal added and, if no symbol named [main] is visible, the
    missing-entry-point diagnostic last.  An analyzer that holds a diagnostic
    never reports success again. *)
Theorem analyze_succeeds_iff_no_diagnostic (program : Program) (a : SemanticAnalyzer) :
  let '(success, a') := analyze program a in
  let traversed := analyzeBlock analyzeStatement (statements program) a in
  success = bool_decide (errors a' = [])
  ∧ errors a'
    = errors a ++ blockDiagnostics (statements program) a
      ++ match SymbolTable.lookup "main" (symbolTable traversed) with
         | Some _ => []
         | None => ["ERROR: Main function 'kaam main()' not found"]
         end
  ∧ symbolTable a' = symbolTable traversed
  ∧ (errors a ≠ [] → success = false).
Proof.
  rewrite analyze_by_lookup_main. cbv zeta.
  pose proof (analyzeBlock_errors (statements program) a) as Herr.
  destruct (SymbolTable.lookup "main" _).
  - rewrite app_nil_r. split_and!; try done.
    intros Hne. apply bool_decide_eq_false_2. rewrite Herr.
    by intros [? _]%app_eq_nil.
  - cbn [errors push_error symbolTable]. split_and!; try done.
    + symmetry. apply bool_decide_eq_false_2. by intros [_ ?]%app_eq_nil.
    + by rewrite Herr, app_assoc.
Qed.

(** ** The symbols of the table *)

(** [Q] is a property of stored symbols that [update] keeps and that the
    symbols made by [define] and by [addFunctionSignature], as the analyzer
    calls them, have. *)
Section SymbolInvariant.

Variable Q : string → Symbol → Prop.
Hypothesis Q_initialized : ∀ n sym, Q n sym → Q n (set_isInitialized sym).
Hypothesis Q_variable : ∀ n ty, Q n (Symbol_ n ty false true).
Hypothesis Q_function :
  ∀ n params, Q n (mkSymbol n DataType.VOID true true params DataType.VOID).

Lemma allSymbols_update_from l n l' :
  SymbolTable.update_from l n = Some l' → Forall (map_Forall Q) l → Forall (map_Forall Q) l'.
Proof.
  revert l'. induction l as [|sc l IH]; intros l'; simpl; [done|].
  intros Hu [Hsc Hl]%Forall_cons.
  destruct (sc !! n) as [s|] eqn:Hn.
  - injection Hu as <-. apply Forall_cons. split; [|done].
    apply map_Forall_insert_2; [|done]. by apply Q_initialized, (Hsc n s).
  - destruct (SymbolTable.update_from l n) as [l0|]; simpl in Hu; [|done].
    injection Hu as <-. apply Forall_cons. split; [done|]. by apply IH.
Qed.

Lemma allSymbols_update n tbl :
  allSymbols Q tbl → allSymbols Q (SymbolTable.update n tbl).2.
Proof.
  unfold allSymbols, SymbolTable.update. intros H.
  destruct (SymbolTable.update_from (reverse (SymbolTable.scopes tbl)) n) as [l'|] eqn:Hu;
    simpl; [|done].
  apply Forall_reverse. eapply allSymbols_update_from; [exact Hu|].
  by apply Forall_reverse.
Qed.

Lemma allSymbols_define n ty tbl :
  allSymbols Q tbl → allSymbols Q (SymbolTable.define n ty false true tbl).2.
Proof.
  unfold allSymbols. intros H. destruct tbl as [scopes]. simpl in H.
  destruct (last scopes) as [cur|] eqn:Hlast.
  - apply last_Some in Hlast as [outer ->]. rewrite define_innermost.
    destruct (cur !! n); simpl; [done|].
    apply Forall_app in H as [Houter Hcur]. rewrite Forall_singleton in Hcur.
    apply Forall_app. split; [done|]. apply Forall_singleton.
    by apply map_Forall_insert_2.
  - unfold SymbolTable.define. simpl. by rewrite Hlast.
Qed.

Lemma allSymbols_addFunctionSignature n params tbl :
  allSymbols Q tbl →
  allSymbols Q (SymbolTable.addFunctionSignature n params DataType.VOID tbl).
Proof.
  unfold allSymbols, SymbolTable.addFunctionSignature. intros H.
  destruct (SymbolTable.scopes tbl) as [|g inner] eqn:Hs; [by rewrite Hs|].
  simpl. apply Forall_cons in H as [Hg Hinner]. apply Forall_cons. split; [|done].
  by apply map_Forall_insert_2.
Qed.

Lemma allSymbols_enterScope tbl :
  allSymbols Q tbl → allSymbols Q (SymbolTable.enterScope tbl).
Proof.
  unfold allSymbols, SymbolTable.enterScope. intros H. simpl.
  apply Forall_app. split; [done|]. apply Forall_singleton, map_Forall_empty.
Qed.

Lemma allSymbols_exitScope tbl :
  allSymbols Q tbl → allSymbols Q (SymbolTable.exitScope tbl).
Proof.
  unfold allSymbols, SymbolTable.exitScope. intros H.
  case_decide; [|done]. simpl.
  destruct (SymbolTable.scopes tbl) as [|g inner] using rev_ind; [done|].
  rewrite removelast_snoc. by apply Forall_app in H as [? _].
Qed.

Lemma analyzeStatement_allSymbols s : keepsTable (allSymbols Q) (analyzeStatement s).
Proof.
  apply analyzeStatement_keepsTable.
  - intros ??. apply allSymbols_update.
  - intros ???. apply allSymbols_define.
  - intros ???. apply allSymbols_addFunctionSignature.
  - apply allSymbols_enterScope.
  - apply allSymbols_exitScope.
Qed.

Lemma analyzeExpression_allSymbols e :
  keepsTable (allSymbols Q) (λ a, (analyzeExpression e a).2).
Proof. apply analyzeExpression_keepsTable. intros ??. apply allSymbols_update. Qed.

Lemma allSymbols_lookup n tbl sym :
  allSymbols Q tbl → SymbolTable.lookup n tbl = Some sym → Q n sym.
Proof.
  unfold allSymbols, SymbolTable.lookup. intros H%Forall_reverse.
  induction (reverse (SymbolTable.scopes tbl)) as [|sc l IH]; simpl; [done|].
  apply Forall_cons in H as [Hsc Hl].
  destruct (sc !! n) as [s|] eqn:Hn; [|by apply IH].
  intros [= <-]. by apply (Hsc n s).
Qed.

End SymbolInvariant.

Lemma wellFormedSymbol_new : allSymbols wellFormedSymbol SymbolTable.new.
Proof.
  unfold allSymbols. apply Forall_singleton.
  unfold SymbolTable.new, SymbolTable.initBuiltins, SymbolTable.addFunctionSignature.
  cbn [SymbolTable.scopes].
  repeat (apply map_Forall_insert_2;
          [split_and!; try done;
           intros Hn; exfalso; apply Hn; apply (bool_decide_unpack _); vm_compute; exact I|]).
  apply map_Forall_empty.
Qed.

(** X13.  The symbols of a fresh table are well formed, and every statement
    and every expression keeps the table so: whatever name a well-formed
    table resolves, the symbol carries that name and counts as initialized
    (also a variable declared without initializer), a function has type Void,
    and a name that is not a builtin has return type Void. *)
Theorem symbols_stay_well_formed (s : Statement) (e : Expression) (a : SemanticAnalyzer) :
  allSymbols wellFormedSymbol (symbolTable a) →
  allSymbols wellFormedSymbol (symbolTable newAnalyzer)
  ∧ allSymbols wellFormedSymbol (symbolTable (analyzeStatement s a))
  ∧ allSymbols wellFormedSymbol (symbolTable (analyzeExpression e a).2)
  ∧ ∀ n sym, SymbolTable.lookup n (symbolTable a) = Some sym → wellFormedSymbol n sym.
Proof.
  assert (∀ n sym, wellFormedSymbol n sym → wellFormedSymbol n (set_isInitialized sym)) as H1
    by (by intros n [] (? & ? & ? & ? & ?)).
  assert (∀ n ty, wellFormedSymbol n (Symbol_ n ty false true)) as H2 by done.
  assert (∀ n params,
            wellFormedSymbol n (mkSymbol n DataType.VOID true true params DataType.VOID))
    as H3 by done.
  intros Ha. split_and!.
  - apply wellFormedSymbol_new.
  - by apply analyzeStatement_allSymbols.
  - by apply (analyzeExpression_allSymbols wellFormedSymbol H1 e a).
  - intros n sym. by apply allSymbols_lookup.
Qed.

(** [banao x;] in a fresh analyzer: [x] counts as initialized. *)
Lemma symbols_stay_well_formed_witness :
  allSymbols wellFormedSymbol (symbolTable newAnalyzer)
  ∧ allSymbols wellFormedSymbol
      (symbolTable (analyzeStatement (VariableDeclaration "x" None) newAnalyzer)).
Proof.
  split; [exact wellFormedSymbol_new|].
  exact (proj1 (proj2 (symbols_stay_well_formed (VariableDeclaration "x" None)
                         (Identifier "x") newAnalyzer wellFormedSymbol_new))).
Defined.

(** ** Calls of declared functions *)





(** ** Variable declarations *)

Lemma analyzeExpression_innermost e a cur :
  last (SymbolTable.scopes (symbolTable a)) = Some cur →
  ∃ outer1 cur1,
    SymbolTable.scopes (symbolTable (analyzeExpression e a).2) = outer1 ++ [cur1]
    ∧ agreeOutside [] cur cur1.
Proof.
  intros Hlast. apply last_Some in Hlast as [outer Hs].
  pose proof (analyzeExpression_agree e a) as H. rewrite Hs in H.
  apply Forall2_app_inv_l in H as (outer1 & k & _ & Hk & ->).
  apply Forall2_cons_inv_l in Hk as (cur1 & k' & Hcur & Hk' & ->).
  apply Forall2_nil_inv_l in Hk' as ->. by exists outer1, cur1.
Qed.

(** X15.  [banao x = e;] analyzes [e] first, with [x] not yet declared by
    this statement, and then declares [x] in the innermost scope.  If that
    scope has no [x], the name is bound with the type of [e], nothing is
    recorded beyond the diagnostics of [e], and a use of [x] right after has
    that type.  If the scope has an [x] already, the redeclaration is
    reported, and [x] keeps the type of its first declaration. *)
Theorem declaration_binds_type_of_initializer (x : string) (e : Expression)
    (a : SemanticAnalyzer) (cur : gmap string Symbol) :
  last (SymbolTable.scopes (symbolTable a)) = Some cur →
  let '(ty, a1) := analyzeExpression e a in
  let a' := analyzeStatement (VariableDeclaration x (Some e)) a in
  match cur !! x with
  | None =>
      errors a' = errors a1
      ∧ SymbolTable.lookup x (symbolTable a') = Some (Symbol_ x ty false true)
      ∧ analyzeExpression (Identifier x) a' = (ty, a')
  | Some sym =>
      a' = push_error ("ERROR: Variable '" +:+ x +:+ "' already defined in current scope") a1
      ∧ analyzeExpression (Identifier x) a' = (type sym, a')
  end.
Proof.
  intros Hlast.
  destruct (analyzeExpression_innermost e a cur Hlast) as (outer1 & cur1 & Hs1 & Hcur).
  specialize (Hcur x ltac:(set_solver)).
  cbn [analyzeStatement analyzeExpression]. unfold analyzeVariableDeclaration.
  destruct (analyzeExpression e a) as [ty a1]. cbn [snd] in Hs1.
  destruct a1 as [[l] errs ret inFn]. cbn [symbolTable SymbolTable.scopes] in *. subst l.
  rewrite define_innermost.
  destruct (cur !! x) as [sym|] eqn:Hx; destruct (cur1 !! x) as [sym1|] eqn:Hx1;
    cbn [fmap option_fmap option_map] in Hcur; try done; cbn [negb].
  - split; [done|]. cbn [symbolTable push_error with_symbolTable].
    rewrite lookup_snoc, Hx1.
    assert (type sym1 = type sym) as ->; [|done].
    destruct sym, sym1. unfold set_isInitialized in Hcur. cbn in Hcur. by simplify_eq.
  - cbn [symbolTable errors with_symbolTable]. rewrite lookup_snoc, lookup_insert_eq. done.
Qed.

(** [banao x = 1;] and then [banao x = 'a';] in a fresh analyzer: [x] stays
    a number. *)
Lemma declaration_binds_type_of_initializer_witness :
  analyzeExpression (Identifier "x")
    (analyzeStatement (VariableDeclaration "x" (Some (StringLiteral "a")))
       (analyzeStatement (VariableDeclaration "x" (Some (NumberLiteral "1"))) newAnalyzer))
  = (DataType.NUMBER,
     analyzeStatement (VariableDeclaration "x" (Some (StringLiteral "a")))
       (analyzeStatement (VariableDeclaration "x" (Some (NumberLiteral "1"))) newAnalyzer)).
Proof.
  exact (proj2 (declaration_binds_type_of_initializer "x" (StringLiteral "a")
                  (analyzeStatement (VariableDeclaration "x" (Some (NumberLiteral "1")))
                     newAnalyzer) _ eq_refl)).
Defined.

(** ** Progress of the lexer *)

Lemma movedOn_refl lx : movedOn 0 lx lx.
Proof. split; [done|lia]. Qed.

Lemma movedOn_trans j k lx1 lx2 lx3 :
  movedOn j lx1 lx2 → movedOn k lx2 lx3 → movedOn (j + k) lx1 lx3.
Proof. intros [??] [??]. split; [congruence|lia]. Qed.

Lemma movedOn_weaken j k lx lx' : (k ≤ j)%nat → movedOn j lx lx' → movedOn k lx lx'.
Proof. intros ? [??]. split; [done|lia]. Qed.

Ltac moved_solve :=
  unfold movedOn in *; simpl in *; destruct_and?; split; [congruence|lia].

Lemma count_char_movedOn c lx : movedOn 0 lx (Lexer.count_char c lx).2.
Proof. unfold Lexer.count_char. case_bool_decide; moved_solve. Qed.

Lemma skipComment_movedOn fuel lx : movedOn 0 lx (Lexer.skipComment fuel lx).2.
Proof.
  revert lx. induction fuel as [|fuel IH]; intros lx; [apply movedOn_refl|].
  simpl. lexer_unfold.
  case_bool_decide as Hin; [|apply movedOn_refl]. simpl.
  case_bool_decide; simpl; [|moved_solve].
  match goal with |- movedOn 0 _ (Lexer.skipComment fuel ?x).2 => specialize (IH x) end.
  moved_solve.
Qed.

Lemma skipWhitespaceAndComments_loop_movedOn fuel lx :
  movedOn 0 lx (Lexer.skipWhitespaceAndComments_loop fuel lx).2.
Proof.
  revert lx. induction fuel as [|fuel IH]; intros lx; [apply movedOn_refl|].
  simpl. lexer_unfold.
  case_bool_decide as Hin; [|apply movedOn_refl]. simpl.
  destruct (isspace _); simpl.
  - match goal with |- context [Lexer.count_char ?c ?x] =>
      pose proof (count_char_movedOn c x) as Hc;
      destruct (Lexer.count_char c x) as [[] lx1] end.
    match goal with |- movedOn 0 _ (Lexer.skipWhitespaceAndComments_loop fuel ?x).2 =>
      specialize (IH x) end.
    moved_solve.
  - case_bool_decide; simpl; [|moved_solve].
    case_bool_decide as Hmore; simpl; [|moved_solve].
    case_bool_decide; simpl; [|moved_solve].
    match goal with |- context [Lexer.skipComment ?f ?x] =>
      pose proof (skipComment_movedOn f x) as Hc;
      destruct (Lexer.skipComment f x) as [[] lx1] end.
    specialize (IH lx1). moved_solve.
Qed.

Lemma scanString_loop_movedOn fuel quote value lx :
  movedOn 0 lx (Lexer.scanString_loop fuel quote value lx).2.
Proof.
  revert value lx. induction fuel as [|fuel IH]; intros value lx; [apply movedOn_refl|].
  simpl. lexer_unfold.
  case_bool_decide as Hin; [|apply movedOn_refl]. simpl.
  case_bool_decide; simpl; [|moved_solve].
  match goal with |- context [Lexer.count_char ?c ?x] =>
    pose proof (count_char_movedOn c x) as Hc;
    destruct (Lexer.count_char c x) as [[] lx1] end.
  match goal with |- movedOn 0 _ (Lexer.scanString_loop fuel _ ?v ?x).2 =>
    specialize (IH v x) end.
  moved_solve.
Qed.

Lemma scanWhile_movedOn fuel first other value lx :
  movedOn 0 lx (Lexer.scanWhile fuel first other value lx).2.
Proof.
  revert value lx. induction fuel as [|fuel IH]; intros value lx; [apply movedOn_refl|].
  simpl. lexer_unfold.
  case_bool_decide as Hin; [|apply movedOn_refl]. simpl.
  destruct (first _); simpl; [|case_bool_decide; simpl; [|moved_solve]];
    match goal with |- movedOn 0 _ (Lexer.scanWhile fuel _ _ ?v ?x).2 =>
      specialize (IH v x) end;
    moved_solve.
Qed.

(** The first iteration: a character that the loop accepts is consumed. *)
Lemma scanWhile_movedOn_accepted fuel first other value lx :
  (Lexer.pos lx < String.length (Lexer.source lx))%nat →
  (let c := default zero (String.get (Lexer.pos lx) (Lexer.source lx)) in
   first c || bool_decide (c = other)) = true →
  movedOn 1 lx (Lexer.scanWhile (S fuel) first other value lx).2.
Proof.
  intros Hin Hacc. cbv zeta in Hacc. simpl. lexer_unfold.
  rewrite bool_decide_eq_true_2 by lia. simpl.
  destruct (first _); simpl; [|simpl in Hacc; rewrite Hacc; simpl];
    match goal with |- movedOn 1 _ (Lexer.scanWhile fuel _ _ ?v ?x).2 =>
      pose proof (scanWhile_movedOn fuel first other v x) end;
    moved_solve.
Qed.

Lemma scanString_movedOn quote lx : movedOn 1 lx (Lexer.scanString quote lx).2.
Proof.
  unfold Lexer.scanString. lexer_unfold. simpl.
  match goal with |- context [Lexer.scanString_loop ?f ?q ?v ?x] =>
    pose proof (scanString_loop_movedOn f q v x) as Hloop;
    destruct (Lexer.scanString_loop f q v x) as [value lx1] end.
  simpl. case_bool_decide; simpl; moved_solve.
Qed.

Lemma lookahead_movedOn next two twoText one oneText tokenLine tokenCol lx :
  movedOn 0 lx (Lexer.lookahead next two twoText one oneText tokenLine tokenCol lx).2.
Proof. unfold Lexer.lookahead. lexer_unfold. simpl. case_bool_decide; simpl; moved_solve. Qed.

Lemma isalpha_isalnum c : isalpha c = true → isalnum c = true.
Proof. unfold isalnum. by intros ->. Qed.

Lemma scanNumber_movedOn lx :
  (Lexer.pos lx < String.length (Lexer.source lx))%nat →
  isdigit (default zero (String.get (Lexer.pos lx) (Lexer.source lx))) = true →
  movedOn 1 lx (Lexer.scanNumber lx).2.
Proof.
  intros Hin Hdigit. unfold Lexer.scanNumber. lexer_unfold.
  destruct (String.length (Lexer.source lx)) as [|fuel] eqn:Hlen; [lia|].
  match goal with |- context [Lexer.scanWhile (S fuel) ?f ?o ?v lx] =>
    pose proof (scanWhile_movedOn_accepted fuel f o v lx) as H;
    destruct (Lexer.scanWhile (S fuel) f o v lx) as [value lx1] end.
  apply H; [lia|]. cbv zeta. by rewrite Hdigit.
Qed.

Lemma scanIdentifierOrKeyword_movedOn lx :
  (Lexer.pos lx < String.length (Lexer.source lx))%nat →
  (let c := default zero (String.get (Lexer.pos lx) (Lexer.source lx)) in
   isalpha c || bool_decide (c = "_"%char)) = true →
  movedOn 1 lx (Lexer.scanIdentifierOrKeyword lx).2.
Proof.
  intros Hin Hstart. unfold Lexer.scanIdentifierOrKeyword. lexer_unfold.
  destruct (String.length (Lexer.source lx)) as [|fuel] eqn:Hlen; [lia|].
  match goal with |- context [Lexer.scanWhile (S fuel) ?f ?o ?v lx] =>
    pose proof (scanWhile_movedOn_accepted fuel f o v lx) as H;
    destruct (Lexer.scanWhile (S fuel) f o v lx) as [value lx1] end.
  assert (movedOn 1 lx lx1) as H1.
  { apply H; [lia|]. cbv zeta in Hstart |- *.
    apply orb_true_iff in Hstart as [Ha|Hu]; [|by rewrite Hu, orb_true_r].
    by rewrite (isalpha_isalnum _ Ha). }
  by destruct (Lexer.keywords !! value).
Qed.

(** [nextToken] never moves backwards, and a token other than [EOF_TOKEN]
    consumes at least one character. *)
Lemma nextToken_movedOn lx tok lx' :
  Lexer.nextToken lx = (tok, lx') →
  movedOn (if bool_decide (Token.type tok = TokenType.EOF_TOKEN) then 0 else 1) lx lx'.
Proof.
  intros Hnt. unfold Lexer.nextToken in Hnt.
  unfold mbind at 1, Lexer.M_bind at 1 in Hnt.
  pose proof (skipWhitespaceAndComments_loop_movedOn
                (String.length (Lexer.source lx)) lx) as Hskip.
  change (Lexer.skipWhitespaceAndComments_loop _ lx)
    with (Lexer.skipWhitespaceAndComments lx) in Hskip.
  destruct (Lexer.skipWhitespaceAndComments lx) as [[] lx1]. cbn [snd] in Hskip.
  unfold mbind at 1, Lexer.M_bind at 1, Lexer.get at 1 in Hnt.
  case_bool_decide as Hend.
  { injection Hnt as <- <-. simpl. done. }
  unfold mbind at 1, Lexer.M_bind at 1, Lexer.at_ at 1 in Hnt.
  set (ch := default zero (String.get (Lexer.pos lx1) (Lexer.source lx1))) in Hnt.
  set (lx2 := Lexer.mk _ _ _ _ _) in Hnt.
  assert (movedOn 1 lx2 lx' → movedOn (if bool_decide (Token.type tok = TokenType.EOF_TOKEN)
                                      then 0 else 1) lx lx') as Hfinish.
  { intros H. apply (movedOn_weaken 1); [destruct (bool_decide (Token.type tok = _)); lia|].
    subst lx2. moved_solve. }
  apply Hfinish. clear Hfinish.
  case_bool_decide.
  { pose proof (scanString_movedOn ch lx2) as H'. by rewrite Hnt in H'. }
  destruct (isdigit ch) eqn:Hdigit.
  { pose proof (scanNumber_movedOn lx2) as H'. rewrite Hnt in H'.
    apply H'; [subst lx2; simpl; lia|done]. }
  destruct (isalpha ch || bool_decide (ch = "_"%char)) eqn:Hstart.
  { pose proof (scanIdentifierOrKeyword_movedOn lx2) as H'. rewrite Hnt in H'.
    apply H'; [subst lx2; simpl; lia|done]. }
  unfold mbind at 1, Lexer.M_bind at 1, Lexer.incr_pos at 1 in Hnt.
  unfold mbind at 1, Lexer.M_bind at 1, Lexer.incr_column at 1 in Hnt.
  set (lx3 := Lexer.mk _ _ _ _ _) in Hnt.
  assert (movedOn 1 lx2 lx3) as H3 by (subst lx3; moved_solve).
  assert (movedOn 0 lx3 lx' → movedOn 1 lx2 lx') as Hlast.
  { intros H'. apply (movedOn_trans 1 0 _ _ _ H3 H'). }
  apply Hlast.
  repeat (case_bool_decide;
          [first [ injection Hnt as <- <-; apply movedOn_refl
                 | match type of Hnt with
                   | Lexer.lookahead ?n ?t2 ?s2 ?t1 ?s1 ?l ?c ?x = _ =>
                       pose proof (lookahead_movedOn n t2 s2 t1 s1 l c x) as H';
                       by rewrite Hnt in H'
                   end]|]).
  injection Hnt as <- <-; apply movedOn_refl.
Qed.

Lemma tokenize_loop_ends fuel acc lx :
  (String.length (Lexer.source lx) - Lexer.pos lx ≤ fuel)%nat →
  ∃ body eof,
    Lexer.tokenize_loop fuel acc lx
    = (acc ++ body ++ [eof], (Lexer.tokenize_loop fuel acc lx).2)
    ∧ Token.type eof = TokenType.EOF_TOKEN
    ∧ Forall (λ token, Token.type token ≠ TokenType.EOF_TOKEN) body
    ∧ (length body ≤ String.length (Lexer.source lx) - Lexer.pos lx)%nat
    ∧ (String.length (Lexer.source lx) ≤ Lexer.pos (Lexer.tokenize_loop fuel acc lx).2)%nat.
Proof.
  revert acc lx. induction fuel as [|fuel IH]; intros acc lx Hfuel.
  - simpl. unfold mbind, Lexer.M_bind.
    rewrite nextToken_at_end by lia. simpl.
    eexists [], _. split_and!; [done|done|constructor|simpl; lia|simpl; lia].
  - simpl. unfold mbind, Lexer.M_bind.
    pose proof (nextToken_EOF_at_end lx) as Hend.
    destruct (Lexer.nextToken lx) as [token lx1] eqn:Hnt. cbn [fst snd] in Hend.
    pose proof (nextToken_movedOn lx token lx1 Hnt) as Hmoved.
    destruct (decide (Token.type token = TokenType.EOF_TOKEN)) as [Heof|Htype].
    + rewrite bool_decide_eq_false_2 by (by intros ?).
      destruct (Hend Heof) as [Hfin _]. destruct Hmoved as [Hsrc _].
      exists [], token. simpl. split_and!; [done|done|constructor|lia|by rewrite <- Hsrc].
    + rewrite bool_decide_eq_true_2 by done.
      rewrite bool_decide_eq_false_2 in Hmoved by done. destruct Hmoved as [Hsrc Hpos].
      assert (Lexer.pos lx < String.length (Lexer.source lx))%nat as Hin.
      { destruct (decide (Lexer.pos lx < String.length (Lexer.source lx))%nat); [done|].
        rewrite nextToken_at_end in Hnt by lia. by injection Hnt as <- <-. }
      destruct (IH (acc ++ [token]) lx1) as (body & eof & Heq & Heof & Hbody & Hlen & Hfin);
        [rewrite Hsrc; lia|].
      exists (token :: body), eof. rewrite Hsrc in *. split_and!.
      * rewrite Heq at 1. by rewrite <- app_assoc.
      * done.
      * by constructor.
      * simpl. lia.
      * done.
Qed.

(** X16.  Tokenization comes to an end on every source: the token list is a
    run of tokens other than [EOF_TOKEN], at most one for each character of
    the source, followed by exactly one [EOF_TOKEN], and the lexer has then
    consumed the whole source. *)
Theorem tokenization_ends_with_single_EOF (src : string) :
  ∃ body eof,
    Lexer.tokenize src = body ++ [eof]
    ∧ Token.type eof = TokenType.EOF_TOKEN
    ∧ Forall (λ token, Token.type token ≠ TokenType.EOF_TOKEN) body
    ∧ (length body ≤ String.length src)%nat
    ∧ Lexer.pos (Lexer.tokenize_loop (String.length src) [] (Lexer.new src)).2
      = String.length src.
Proof.
  destruct (tokenize_loop_ends (String.length src) [] (Lexer.new src))
    as (body & eof & Heq & Heof & Hbody & Hlen & Hfin); [simpl; lia|].
  pose proof (tokenize_loop_within src (String.length src) [] (Lexer.new src)
                (withinTerminator_new src)) as (_ & Hpos & _).
  exists body, eof. unfold Lexer.tokenize. rewrite Heq at 1. simpl in *.
  split_and!; try done; lia.
Qed.

(** X17.  However often [nextToken] is called, the lexer keeps its source,
    its position never exceeds the length of the source, and every index at
    which it has read the source is at most that length: the only read
    outside the characters is the one of the terminator. *)
Theorem reads_never_pass_the_terminator (src : string) (k : nat) :
  let lx := afterCalls k src in
  Lexer.source lx = src
  ∧ (Lexer.pos lx ≤ String.length src)%nat
  ∧ ∀ i, i ∈ Lexer.accessed lx → (i ≤ String.length src)%nat.
Proof.
  assert (withinTerminator src (afterCalls k src)) as (Hsrc & Hpos & Hread).
  { induction k as [|k IH]; [apply withinTerminator_new|].
    unfold afterCalls. rewrite Nat.iter_succ. by apply nextToken_within. }
  split_and!; [done..|]. by apply Forall_forall.
Qed.

Lemma afterCalls_reach src k :
  (String.length src ≤ Lexer.pos (afterCalls k src))%nat
  ∨ (k ≤ Lexer.pos (afterCalls k src))%nat.
Proof.
  induction k as [|k IH]; [right; simpl; lia|].
  unfold afterCalls. rewrite Nat.iter_succ. fold (afterCalls k src).
  assert (Lexer.source (afterCalls k src) = src) as Hsrc.
  { clear IH. induction k as [|k IH]; [done|].
    unfold afterCalls. rewrite Nat.iter_succ. fold (afterCalls k src).
    destruct (Lexer.nextToken (afterCalls k src)) as [tok lx1] eqn:Hnt.
    cbn [snd]. apply nextToken_movedOn in Hnt as [Hs _]. by rewrite Hs. }
  pose proof (nextToken_EOF_at_end (afterCalls k src)) as Hend.
  destruct (Lexer.nextToken (afterCalls k src)) as [tok lx1] eqn:Hnt. cbn [fst snd] in *.
  pose proof (nextToken_movedOn _ _ _ Hnt) as [Hsrc1 Hmoved].
  destruct (decide (Token.type tok = TokenType.EOF_TOKEN)) as [Heof|Hne].
  - left. destruct (Hend Heof) as [Hfin _]. by rewrite Hsrc1, Hsrc in Hfin.
  - rewrite bool_decide_eq_false_2 in Hmoved by done. destruct IH; [left|right]; lia.
Qed.

(** X18.  After as many calls of [nextToken] as the source has characters
    the lexer is exhausted: it stands at the end of the source, and every
    further call returns an [EOF_TOKEN] with empty text at the current line
    and column and leaves the lexer as it is. *)
Theorem exhausted_lexer_returns_EOF (src : string) (k : nat) :
  (String.length src ≤ k)%nat →
  let lx := afterCalls k src in
  Lexer.pos lx = String.length src
  ∧ Lexer.nextToken lx
    = (Token.mk TokenType.EOF_TOKEN EmptyString (Lexer.line lx) (Lexer.column lx), lx)
  ∧ afterCalls (S k) src = lx.
Proof.
  intros Hk lx.
  assert (withinTerminator src lx) as (Hsrc & Hpos & _).
  { subst lx. clear Hk. induction k as [|k IH]; [apply withinTerminator_new|].
    unfold afterCalls. rewrite Nat.iter_succ. by apply nextToken_within. }
  assert (String.length src ≤ Lexer.pos lx)%nat as Hreach
    by (destruct (afterCalls_reach src k); subst lx; lia).
  assert (Lexer.nextToken lx
          = (Token.mk TokenType.EOF_TOKEN EmptyString (Lexer.line lx) (Lexer.column lx), lx))
    as Hnt by (apply nextToken_at_end; by rewrite Hsrc).
  split_and!; [lia|done|].
  unfold afterCalls. rewrite Nat.iter_succ. fold (afterCalls k src). fold lx. by rewrite Hnt.
Qed.

(** Three calls on the source [a+]. *)
Lemma exhausted_lexer_returns_EOF_witness :
  (String.length "a+" ≤ 3)%nat
  ∧ Lexer.pos (afterCalls 3 "a+") = 2
  ∧ afterCalls 4 "a+" = afterCalls 3 "a+".
Proof.
  assert (String.length "a+" ≤ 3)%nat as Hk by (simpl; lia).
  split; [exact Hk|].
  pose proof (exhausted_lexer_returns_EOF "a+" 3 Hk) as (Hpos & _ & Hnext).
  split; [exact Hpos|exact Hnext].
Defined.

(** ** Totality of the lexer *)





(** ** The text of the tokens *)

Lemma append_nil_r (s : string) : s +:+ "" = s.
Proof.
  induction s as [|c s IH]; [done|].
  change (String c s +:+ "") with (String c (s +:+ "")). by rewrite IH.
Qed.

Lemma append_char_append (value : string) (c : ascii) (rest : string) :
  Lexer.append_char value c +:+ rest = value +:+ String c rest.
Proof.
  unfold Lexer.append_char. induction value as [|d value IH]; [done|].
  change ((String d value +:+ String c "") +:+ rest)
    with (String d ((value +:+ String c "") +:+ rest)).
  by rewrite IH.
Qed.

Lemma substring_none (s : string) (i : nat) : substring i 0 s = "".
Proof. revert i. induction s as [|c s IH]; intros [|i]; simpl; auto. Qed.

Lemma substring_next (s : string) (i k : nat) (c : ascii) :
  String.get i s = Some c → substring i (S k) s = String c (substring (S i) k s).
Proof.
  revert i. induction s as [|d s IH]; intros [|i] Hget; simpl in *; try done.
  - injection Hget as ->. by destruct s, k.
  - rewrite (IH i Hget). by destruct s.
Qed.

Lemma get_in_range (s : string) (i : nat) :
  (i < String.length s)%nat → String.get i s = Some (charAt s i).
Proof.
  unfold charAt. revert i. induction s as [|d s IH]; intros [|i] Hi; simpl in *; try lia.
  - done.
  - apply IH. lia.
Qed.

(** The loop of [scanNumber] and [scanIdentifierOrKeyword], given at least
    as many iterations as characters are left: it appends to [value] the
    longest run of accepted characters from the current position, and moves
    the position and the column past that run. *)
Lemma scanWhile_span fuel first other value lx :
  (String.length (Lexer.source lx) - Lexer.pos lx ≤ fuel)%nat →
  let result := Lexer.scanWhile fuel first other value lx in
  ∃ k : nat,
    result.1 = value +:+ substring (Lexer.pos lx) k (Lexer.source lx)
    ∧ longestRun (λ c, first c || bool_decide (c = other)) lx result.2 k.
Proof.
  unfold longestRun. cbv zeta.
  revert value lx. induction fuel as [|fuel IH]; intros value lx Hfuel.
  - exists 0. simpl. rewrite substring_none, append_nil_r, Nat.add_0_r.
    split_and!; try done; lia.
  - simpl. lexer_unfold. case_bool_decide as Hin; simpl.
    + assert (Lexer.pos lx < String.length (Lexer.source lx))%nat as Hlt by lia.
      fold (charAt (Lexer.source lx) (Lexer.pos lx)).
      destruct (first (charAt (Lexer.source lx) (Lexer.pos lx))) eqn:Hfirst; simpl;
        [|fold (charAt (Lexer.source lx) (Lexer.pos lx));
          destruct (bool_decide (charAt (Lexer.source lx) (Lexer.pos lx) = other))
            eqn:Hother; simpl].
      1, 2:
        match goal with |- context [Lexer.scanWhile _ _ _ ?v ?x] =>
          destruct (IH v x) as (k & Hvalue & Hsrc & Hpos & Hline & Hcol & Hrun & Hstop);
            [simpl; lia|]
        end;
        simpl in *; exists (S k); split_and!;
        [ rewrite Hvalue, append_char_append;
          by rewrite (substring_next _ _ k _ (get_in_range _ _ Hlt))
        | done
        | lia
        | done
        | by rewrite Hcol, columnAfter_S
        | intros [|i] Hi;
          [ rewrite Nat.add_0_r; split; [lia|by rewrite Hfirst, ?Hother]
          | replace (Lexer.pos lx + S i)%nat with (S (Lexer.pos lx) + i)%nat by lia;
            apply Hrun; lia ]
        | by replace (Lexer.pos lx + S k)%nat with (S (Lexer.pos lx) + k)%nat by lia ].
      exists 0. rewrite substring_none, append_nil_r, Nat.add_0_r.
      split_and!; try done; [lia|]. by rewrite Hfirst, Hother.
    + exists 0. rewrite substring_none, append_nil_r, Nat.add_0_r.
      split_and!; try done; lia.
Qed.

(** X19.  A number token is the longest run of digits and dots from the
    position of the lexer, an identifier or keyword token the longest run of
    letters, digits and underscores: the text of the token is exactly that
    stretch of the source, the token carries the line and column at which it
    starts, and the lexer ends right behind it, on the same line, with one
    [column++] for every character of the token: the column is advanced by
    the length of the token as an [int], and so by exactly that length
    unless the sum passes [INT_MAX], where the counter wraps around.  A word
    is a keyword token if the keyword table has it and an [IDENTIFIER]
    otherwise. *)
Theorem number_and_word_tokens_are_longest_runs (lx : Lexer.t) :
  (∃ k,
     (Lexer.scanNumber lx).1
     = Token.mk TokenType.NUMBER (substring (Lexer.pos lx) k (Lexer.source lx))
         (Lexer.line lx) (Lexer.column lx)
     ∧ longestRun (λ c, isdigit c || bool_decide (c = "."%char)) lx (Lexer.scanNumber lx).2 k)
  ∧ (∃ k,
       let text := substring (Lexer.pos lx) k (Lexer.source lx) in
       (Lexer.scanIdentifierOrKeyword lx).1
       = Token.mk (default TokenType.IDENTIFIER (Lexer.keywords !! text)) text
           (Lexer.line lx) (Lexer.column lx)
       ∧ longestRun (λ c, isalnum c || bool_decide (c = "_"%char)) lx
           (Lexer.scanIdentifierOrKeyword lx).2 k)
  ∧ (∀ k : nat,
       (- 2 ^ 31 ≤ Lexer.column lx)%Z → (Lexer.column lx + Z.of_nat k < 2 ^ 31)%Z →
       columnAfter (Lexer.column lx) k = (Lexer.column lx + Z.of_nat k)%Z).
Proof.
  split_and!.
  - unfold Lexer.scanNumber. lexer_unfold.
    match goal with |- context [Lexer.scanWhile ?n ?f ?o ?v lx] =>
      destruct (scanWhile_span n f o v lx ltac:(lia)) as (k & Hvalue & Hrun);
      destruct (Lexer.scanWhile n f o v lx) as [value lx1] end.
    exists k. simpl in *. by rewrite Hvalue.
  - unfold Lexer.scanIdentifierOrKeyword. lexer_unfold.
    match goal with |- context [Lexer.scanWhile ?n ?f ?o ?v lx] =>
      destruct (scanWhile_span n f o v lx ltac:(lia)) as (k & Hvalue & Hrun);
      destruct (Lexer.scanWhile n f o v lx) as [value lx1] end.
    exists k. simpl in *. subst value.
    by destruct (Lexer.keywords !! _).
  - intros k. apply columnAfter_small.
Qed.

Lemma count_char_fields c lx :
  Lexer.source (Lexer.count_char c lx).2 = Lexer.source lx
  ∧ Lexer.pos (Lexer.count_char c lx).2 = Lexer.pos lx.
Proof. unfold Lexer.count_char. by case_bool_decide. Qed.

(** The loop of [scanString], given at least as many iterations as
    characters are left: it appends to [value] the characters up to the next
    [quote], or up to the end of the source if there is none. *)
Lemma scanString_loop_span fuel quote value lx :
  (String.length (Lexer.source lx) - Lexer.pos lx ≤ fuel)%nat →
  ∃ k : nat,
    (Lexer.scanString_loop fuel quote value lx).1
    = value +:+ substring (Lexer.pos lx) k (Lexer.source lx)
    ∧ Lexer.source (Lexer.scanString_loop fuel quote value lx).2 = Lexer.source lx
    ∧ Lexer.pos (Lexer.scanString_loop fuel quote value lx).2 = (Lexer.pos lx + k)%nat
    ∧ (∀ i, (i < k)%nat →
            (Lexer.pos lx + i < String.length (Lexer.source lx))%nat
            ∧ charAt (Lexer.source lx) (Lexer.pos lx + i) ≠ quote)
    ∧ ((Lexer.pos lx + k < String.length (Lexer.source lx))%nat →
       charAt (Lexer.source lx) (Lexer.pos lx + k) = quote).
Proof.
  revert value lx. induction fuel as [|fuel IH]; intros value lx Hfuel.
  - exists 0. simpl. rewrite substring_none, append_nil_r, Nat.add_0_r.
    split_and!; try done; lia.
  - simpl. lexer_unfold. case_bool_decide as Hin; simpl.
    + assert (Lexer.pos lx < String.length (Lexer.source lx))%nat as Hlt by lia.
      fold (charAt (Lexer.source lx) (Lexer.pos lx)).
      case_bool_decide as Hquote; simpl.
      * match goal with |- context [Lexer.count_char ?c ?x] =>
          pose proof (count_char_fields c x) as [Hcs Hcp];
          destruct (Lexer.count_char c x) as [[] lx1] end.
        simpl in Hcs, Hcp.
        match goal with |- context [Lexer.scanString_loop fuel quote ?v ?x] =>
          destruct (IH v x) as (k & Hvalue & Hsrc & Hpos & Hrun & Hstop);
            [simpl; rewrite Hcs, Hcp; lia|]
        end.
        simpl in *. rewrite Hcs, Hcp in *. exists (S k). split_and!.
        -- rewrite Hvalue, append_char_append.
           by rewrite (substring_next _ _ k _ (get_in_range _ _ Hlt)).
        -- done.
        -- lia.
        -- intros [|i] Hi.
           ++ rewrite Nat.add_0_r. split; [lia|done].
           ++ replace (Lexer.pos lx + S i)%nat with (S (Lexer.pos lx) + i)%nat by lia.
              apply Hrun. lia.
        -- replace (Lexer.pos lx + S k)%nat with (S (Lexer.pos lx) + k)%nat by lia. done.
      * exists 0. rewrite substring_none, append_nil_r, Nat.add_0_r.
        split_and!; try done; try lia.
    + exists 0. rewrite substring_none, append_nil_r, Nat.add_0_r.
      split_and!; try done; lia.
Qed.

(** X20.  A string token holds the characters between the opening quote, at
    which the lexer stands, and the next occurrence of the same quote
    character, which is consumed with it; a backslash has no special meaning.
    If the quote does not occur again the token holds the rest of the source
    and the lexer stops at its end: an unterminated string is a [STRING]
    token like any other, and nothing reports it. *)
Theorem string_token_runs_to_closing_quote (quote : ascii) (lx : Lexer.t) :
  let src := Lexer.source lx in
  let start := S (Lexer.pos lx) in
  ∃ k : nat,
    (Lexer.scanString quote lx).1
    = Token.mk TokenType.STRING (substring start k src) (Lexer.line lx) (Lexer.column lx)
    ∧ Lexer.source (Lexer.scanString quote lx).2 = src
    ∧ (∀ i, (i < k)%nat →
            (start + i < String.length src)%nat ∧ charAt src (start + i) ≠ quote)
    ∧ if decide (start + k < String.length src)%nat
      then charAt src (start + k) = quote
           ∧ Lexer.pos (Lexer.scanString quote lx).2 = S (start + k)
      else Lexer.pos (Lexer.scanString quote lx).2 = (start + k)%nat.
Proof.
  intros src start. unfold Lexer.scanString. lexer_unfold. simpl.
  match goal with |- context [Lexer.scanString_loop ?f quote ?v ?x] =>
    destruct (scanString_loop_span f quote v x ltac:(simpl; lia))
      as (k & Hvalue & Hsrc & Hpos & Hrun & Hstop);
    destruct (Lexer.scanString_loop f quote v x) as [value lx1] end.
  simpl in *. fold src start in Hvalue, Hsrc, Hpos, Hrun, Hstop.
  exists k. rewrite Hsrc, Hpos. fold src.
  case_bool_decide; case_decide; try lia; simpl; split_and!; auto.
  all: by rewrite Hvalue.
Qed.

Lemma charAt_past_end (s : string) (i : nat) :
  (String.length s ≤ i)%nat → charAt s i = zero.
Proof. intros Hi. unfold charAt. by rewrite get_past_end. Qed.

(** The loop that skips a comment, given at least as many iterations as
    characters are left: it stops at the next newline or at the end of the
    source, and changes neither line nor column. *)
Lemma skipComment_stops fuel lx :
  (String.length (Lexer.source lx) - Lexer.pos lx ≤ fuel)%nat →
  let lx' := (Lexer.skipComment fuel lx).2 in
  Lexer.source lx' = Lexer.source lx
  ∧ (Lexer.pos lx ≤ Lexer.pos lx')%nat
  ∧ (∀ i, (Lexer.pos lx ≤ i < Lexer.pos lx')%nat → charAt (Lexer.source lx) i ≠ newline)
  ∧ ((Lexer.pos lx < String.length (Lexer.source lx))%nat →
     charAt (Lexer.source lx) (Lexer.pos lx) ≠ newline →
     (Lexer.pos lx < Lexer.pos lx')%nat)
  ∧ ((Lexer.pos lx' < String.length (Lexer.source lx))%nat →
     charAt (Lexer.source lx) (Lexer.pos lx') = newline).
Proof.
  cbv zeta. revert lx. induction fuel as [|fuel IH]; intros lx Hfuel.
  - simpl. split_and!; try done; lia.
  - simpl. lexer_unfold. case_bool_decide as Hin; simpl; [|split_and!; try done; lia].
    fold (charAt (Lexer.source lx) (Lexer.pos lx)).
    case_bool_decide as Hnl; simpl.
    + match goal with |- context [Lexer.skipComment fuel ?x] =>
        destruct (IH x) as (Hsrc & Hpos & Hrun & _ & Hstop); [simpl; lia|] end.
      simpl in *. split_and!; try done; try lia.
      intros i Hi. destruct (decide (i = Lexer.pos lx)) as [->|]; [done|].
      apply Hrun. lia.
    + split_and!; try done; try lia.
Qed.

Lemma skipWhitespaceAndComments_loop_stops fuel lx :
  (String.length (Lexer.source lx) - Lexer.pos lx ≤ fuel)%nat →
  let src := Lexer.source lx in
  let lx' := (Lexer.skipWhitespaceAndComments_loop fuel lx).2 in
  (∀ i, (Lexer.pos lx ≤ i < Lexer.pos lx')%nat →
        isspace (charAt src i) = true ∨ inComment src i)
  ∧ ((Lexer.pos lx' < String.length src)%nat →
     isspace (charAt src (Lexer.pos lx')) = false
     ∧ ¬ (charAt src (Lexer.pos lx') = "/"%char ∧ charAt src (S (Lexer.pos lx')) = "/"%char)).
Proof.
  cbv zeta. revert lx. induction fuel as [|fuel IH]; intros lx Hfuel.
  - simpl. split; [intros; lia|lia].
  - simpl. lexer_unfold. case_bool_decide as Hin; simpl; [|split; [intros; lia|lia]].
    fold (charAt (Lexer.source lx) (Lexer.pos lx)).
    destruct (isspace (charAt (Lexer.source lx) (Lexer.pos lx))) eqn:Hspace; simpl.
    + match goal with |- context [Lexer.count_char ?c ?x] =>
        pose proof (count_char_fields c x) as [Hcs Hcp];
        destruct (Lexer.count_char c x) as [[] lx1] end.
      simpl in Hcs, Hcp.
      match goal with |- context [Lexer.skipWhitespaceAndComments_loop fuel ?x] =>
        pose proof (skipWhitespaceAndComments_loop_movedOn fuel x) as [Hsrc Hpos];
        destruct (IH x) as (Hrun & Hstop); [simpl; rewrite Hcs, Hcp; lia|] end.
      simpl in *. rewrite Hcs, Hcp in *. split.
      * intros i Hi. destruct (decide (i = Lexer.pos lx)) as [->|]; [by left|].
        apply Hrun. lia.
      * done.
    + fold (charAt (Lexer.source lx) (Lexer.pos lx + 1)).
      replace (Lexer.pos lx + 1)%nat with (S (Lexer.pos lx)) by lia.
      case_bool_decide as Hslash; simpl;
        [|split; [intros; lia|intros _; split; [done|by intros [? _]]]].
      case_bool_decide as Hmore; simpl.
      * case_bool_decide as Hslash2; simpl;
          [|split; [intros; lia|intros _; split; [done|by intros [_ ?]]]].
        match goal with |- context [Lexer.skipComment ?f ?x] =>
          destruct (skipComment_stops f x ltac:(simpl; lia))
            as (Hcs & Hcp & Hcrun & Hcmove & _);
          destruct (Lexer.skipComment f x) as [[] lx1] end.
        simpl in Hcs, Hcp, Hcrun, Hcmove.
        assert (charAt (Lexer.source lx) (Lexer.pos lx) ≠ newline) as Hnn
          by (unfold charAt in *; by rewrite Hslash).
        specialize (Hcmove ltac:(lia) Hnn).
        pose proof (skipWhitespaceAndComments_loop_movedOn fuel lx1) as [Hsrc Hpos].
        destruct (IH lx1) as (Hrun & Hstop); [rewrite Hcs; lia|].
        rewrite Hcs in *. split; [|done].
        intros i Hi. destruct (decide (i < Lexer.pos lx1)%nat) as [Hlt|Hge].
        -- right. exists (Lexer.pos lx). split_and!; [lia|done|done|].
           intros m Hm. apply Hcrun. lia.
        -- apply Hrun. lia.
      * split; [intros; lia|]. intros _. split; [done|]. intros [_ Hnext].
        rewrite charAt_past_end in Hnext by lia. done.
Qed.

(** X21.  Between tokens the lexer skips whitespace and [//] comments and
    nothing else: every character that it passes over is a whitespace
    character or lies in a comment, and it stops at the end of the source or
    at a character that is neither whitespace nor the first slash of a [//].
    A comment runs up to, and not including, the next newline. *)
Theorem only_whitespace_and_comments_are_skipped (lx : Lexer.t) :
  let src := Lexer.source lx in
  let lx' := (Lexer.skipWhitespaceAndComments lx).2 in
  Lexer.source lx' = src
  ∧ (Lexer.pos lx ≤ Lexer.pos lx')%nat
  ∧ (∀ i, (Lexer.pos lx ≤ i < Lexer.pos lx')%nat →
          isspace (charAt src i) = true ∨ inComment src i)
  ∧ ((Lexer.pos lx' < String.length src)%nat →
     isspace (charAt src (Lexer.pos lx')) = false
     ∧ ¬ (charAt src (Lexer.pos lx') = "/"%char ∧ charAt src (S (Lexer.pos lx')) = "/"%char)).
Proof.
  cbv zeta. unfold Lexer.skipWhitespaceAndComments. lexer_unfold.
  pose proof (skipWhitespaceAndComments_loop_movedOn (String.length (Lexer.source lx)) lx)
    as [Hsrc Hpos].
  destruct (skipWhitespaceAndComments_loop_stops (String.length (Lexer.source lx)) lx
              ltac:(lia)) as [Hrun Hstop].
  split_and!; [done|lia|done|done].
Qed.

(** ** Progress and termination of the parser *)

Lemma delivers_ret {A} (Q : A → Parser.t → Prop) x p : Q x p → delivers Q (mret x) p.
Proof. done. Qed.

Lemma delivers_throw {A} (Q : A → Parser.t → Prop) (what : string) p :
  delivers Q (mthrow what) p.
Proof. done. Qed.

Lemma delivers_bind {A B} (Q : B → Parser.t → Prop) (m : Parser.M A) (f : A → Parser.M B) p :
  delivers (λ x p', delivers Q (f x) p') m p → delivers Q (m ≫= f) p.
Proof. unfold delivers, mbind, Parser.M_bind. by destruct (m p). Qed.

Lemma delivers_mono {A} (Q Q' : A → Parser.t → Prop) (m : Parser.M A) p :
  delivers Q m p → (∀ x p', Q x p' → Q' x p') → delivers Q' m p.
Proof. unfold delivers. destruct (m p); auto. Qed.

Lemma advancedBy_refl p : inBounds p → advancedBy 0 p p.
Proof. intros ?. split_and!; [done|lia|done]. Qed.

Lemma peek_spec p : delivers (λ _ p', p' = p) Parser.peek p.
Proof. done. Qed.

Lemma previous_spec p : delivers (λ _ p', p' = p) Parser.previous p.
Proof. done. Qed.

(** Not at the end: a token stands at the index. *)
Lemma isAtEnd_spec p :
  delivers (λ atEnd p', p' = p ∧ Parser.isAtEnd p = Parser.Ok atEnd p
                        ∧ (atEnd = false →
                           (Parser.current p < length (Parser.tokens p))%nat))
    Parser.isAtEnd p.
Proof.
  unfold delivers, Parser.isAtEnd, Parser.peek, mbind, mret, Parser.M_bind, Parser.M_ret.
  split; [done|]. split; [done|]. intros Hend%bool_decide_eq_false.
  destruct (Parser.tokens p !! Parser.current p) eqn:Hlookup; [|done].
  by eapply lookup_lt_Some.
Qed.

Lemma check_spec ty p :
  delivers (λ found p', p' = p
                        ∧ (found = true →
                           Parser.isAtEnd p = Parser.Ok false p
                           ∧ (Parser.current p < length (Parser.tokens p))%nat))
    (Parser.check ty) p.
Proof.
  unfold Parser.check. apply delivers_bind.
  eapply delivers_mono; [apply isAtEnd_spec|]. intros [] p' (-> & Hend & Hin); simpl.
  - by split.
  - split; [done|]. auto.
Qed.

Lemma check_any_spec tys p :
  delivers (λ found p', p' = p
                        ∧ (found = true →
                           Parser.isAtEnd p = Parser.Ok false p
                           ∧ (Parser.current p < length (Parser.tokens p))%nat))
    (Parser.check_any tys) p.
Proof.
  induction tys as [|ty tys IH]; [by split|].
  simpl. apply delivers_bind.
  eapply delivers_mono; [apply check_spec|]. intros [] p' [-> Hin]; [by split|done].
Qed.

(** Away from the end [advance] moves on by one token. *)
Lemma advance_spec p :
  Parser.isAtEnd p = Parser.Ok false p →
  (Parser.current p < length (Parser.tokens p))%nat →
  delivers (λ _ p', advancedBy 1 p p') Parser.advance p.
Proof.
  intros Hend Hin. unfold delivers, Parser.advance, mbind, Parser.M_bind. rewrite Hend.
  simpl. split_and!; simpl; [done|lia|unfold inBounds; simpl; lia].
Qed.

(** A token that [match] or [consume] has found is consumed. *)
Lemma match__spec ty p :
  delivers (λ found p', if found : bool then advancedBy 1 p p' else p' = p)
    (Parser.match_ ty) p.
Proof.
  unfold Parser.match_. apply delivers_bind.
  eapply delivers_mono; [apply check_spec|]. intros [] p' [-> Hin]; [|done].
  destruct (Hin eq_refl) as [Hend Hlt]. apply delivers_bind.
  eapply delivers_mono; [by apply advance_spec|]. by intros ? p2 H.
Qed.

Lemma match_any_spec tys p :
  delivers (λ found p', if found : bool then advancedBy 1 p p' else p' = p)
    (Parser.match_any tys) p.
Proof.
  induction tys as [|ty tys IH]; [done|].
  simpl. apply delivers_bind.
  eapply delivers_mono; [apply match__spec|]. intros [] p' H; [done|].
  rewrite H. apply IH.
Qed.

Lemma consume_spec ty (message : string) p :
  delivers (λ _ p', advancedBy 1 p p') (Parser.consume ty message) p.
Proof.
  unfold Parser.consume. apply delivers_bind.
  eapply delivers_mono; [apply check_spec|]. intros [] p' [-> Hin].
  - destruct (Hin eq_refl) as [Hend Hlt]. by apply advance_spec.
  - done.
Qed.

Ltac bounds :=
  unfold advancedBy, inBounds, tokensLeft in *; destruct_and?; split_and?;
  first
    [ congruence
    | repeat match goal with
             | H : Parser.tokens _ = Parser.tokens _ |- _ => apply (f_equal length) in H
             end;
      lia ].

(** One step through a parsing function: a bind, a return, a throw, a
    primitive or a branch. *)
Ltac pstep :=
  lazymatch goal with
  | |- delivers _ (_ ≫= _) _ => apply delivers_bind
  | |- delivers _ (mret _) _ => apply delivers_ret
  | |- delivers _ (mthrow _) _ => apply delivers_throw
  | |- delivers _ (Parser.match_ _) _ =>
      eapply delivers_mono; [apply match__spec|];
      let H := fresh "Hm" in intros [] ? H; [|rewrite H; clear H]
  | |- delivers _ (Parser.match_any _) _ =>
      eapply delivers_mono; [apply match_any_spec|];
      let H := fresh "Hm" in intros [] ? H; [|rewrite H; clear H]
  | |- delivers _ (Parser.check _) _ =>
      eapply delivers_mono; [apply check_spec|];
      let H := fresh "Hc" in let H' := fresh "Hc" in
      intros [] ? [H H']; rewrite H; clear H; [specialize (H' eq_refl) as [_ H']|clear H']
  | |- delivers _ (Parser.check_any _) _ =>
      eapply delivers_mono; [apply check_any_spec|];
      let H := fresh "Hc" in let H' := fresh "Hc" in
      intros [] ? [H H']; rewrite H; clear H; [specialize (H' eq_refl) as [_ H']|clear H']
  | |- delivers _ (Parser.consume _ _) _ =>
      eapply delivers_mono; [apply consume_spec|];
      let H := fresh "Hm" in intros ? ? H
  | |- delivers _ Parser.previous _ =>
      eapply delivers_mono; [apply previous_spec|];
      let H := fresh "Hp" in intros ? ? H; rewrite H; clear H
  | |- delivers _ Parser.peek _ =>
      eapply delivers_mono; [apply peek_spec|];
      let H := fresh "Hp" in intros ? ? H; rewrite H; clear H
  | |- delivers _ Parser.isAtEnd _ =>
      eapply delivers_mono; [apply isAtEnd_spec|];
      let H := fresh "Hp" in intros ? ? [H _]; rewrite H; clear H
  | |- delivers _ (if ?b then _ else _) _ => destruct b
  | |- delivers _ (match ?o with Some _ => _ | None => _ end) _ => destruct o
  end.

Lemma parseParameters_spec fuel params p :
  inBounds p → (1 + tokensLeft p ≤ fuel)%nat →
  delivers (λ _ p', advancedBy 1 p p') (Parser.parseParameters fuel params) p.
Proof.
  revert params p. induction fuel as [|fuel IH]; intros params p Hb Hfuel; [bounds|].
  simpl. do 2 pstep. do 2 pstep.
  - eapply delivers_mono; [apply IH; bounds|]. intros ? ? ?. bounds.
  - pstep. bounds.
Qed.

(** The loop of a binary level: every iteration consumes an operator and an
    operand. *)
Lemma binaryLevel_spec fuel ops operand left p :
  inBounds p →
  (∀ p1, advancedBy 0 p p1 → delivers (λ _ p2, advancedBy 1 p1 p2) operand p1) →
  (1 + tokensLeft p ≤ fuel)%nat →
  delivers (λ _ p', advancedBy 0 p p') (Parser.binaryLevel fuel ops operand left) p.
Proof.
  revert left p. induction fuel as [|fuel IH]; intros left p Hb Hoperand Hfuel; [bounds|].
  simpl. do 2 pstep.
  - do 2 pstep. pstep.
    eapply delivers_mono; [apply Hoperand; bounds|]. intros right p2 H2.
    eapply delivers_mono; [apply IH|].
    + bounds.
    + intros p3 H3. eapply delivers_mono; [apply Hoperand; bounds|].
      intros ? ? ?. bounds.
    + bounds.
    + intros ? ? ?. bounds.
  - pstep. bounds.
Qed.

(** A call of a parsing function for which the induction hypothesis holds,
    a loop, or one step. *)
Ltac pcall :=
  lazymatch goal with
  | H : parses _ _ _ ?m |- delivers _ ?m _ =>
      eapply delivers_mono; [apply H; bounds|]; intros ? ? ?
  | H : ∀ x, parses _ _ _ (?f x) |- delivers _ (?f ?y) _ =>
      eapply delivers_mono; [apply (H y); bounds|]; intros ? ? ?
  | |- delivers _ (Parser.parseParameters _ _) _ =>
      eapply delivers_mono; [apply parseParameters_spec; bounds|]; intros ? ? ?
  | |- delivers _ (Parser.binaryLevel _ _ _ _) _ =>
      eapply delivers_mono;
      [apply binaryLevel_spec;
       [bounds
       |intros ? ?;
        lazymatch goal with
        | H : parses _ _ _ ?m |- delivers _ ?m _ =>
            eapply delivers_mono; [apply H; bounds|]; intros ? ? ?; bounds
        end
       |bounds]
      |]; intros ? ? ?
  end.

Ltac pauto := repeat first [pstep | pcall]; try bounds.

Lemma parsingFunctionsEnd_all fuel : parsingFunctionsEnd fuel.
Proof.
  induction fuel as [|fuel IH].
  - unfold parsingFunctionsEnd, parses. split_and!; intros; bounds.
  - destruct IH as (IHprimary & IHpostfix_loop & IHpostfix & IHunary & IHfactor & IHterm
                    & IHcomparison & IHequality & IHand & IHor & IHassignment
                    & IHexpression & IHlist & IHmembers & IHexpressionStatement
                    & IHreturn & IHvariable & IHfunction & IHif & IHloop
                    & IHstatement & IHstatements).
    unfold parsingFunctionsEnd. split_and!; unfold parses; intros; simpl; pauto.
Qed.

(** X22.  Given the fuel of its rank and sixteen units for every token
    left, [parseStatement] comes to an end, and so does [parseExpression]:
    each returns or throws.  When it returns, the parser has the same tokens,
    has consumed at least one of them and stands within the token list or
    just behind it: no statement and no expression is parsed from nothing,
    which is why the loops that call them end. *)
Theorem parsing_a_statement_consumes_a_token (fuel : nat) (p : Parser.t) :
  inBounds p →
  (13 + 16 * tokensLeft p ≤ fuel)%nat →
  delivers (λ _ p', advancedBy 1 p p') (Parser.parseStatement fuel) p
  ∧ delivers (λ _ p', advancedBy 1 p p') (Parser.parseExpression fuel) p.
Proof.
  intros Hb Hfuel.
  destruct (parsingFunctionsEnd_all fuel)
    as (_ & _ & _ & _ & _ & _ & _ & _ & _ & _ & _ & Hexpression & _ & _ & _ & _ & _ & _
        & _ & _ & Hstatement & _).
  split; [by apply Hstatement|]. apply Hexpression; [done|lia].
Qed.

(** The statement [x = 1;] parsed from the tokens of [x = 1; y]. *)
Lemma parsing_a_statement_consumes_a_token_witness :
  inBounds (Parser.new (Lexer.tokenize "x = 1; y"))
  ∧ (13 + 16 * tokensLeft (Parser.new (Lexer.tokenize "x = 1; y")) ≤ 200)%nat
  ∧ delivers (λ _ p', advancedBy 1 (Parser.new (Lexer.tokenize "x = 1; y")) p')
      (Parser.parseStatement 200) (Parser.new (Lexer.tokenize "x = 1; y")).
Proof.
  assert (inBounds (Parser.new (Lexer.tokenize "x = 1; y"))) as Hb
    by (vm_compute; lia).
  assert (13 + 16 * tokensLeft (Parser.new (Lexer.tokenize "x = 1; y")) ≤ 200)%nat as Hfuel
    by (vm_compute; lia).
  split; [exact Hb|]. split; [exact Hfuel|].
  exact (proj1 (parsing_a_statement_consumes_a_token 200 _ Hb Hfuel)).
Defined.

Lemma parse_loop_spec fuel stmts p :
  inBounds p → (14 + 16 * tokensLeft p ≤ fuel)%nat →
  delivers (λ _ p', advancedBy 0 p p' ∧ Parser.isAtEnd p' = Parser.Ok true p')
    (Parser.parse_loop fuel stmts) p.
Proof.
  revert stmts p. induction fuel as [|fuel IH]; intros stmts p Hb Hfuel; [bounds|].
  destruct (parsingFunctionsEnd_all fuel)
    as (_ & _ & _ & _ & _ & _ & _ & _ & _ & _ & _ & _ & _ & _ & _ & _ & _ & _
        & _ & _ & Hstatement & _).
  simpl. apply delivers_bind.
  eapply delivers_mono; [apply isAtEnd_spec|]. intros [] p' (-> & Hend & Hin).
  - apply delivers_ret. split; [by apply advancedBy_refl|done].
  - apply delivers_bind. unfold delivers at 1, Parser.peek.
    case_bool_decide as Heof.
    + apply delivers_ret. split; [by apply advancedBy_refl|].
      unfold Parser.isAtEnd, Parser.peek, mbind, mret, Parser.M_bind, Parser.M_ret.
      by rewrite bool_decide_eq_true_2.
    + apply delivers_bind.
      eapply delivers_mono; [apply Hstatement; bounds|]. intros stmt p1 H1.
      eapply delivers_mono; [apply IH; bounds|]. intros program p2 [H2 Hend2].
      split; [bounds|done].
Qed.

(** X23.  The parser comes to an end on every token list: [parse] returns a
    program or throws, within the bound that the model puts on the depth of
    its recursion, so the front end passes, fails or stops with a fatal
    error on every source text.  A parser that has returned a program stands
    at an [EOF_TOKEN] or behind the last token: nothing is left unparsed. *)
Theorem parsing_comes_to_an_end (toks : list Token.t) (code : string) :
  Parser.parseTokens toks ≠ Parser.OutOfFuel
  ∧ (∀ program p,
       Parser.parseTokens toks = Parser.Ok program p →
       Parser.tokens p = toks
       ∧ (Parser.current p ≤ length toks)%nat
       ∧ Parser.isAtEnd p = Parser.Ok true p)
  ∧ run code ≠ Unbounded.
Proof.
  assert (∀ toks, delivers (λ _ p', advancedBy 0 (Parser.new toks) p'
                                    ∧ Parser.isAtEnd p' = Parser.Ok true p')
                    (Parser.parse (32 * S (length toks))) (Parser.new toks)) as Hparse.
  { intros toks'. apply parse_loop_spec; unfold inBounds, tokensLeft; simpl; lia. }
  split_and!.
  - pose proof (Hparse toks) as H. unfold delivers in H. unfold Parser.parseTokens.
    by destruct (Parser.parse _ _).
  - intros program p Hok. pose proof (Hparse toks) as H. unfold delivers in H.
    unfold Parser.parseTokens in Hok. rewrite Hok in H.
    destruct H as [(Htoks & _ & Hb) Hend]. split_and!; [done| |done].
    unfold inBounds in Hb. by rewrite Htoks in Hb.
  - pose proof (Hparse (Lexer.tokenize code)) as H. unfold delivers in H.
    unfold run, Parser.parseTokens.
    destruct (Parser.parse _ _); [|done|done].
    by destruct (analyze _ _) as [[] ?].
Qed.

(** ** Identifiers and keywords *)

Lemma keywords_not_IDENTIFIER value kw :
  Lexer.keywords !! value = Some kw → kw ≠ TokenType.IDENTIFIER.
Proof.
  unfold Lexer.keywords. intros H%elem_of_list_to_map_2.
  repeat (apply elem_of_cons in H as [[= -> ->]|H]; [done|]).
  by apply elem_of_nil in H.
Qed.

Lemma scanIdentifierOrKeyword_IDENTIFIER lx :
  (Lexer.pos lx < String.length (Lexer.source lx))%nat →
  (let c := charAt (Lexer.source lx) (Lexer.pos lx) in
   isalpha c || bool_decide (c = "_"%char)) = true →
  Token.type (Lexer.scanIdentifierOrKeyword lx).1 = TokenType.IDENTIFIER →
  Lexer.keywords !! Token.value (Lexer.scanIdentifierOrKeyword lx).1 = None
  ∧ ∃ rest,
      Token.value (Lexer.scanIdentifierOrKeyword lx).1
      = String (charAt (Lexer.source lx) (Lexer.pos lx)) rest.
Proof.
  intros Hin Hstart. pose proof (scanIdentifierOrKeyword_movedOn lx Hin Hstart) as [_ Hmoved].
  revert Hmoved. unfold Lexer.scanIdentifierOrKeyword. lexer_unfold.
  match goal with |- context [Lexer.scanWhile ?n ?f ?o ?v lx] =>
    destruct (scanWhile_span n f o v lx ltac:(lia)) as (k & Hvalue & Hrun);
    destruct (Lexer.scanWhile n f o v lx) as [value lx1] end.
  destruct Hrun as (_ & Hpos & _). simpl in Hvalue, Hpos.
  destruct (Lexer.keywords !! value) as [kw|] eqn:Hkw; simpl; intros Hmoved Htype.
  - by apply keywords_not_IDENTIFIER in Hkw.
  - split; [done|]. destruct k as [|k]; [lia|].
    rewrite (substring_next _ _ k _ (get_in_range _ _ Hin)) in Hvalue.
    subst value. by eexists.
Qed.

Lemma nextToken_IDENTIFIER (lx : Lexer.t) :
  Token.type (Lexer.nextToken lx).1 = TokenType.IDENTIFIER →
  Lexer.keywords !! Token.value (Lexer.nextToken lx).1 = None
  ∧ ∃ c rest,
      Token.value (Lexer.nextToken lx).1 = String c rest
      ∧ (isalpha c || bool_decide (c = "_"%char)) = true.
Proof.
  destruct (Lexer.nextToken lx) as [tok lx'] eqn:Hnt. cbn [fst]. intros Htype.
  unfold Lexer.nextToken in Hnt.
  unfold mbind at 1, Lexer.M_bind at 1 in Hnt.
  destruct (Lexer.skipWhitespaceAndComments lx) as [[] lx1].
  unfold mbind at 1, Lexer.M_bind at 1, Lexer.get at 1 in Hnt.
  case_bool_decide as Hend; [by injection Hnt as <- <-|].
  unfold mbind at 1, Lexer.M_bind at 1, Lexer.at_ at 1 in Hnt.
  set (ch := default zero (String.get (Lexer.pos lx1) (Lexer.source lx1))) in Hnt.
  set (lx2 := Lexer.mk _ _ _ _ _) in Hnt.
  case_bool_decide.
  { pose proof (scanString_type ch lx2) as Ht. rewrite Hnt in Ht. simpl in Ht. congruence. }
  destruct (isdigit ch).
  { pose proof (scanNumber_type lx2) as Ht. rewrite Hnt in Ht. simpl in Ht. congruence. }
  destruct (isalpha ch || bool_decide (ch = "_"%char)) eqn:Hstart.
  { destruct (scanIdentifierOrKeyword_IDENTIFIER lx2) as (Hkw & rest & Hvalue).
    - subst lx2. simpl. lia.
    - done.
    - by rewrite Hnt.
    - rewrite Hnt in Hkw, Hvalue. simpl in Hkw, Hvalue. split; [done|].
      by exists ch, rest. }
  exfalso.
  unfold mbind at 1, Lexer.M_bind at 1, Lexer.incr_pos at 1 in Hnt.
  unfold mbind at 1, Lexer.M_bind at 1, Lexer.incr_column at 1 in Hnt.
  repeat (case_bool_decide;
          [first [ injection Hnt as <- <-; discriminate
                 | match type of Hnt with
                   | Lexer.lookahead ?n ?t2 ?s2 ?t1 ?s1 ?l ?c ?x = _ =>
                       destruct (lookahead_type n t2 s2 t1 s1 l c x) as [E|E];
                       rewrite Hnt in E; simpl in E; congruence
                   end]|]).
  injection Hnt as <- <-; discriminate.
Qed.

(** X24.  A token of type [IDENTIFIER] never carries the text of a keyword:
    its text is not in the keyword table, and it starts with a letter or an
    underscore.  The eleven keywords, [band], [dekh] and [lou] among them,
    are therefore never available to the parser as names. *)
Theorem identifier_tokens_are_not_keywords (lx : Lexer.t) :
  Token.type (Lexer.nextToken lx).1 = TokenType.IDENTIFIER →
  Lexer.keywords !! Token.value (Lexer.nextToken lx).1 = None
  ∧ ∃ c rest,
      Token.value (Lexer.nextToken lx).1 = String c rest
      ∧ (isalpha c || bool_decide (c = "_"%char)) = true.
Proof. apply nextToken_IDENTIFIER. Qed.

(** The source [bandar]: an identifier, although it starts like [band]. *)
Lemma identifier_tokens_are_not_keywords_witness :
  Token.type (Lexer.nextToken (Lexer.new "bandar")).1 = TokenType.IDENTIFIER
  ∧ Lexer.keywords !! Token.value (Lexer.nextToken (Lexer.new "bandar")).1 = None.
Proof.
  assert (Token.type (Lexer.nextToken (Lexer.new "bandar")).1 = TokenType.IDENTIFIER) as Htype
    by (by vm_compute).
  split; [exact Htype|].
  exact (proj1 (identifier_tokens_are_not_keywords (Lexer.new "bandar") Htype)).
Defined.

(** ** Line numbers *)

Lemma newlinesBefore_same (s : string) (a b : nat) :
  (a ≤ b)%nat → (∀ i, (a ≤ i < b)%nat → charAt s i ≠ newline) →
  newlinesBefore s b = newlinesBefore s a.
Proof.
  induction b as [|b IH]; intros Hab Hrun.
  - by replace a with 0 by lia.
  - destruct (decide (a = S b)) as [->|Hne]; [done|].
    simpl. rewrite bool_decide_eq_false_2 by (apply Hrun; lia).
    rewrite IH; [lia|lia|]. intros i Hi. apply Hrun. lia.
Qed.

(** [count_char] on the character at the position, then [pos++]. *)
Lemma countsLines_count_char lx lx0 lx1 :
  countsLines lx →
  Lexer.source lx0 = Lexer.source lx → Lexer.pos lx0 = Lexer.pos lx →
  Lexer.line lx0 = Lexer.line lx →
  Lexer.count_char (charAt (Lexer.source lx) (Lexer.pos lx)) lx0 = ((), lx1) →
  countsLines (Lexer.mk (Lexer.source lx1) (S (Lexer.pos lx1)) (Lexer.line lx1)
                 (Lexer.column lx1) (Lexer.accessed lx1)).
Proof.
  unfold countsLines, Lexer.count_char. intros H Hsrc Hpos Hline.
  case_bool_decide as Hnl; intros [= <-]; simpl; rewrite Hsrc, Hpos, Hline, H.
  - rewrite bool_decide_eq_true_2 by done. rewrite wrap_int_add_l. f_equal. lia.
  - rewrite bool_decide_eq_false_2 by done. f_equal. lia.
Qed.

(** Moving over characters none of which is a newline. *)
Lemma countsLines_moved lx lx' :
  countsLines lx →
  Lexer.source lx' = Lexer.source lx → Lexer.line lx' = Lexer.line lx →
  (Lexer.pos lx ≤ Lexer.pos lx')%nat →
  (∀ i, (Lexer.pos lx ≤ i < Lexer.pos lx')%nat → charAt (Lexer.source lx) i ≠ newline) →
  countsLines lx'.
Proof.
  unfold countsLines. intros H Hsrc Hline Hpos Hrun.
  by rewrite Hline, Hsrc, (newlinesBefore_same _ _ _ Hpos Hrun).
Qed.

Lemma skipComment_line fuel lx : Lexer.line (Lexer.skipComment fuel lx).2 = Lexer.line lx.
Proof.
  revert lx. induction fuel as [|fuel IH]; intros lx; [done|].
  simpl. lexer_unfold. case_bool_decide; [|done]. simpl.
  case_bool_decide; [|done]. simpl.
  match goal with |- Lexer.line (Lexer.skipComment fuel ?x).2 = _ => by rewrite (IH x) end.
Qed.

Lemma skipComment_countsLines fuel lx :
  (String.length (Lexer.source lx) - Lexer.pos lx ≤ fuel)%nat →
  countsLines lx → countsLines (Lexer.skipComment fuel lx).2.
Proof.
  intros Hfuel H. destruct (skipComment_stops fuel lx Hfuel) as (Hsrc & Hpos & Hrun & _).
  eapply countsLines_moved; [exact H|done|apply skipComment_line|done|done].
Qed.

Lemma skipWhitespaceAndComments_loop_countsLines fuel lx :
  countsLines lx → countsLines (Lexer.skipWhitespaceAndComments_loop fuel lx).2.
Proof.
  revert lx. induction fuel as [|fuel IH]; intros lx H; [done|].
  simpl. lexer_unfold. case_bool_decide as Hin; [|done]. simpl.
  fold (charAt (Lexer.source lx) (Lexer.pos lx)).
  destruct (isspace _); simpl.
  - match goal with |- context [Lexer.count_char ?c ?x] =>
      destruct (Lexer.count_char c x) as [[] lx1] eqn:Hcount end.
    apply IH. by eapply (countsLines_count_char lx); [..|exact Hcount].
  - case_bool_decide; simpl; [|done].
    case_bool_decide as Hmore; simpl; [|done].
    case_bool_decide; simpl; [|done].
    match goal with |- context [Lexer.skipComment ?f ?x] =>
      pose proof (skipComment_countsLines f x ltac:(simpl; lia) ltac:(done)) as Hc;
      destruct (Lexer.skipComment f x) as [[] lx1] end.
    by apply IH.
Qed.

Lemma scanString_loop_countsLines fuel quote value lx :
  countsLines lx → countsLines (Lexer.scanString_loop fuel quote value lx).2.
Proof.
  revert value lx. induction fuel as [|fuel IH]; intros value lx H; [done|].
  simpl. lexer_unfold. case_bool_decide as Hin; [|done]. simpl.
  fold (charAt (Lexer.source lx) (Lexer.pos lx)).
  case_bool_decide; simpl; [|done].
  match goal with |- context [Lexer.count_char ?c ?x] =>
    destruct (Lexer.count_char c x) as [[] lx1] eqn:Hcount end.
  apply IH. by eapply (countsLines_count_char lx); [..|exact Hcount].
Qed.

Lemma digit_not_newline c : (isdigit c || bool_decide (c = "."%char)) = true → c ≠ newline.
Proof. intros H ->. by vm_compute in H. Qed.

Lemma word_not_newline c : (isalnum c || bool_decide (c = "_"%char)) = true → c ≠ newline.
Proof. intros H ->. by vm_compute in H. Qed.

Lemma not_space_not_newline c : isspace c = false → c ≠ newline.
Proof. intros H ->. by vm_compute in H. Qed.

Lemma longestRun_countsLines accepts lx lx' k :
  (∀ c, accepts c = true → c ≠ newline) →
  longestRun accepts lx lx' k → countsLines lx → countsLines lx'.
Proof.
  intros Hacc (Hsrc & Hpos & Hline & _ & Hrun & _) H.
  eapply countsLines_moved; [exact H|done|done|lia|].
  intros i Hi. replace i with (Lexer.pos lx + (i - Lexer.pos lx))%nat by lia.
  apply Hacc, Hrun. lia.
Qed.

Lemma scanNumber_countsLines lx : countsLines lx → countsLines (Lexer.scanNumber lx).2.
Proof.
  unfold Lexer.scanNumber. lexer_unfold.
  match goal with |- context [Lexer.scanWhile ?n ?f ?o ?v lx] =>
    destruct (scanWhile_span n f o v lx ltac:(lia)) as (k & _ & Hrun);
    destruct (Lexer.scanWhile n f o v lx) as [value lx1] end.
  simpl in *. revert Hrun. apply longestRun_countsLines, digit_not_newline.
Qed.

Lemma scanIdentifierOrKeyword_countsLines lx :
  countsLines lx → countsLines (Lexer.scanIdentifierOrKeyword lx).2.
Proof.
  unfold Lexer.scanIdentifierOrKeyword. lexer_unfold.
  match goal with |- context [Lexer.scanWhile ?n ?f ?o ?v lx] =>
    destruct (scanWhile_span n f o v lx ltac:(lia)) as (k & _ & Hrun);
    destruct (Lexer.scanWhile n f o v lx) as [value lx1] end.
  simpl in *. intros H.
  assert (countsLines lx1)
    by (revert Hrun H; apply longestRun_countsLines, word_not_newline).
  by destruct (Lexer.keywords !! value).
Qed.

(** One character that is not a newline is passed. *)
Lemma countsLines_step lx column accessed :
  countsLines lx → charAt (Lexer.source lx) (Lexer.pos lx) ≠ newline →
  countsLines (Lexer.mk (Lexer.source lx) (S (Lexer.pos lx)) (Lexer.line lx) column accessed).
Proof.
  unfold countsLines. simpl. intros -> Hc. rewrite bool_decide_eq_false_2 by done.
  f_equal. lia.
Qed.

Lemma lookahead_countsLines next two twoText one oneText tokenLine tokenCol lx :
  next ≠ newline → countsLines lx →
  countsLines (Lexer.lookahead next two twoText one oneText tokenLine tokenCol lx).2.
Proof.
  intros Hnext H. unfold Lexer.lookahead. lexer_unfold. simpl.
  case_bool_decide as Hc; simpl; [|done].
  apply (countsLines_step lx); [done|]. unfold charAt. by rewrite Hc.
Qed.

Lemma scanString_countsLines quote lx :
  quote ≠ newline → charAt (Lexer.source lx) (Lexer.pos lx) = quote →
  countsLines lx → countsLines (Lexer.scanString quote lx).2.
Proof.
  intros Hquote Hopen H. unfold Lexer.scanString. lexer_unfold. simpl.
  match goal with |- context [Lexer.scanString_loop ?f quote ?v ?x] =>
    assert (countsLines x) as Hx by (apply (countsLines_step lx); [done|by rewrite Hopen]);
    pose proof (scanString_loop_countsLines f quote v x Hx) as Hloop;
    destruct (scanString_loop_span f quote v x ltac:(simpl; lia))
      as (k & _ & Hsrc & Hpos & _ & Hstop);
    destruct (Lexer.scanString_loop f quote v x) as [value lx1] end.
  simpl in *. case_bool_decide as Hin; simpl; [|done].
  apply (countsLines_step lx1); [done|].
  rewrite Hsrc, Hpos, Hstop; [done|]. rewrite <- Hpos, <- Hsrc. lia.
Qed.

Lemma nextToken_countsLines lx : countsLines lx → countsLines (Lexer.nextToken lx).2.
Proof.
  intros H. unfold Lexer.nextToken.
  unfold mbind at 1, Lexer.M_bind at 1.
  pose proof (skipWhitespaceAndComments_loop_countsLines
                (String.length (Lexer.source lx)) lx H) as H1.
  destruct (skipWhitespaceAndComments_loop_stops (String.length (Lexer.source lx)) lx
              ltac:(lia)) as [_ Hstop].
  pose proof (skipWhitespaceAndComments_loop_movedOn (String.length (Lexer.source lx)) lx)
    as [Hsrc _].
  change (Lexer.skipWhitespaceAndComments_loop _ lx)
    with (Lexer.skipWhitespaceAndComments lx) in H1, Hstop, Hsrc.
  destruct (Lexer.skipWhitespaceAndComments lx) as [[] lx1]. cbn [snd] in *.
  unfold mbind at 1, Lexer.M_bind at 1, Lexer.get at 1.
  case_bool_decide as Hend; [done|].
  unfold mbind at 1, Lexer.M_bind at 1, Lexer.at_ at 1.
  fold (charAt (Lexer.source lx1) (Lexer.pos lx1)).
  set (ch := charAt (Lexer.source lx1) (Lexer.pos lx1)).
  set (lx2 := Lexer.mk _ _ _ _ _).
  assert (countsLines lx2) as H2 by done.
  assert (isspace ch = false) as Hspace.
  { rewrite <- Hsrc in Hstop. apply Hstop. lia. }
  case_bool_decide as Hq.
  { apply scanString_countsLines; [|done|done]. by destruct Hq as [->| ->]. }
  destruct (isdigit ch); [by apply scanNumber_countsLines|].
  destruct (isalpha ch || bool_decide (ch = "_"%char));
    [by apply scanIdentifierOrKeyword_countsLines|].
  unfold mbind at 1, Lexer.M_bind at 1, Lexer.incr_pos at 1.
  unfold mbind at 1, Lexer.M_bind at 1, Lexer.incr_column at 1.
  set (lx3 := Lexer.mk _ _ _ _ _).
  assert (countsLines lx3) as H3.
  { apply (countsLines_step lx2); [done|]. by apply not_space_not_newline. }
  repeat (case_bool_decide; [first [done | by apply lookahead_countsLines]|]).
  done.
Qed.

Lemma scanString_position quote lx :
  Token.line (Lexer.scanString quote lx).1 = Lexer.line lx
  ∧ Token.column (Lexer.scanString quote lx).1 = Lexer.column lx.
Proof.
  unfold Lexer.scanString. lexer_unfold. simpl.
  destruct (Lexer.scanString_loop _ _ _ _) as [value lx3]. simpl. by case_bool_decide.
Qed.

Lemma scanNumber_position lx :
  Token.line (Lexer.scanNumber lx).1 = Lexer.line lx
  ∧ Token.column (Lexer.scanNumber lx).1 = Lexer.column lx.
Proof.
  unfold Lexer.scanNumber. lexer_unfold. by destruct (Lexer.scanWhile _ _ _ _ _) as [value lx3].
Qed.

Lemma scanIdentifierOrKeyword_position lx :
  Token.line (Lexer.scanIdentifierOrKeyword lx).1 = Lexer.line lx
  ∧ Token.column (Lexer.scanIdentifierOrKeyword lx).1 = Lexer.column lx.
Proof.
  unfold Lexer.scanIdentifierOrKeyword. lexer_unfold.
  destruct (Lexer.scanWhile _ _ _ _ _) as [value lx3]. by destruct (Lexer.keywords !! value).
Qed.

Lemma lookahead_position next two twoText one oneText tokenLine tokenCol lx :
  Token.line (Lexer.lookahead next two twoText one oneText tokenLine tokenCol lx).1 = tokenLine
  ∧ Token.column (Lexer.lookahead next two twoText one oneText tokenLine tokenCol lx).1
    = tokenCol.
Proof. unfold Lexer.lookahead. lexer_unfold. simpl. by case_bool_decide. Qed.

Lemma nextToken_position lx :
  Token.line (Lexer.nextToken lx).1 = Lexer.line (Lexer.skipWhitespaceAndComments lx).2
  ∧ Token.column (Lexer.nextToken lx).1 = Lexer.column (Lexer.skipWhitespaceAndComments lx).2.
Proof.
  destruct (Lexer.nextToken lx) as [tok lx'] eqn:Hnt. cbn [fst].
  unfold Lexer.nextToken in Hnt.
  unfold mbind at 1, Lexer.M_bind at 1 in Hnt.
  destruct (Lexer.skipWhitespaceAndComments lx) as [[] lx1]. cbn [snd].
  unfold mbind at 1, Lexer.M_bind at 1, Lexer.get at 1 in Hnt.
  case_bool_decide as Hend; [by injection Hnt as <- <-|].
  unfold mbind at 1, Lexer.M_bind at 1, Lexer.at_ at 1 in Hnt.
  set (ch := default zero (String.get (Lexer.pos lx1) (Lexer.source lx1))) in Hnt.
  set (lx2 := Lexer.mk _ _ _ _ _) in Hnt.
  case_bool_decide.
  { pose proof (scanString_position ch lx2) as H'. by rewrite Hnt in H'. }
  destruct (isdigit ch).
  { pose proof (scanNumber_position lx2) as H'. by rewrite Hnt in H'. }
  destruct (isalpha ch || bool_decide (ch = "_"%char)).
  { pose proof (scanIdentifierOrKeyword_position lx2) as H'. by rewrite Hnt in H'. }
  unfold mbind at 1, Lexer.M_bind at 1, Lexer.incr_pos at 1 in Hnt.
  unfold mbind at 1, Lexer.M_bind at 1, Lexer.incr_column at 1 in Hnt.
  repeat (case_bool_decide;
          [first [ by injection Hnt as <- <-
                 | match type of Hnt with
                   | Lexer.lookahead ?n ?t2 ?s2 ?t1 ?s1 ?l ?c ?x = _ =>
                       pose proof (lookahead_position n t2 s2 t1 s1 l c x) as H';
                       by rewrite Hnt in H'
                   end]|]).
  by injection Hnt as <- <-.
Qed.

(** X25.  The line counter is exact within the width of [int]: after any
    number of calls of [nextToken] the line of the lexer is one more than the
    number of newlines before its position, wrapped around to 32 bits, and
    so exactly one more as long as fewer than [2 ^ 31 - 1] newlines have
    been passed.  The token that the next call returns carries the line and
    the column that the lexer has once it has skipped the whitespace and the
    comments before the token. *)
Theorem line_numbers_count_newlines (src : string) (k : nat) :
  let lx := afterCalls k src in
  let start := (Lexer.skipWhitespaceAndComments lx).2 in
  Lexer.line lx = wrap_int (1 + Z.of_nat (newlinesBefore src (Lexer.pos lx)))
  ∧ Token.line (Lexer.nextToken lx).1
    = wrap_int (1 + Z.of_nat (newlinesBefore src (Lexer.pos start)))
  ∧ Token.column (Lexer.nextToken lx).1 = Lexer.column start
  ∧ ((Z.of_nat (newlinesBefore src (Lexer.pos lx)) < 2 ^ 31 - 1)%Z →
     Lexer.line lx = (1 + Z.of_nat (newlinesBefore src (Lexer.pos lx)))%Z)
  ∧ ((Z.of_nat (newlinesBefore src (Lexer.pos start)) < 2 ^ 31 - 1)%Z →
     Token.line (Lexer.nextToken lx).1
     = (1 + Z.of_nat (newlinesBefore src (Lexer.pos start)))%Z).
Proof.
  intros lx start.
  assert (countsLines lx ∧ Lexer.source lx = src) as [H Hsrc].
  { subst lx. induction k as [|k [IH IHsrc]]; [done|].
    unfold afterCalls. rewrite Nat.iter_succ. fold (afterCalls k src).
    split; [by apply nextToken_countsLines|].
    destruct (Lexer.nextToken (afterCalls k src)) as [tok lx1] eqn:Hnt.
    apply nextToken_movedOn in Hnt as [Hs _]. simpl. by rewrite Hs. }
  destruct (nextToken_position lx) as [Hline Hcolumn].
  pose proof (skipWhitespaceAndComments_loop_countsLines
                (String.length (Lexer.source lx)) lx H) as Hstart.
  pose proof (skipWhitespaceAndComments_loop_movedOn (String.length (Lexer.source lx)) lx)
    as [Hsrc' _].
  change (Lexer.skipWhitespaceAndComments_loop _ lx)
    with (Lexer.skipWhitespaceAndComments lx) in Hstart, Hsrc'.
  fold start in Hstart, Hsrc', Hline, Hcolumn.
  unfold countsLines in *.
  assert (Lexer.line lx = wrap_int (1 + Z.of_nat (newlinesBefore src (Lexer.pos lx))))
    as Hlx by (by rewrite H, Hsrc).
  assert (Token.line (Lexer.nextToken lx).1
          = wrap_int (1 + Z.of_nat (newlinesBefore src (Lexer.pos start)))) as Htok
    by (by rewrite Hline, Hstart, Hsrc', Hsrc).
  split_and!; [done|done|done| |].
  - intros Hfew. rewrite Hlx. apply wrap_int_small. lia.
  - intros Hfew. rewrite Htok. apply wrap_int_small. lia.
Qed.

(** ** Global bindings that are never shadowed *)

Lemma update_from_sameOrInitialized l n l' :
  SymbolTable.update_from l n = Some l' → Forall2 sameOrInitialized l l'.
Proof.
  assert (∀ l0, Forall2 sameOrInitialized l0 l0) as Hrefl
    by (intros l0; apply Forall_Forall2_diag, Forall_forall; intros ? _ ?; by left).
  revert l'. induction l as [|sc l IH]; intros l'; simpl; [done|].
  destruct (sc !! n) as [s|] eqn:Hn.
  - intros [= <-]. constructor; [|apply Hrefl].
    intros m. destruct (decide (m = n)) as [->|Hne].
    + right. by rewrite lookup_insert_eq, Hn.
    + left. by rewrite lookup_insert_ne.
  - destruct (SymbolTable.update_from l n) as [l0|]; simpl; [|done].
    intros [= <-]. constructor; [by left|by apply IH].
Qed.

Lemma update_sameOrInitialized n tbl :
  Forall2 sameOrInitialized (SymbolTable.scopes tbl)
    (SymbolTable.scopes (SymbolTable.update n tbl).2).
Proof.
  unfold SymbolTable.update.
  destruct (SymbolTable.update_from _ _) as [l'|] eqn:Hu; cbn [snd SymbolTable.scopes].
  - apply update_from_sameOrInitialized, Forall2_reverse in Hu.
    by rewrite reverse_involutive in Hu.
  - apply Forall_Forall2_diag, Forall_forall. intros ? _ ?. by left.
Qed.

Section GlobalOnly.

Variable P : Symbol → Prop.
Variable b : string.

(** [P] does not depend on the [isInitialized] flag being set. *)
Hypothesis P_flag : ∀ sym, P sym → P (set_isInitialized sym).

(** The signature that a declaration of a function [b] binds satisfies [P]. *)
Let signatureHolds : Prop :=
  ∀ params ret, P (mkSymbol b DataType.VOID true true params ret).

Lemma globalOnly_lookup tbl :
  globalOnly P b tbl → ∃ sym, SymbolTable.lookup b tbl = Some sym ∧ P sym.
Proof.
  intros (g & inner & sym & Hs & Hb & Hf & Hinner). exists sym. split; [|done].
  destruct tbl as [l]. cbn [SymbolTable.scopes] in Hs. subst l.
  rewrite lookup_cons.
  assert (SymbolTable.lookup b (SymbolTable.mk inner) = None) as ->; [|done].
  unfold SymbolTable.lookup. cbn [SymbolTable.scopes].
  apply Forall_reverse in Hinner.
  induction Hinner as [|sc l Hsc _ IH]; simpl; [done|]. by rewrite Hsc.
Qed.

Lemma globalOnly_update m tbl :
  globalOnly P b tbl → globalOnly P b (SymbolTable.update m tbl).2.
Proof.
  intros (g & inner & sym & Hs & Hb & Hf & Hinner).
  pose proof (update_sameOrInitialized m tbl) as H. rewrite Hs in H.
  apply Forall2_cons_inv_l in H as (g' & inner' & Hg & Hin & Hs').
  assert (Forall (λ sc, sc !! b = None) inner') as Hinner'.
  { clear Hs Hs'. induction Hin as [|sc sc' l l' Hsc _ IH]; [done|].
    apply Forall_cons in Hinner as [Hnone Hinner]. constructor; [|by apply IH].
    destruct (Hsc b) as [Hsame|Hsame]; rewrite Hsame, Hnone; done. }
  destruct (Hg b) as [Hsame|Hsame]; rewrite Hb in Hsame.
  - by exists g', inner', sym.
  - exists g', inner', (set_isInitialized sym). split_and!; [done|done|by apply P_flag|done].
Qed.

Lemma globalOnly_define m ty isFunc isInit tbl :
  m ≠ b → globalOnly P b tbl →
  globalOnly P b (SymbolTable.define m ty isFunc isInit tbl).2.
Proof.
  intros Hne (g & inner & sym & Hs & Hb & Hf & Hinner). destruct tbl as [l].
  cbn [SymbolTable.scopes] in Hs. subst l. destruct inner as [|cur outer _] using rev_ind.
  - pose proof (define_innermost [] g m ty isFunc isInit) as Hd. cbn [app] in Hd.
    rewrite Hd. destruct (g !! m) eqn:Hm; cbn [snd].
    + by exists g, [], sym.
    + exists (<[m := Symbol_ m ty isFunc isInit]> g), [], sym.
      split_and!; [done|by rewrite lookup_insert_ne|done|done].
  - rewrite app_comm_cons, define_innermost. destruct (cur !! m); cbn [snd].
    + by exists g, (outer ++ [cur]), sym.
    + exists g, (outer ++ [<[m := Symbol_ m ty isFunc isInit]> cur]), sym.
      split_and!; [done..|].
      apply Forall_app in Hinner as [Houter Hcur]. rewrite Forall_singleton in Hcur.
      apply Forall_app. split; [done|]. apply Forall_singleton.
      by rewrite lookup_insert_ne.
Qed.

Lemma globalOnly_addFunctionSignature f params ret tbl :
  (f = b → signatureHolds) →
  globalOnly P b tbl →
  globalOnly P b (SymbolTable.addFunctionSignature f params ret tbl).
Proof.
  intros Hsig (g & inner & sym & Hs & Hb & Hf & Hinner).
  unfold SymbolTable.addFunctionSignature.
  rewrite Hs. destruct (decide (f = b)) as [->|Hne].
  - eexists _, inner, _. split_and!; [done|by rewrite lookup_insert_eq|by apply Hsig|done].
  - eexists _, inner, sym. split_and!; [done|by rewrite lookup_insert_ne|done|done].
Qed.

Lemma globalOnly_enterScope tbl :
  globalOnly P b tbl → globalOnly P b (SymbolTable.enterScope tbl).
Proof.
  intros (g & inner & sym & Hs & Hb & Hf & Hinner). exists g, (inner ++ [∅]), sym.
  unfold SymbolTable.enterScope. cbn [SymbolTable.scopes]. rewrite Hs.
  split_and!; [done..|]. apply Forall_app. split; [done|]. by apply Forall_singleton.
Qed.

Lemma globalOnly_exitScope tbl :
  globalOnly P b tbl → globalOnly P b (SymbolTable.exitScope tbl).
Proof.
  intros (g & inner & sym & Hs & Hb & Hf & Hinner). unfold SymbolTable.exitScope.
  case_decide as Hlen; [|by exists g, inner, sym].
  rewrite Hs in *. destruct inner as [|sc inner _] using rev_ind; simpl in Hlen; [lia|].
  exists g, inner, sym. rewrite app_comm_cons, removelast_snoc.
  apply Forall_app in Hinner as [Hinner _]. done.
Qed.

Lemma globalOnly_expression e a :
  globalOnly P b (symbolTable a) →
  globalOnly P b (symbolTable (analyzeExpression e a).2).
Proof.
  apply (analyzeExpression_keepsTable (globalOnly P b)).
  intros ??. apply globalOnly_update.
Qed.

Lemma globalOnly_defineParameters params a :
  b ∉ params → globalOnly P b (symbolTable a) →
  globalOnly P b (symbolTable (defineParameters params a)).
Proof.
  unfold defineParameters. revert a. induction params as [|q params IH]; intros a Hb H; [done|].
  simpl. apply IH; [set_solver|]. cbn [symbolTable with_symbolTable].
  apply globalOnly_define; [set_solver|done].
Qed.

(** What the induction over a statement proves. *)
Let kept (s : Statement) : Prop :=
  ∀ a, b ∉ declaredVariables s → (b ∈ functionNames s → signatureHolds) →
       globalOnly P b (symbolTable a) →
       globalOnly P b (symbolTable (analyzeStatement s a)).

Lemma globalOnly_block block :
  Forall kept block →
  ∀ a, b ∉ flat_map declaredVariables block →
       (b ∈ flat_map functionNames block → signatureHolds) →
       globalOnly P b (symbolTable a) →
       globalOnly P b (symbolTable (analyzeBlock analyzeStatement block a)).
Proof.
  unfold analyzeBlock. induction 1 as [|s block Hs _ IH]; intros a Hb Hsig H; [done|].
  simpl in *. apply IH; [set_solver|set_solver|]. apply Hs; [set_solver|set_solver|done].
Qed.

Lemma globalOnly_scopedBlock block a :
  Forall kept block →
  b ∉ flat_map declaredVariables block →
  (b ∈ flat_map functionNames block → signatureHolds) →
  globalOnly P b (symbolTable a) →
  globalOnly P b
    (symbolTable (exited (analyzeBlock analyzeStatement block (entered a)))).
Proof.
  intros Hblock Hb Hsig H. cbn [exited symbolTable with_symbolTable].
  apply globalOnly_exitScope, (globalOnly_block block Hblock); [done|done|].
  cbn [entered symbolTable with_symbolTable]. by apply globalOnly_enterScope.
Qed.

Lemma globalOnly_statement s : kept s.
Proof.
  induction s as [n init|f params body IH|c th el IHth IHel|c body IH|v|e]
    using Statement_nested_ind; intros a Hb Hsig H;
    cbn [analyzeStatement declaredVariables functionNames] in *.
  - unfold analyzeVariableDeclaration.
    assert (∃ ty a1, (match init with
                      | Some e => analyzeExpression e a
                      | None => (DataType.UNKNOWN, a)
                      end) = (ty, a1) ∧ globalOnly P b (symbolTable a1))
      as (ty & a1 & -> & H1).
    { destruct init as [e|]; [|by eexists _, _].
      pose proof (globalOnly_expression e a H).
      destruct (analyzeExpression e a) as [ty a1]. by exists ty, a1. }
    pose proof (globalOnly_define n ty false true (symbolTable a1)
                  ltac:(set_solver) H1) as Hd.
    destruct (SymbolTable.define n ty false true (symbolTable a1)) as [[] tbl]; done.
  - unfold analyzeFunctionDeclaration. cbv zeta.
    cbn [symbolTable with_symbolTable with_function_context].
    apply globalOnly_exitScope, (globalOnly_block body IH); [set_solver|set_solver|].
    apply globalOnly_defineParameters; [set_solver|].
    cbn [symbolTable with_symbolTable with_function_context].
    apply globalOnly_enterScope, globalOnly_addFunctionSignature; [|done].
    intros ->. apply Hsig. set_solver.
  - unfold analyzeIfStatement.
    pose proof (globalOnly_expression c a H) as Hc.
    destruct (analyzeExpression c a) as [condType a1]. cbn [snd] in Hc.
    set (a2 := if bool_decide _ then _ else a1).
    assert (globalOnly P b (symbolTable a2)) as H2 by (unfold a2; by case_bool_decide).
    clearbody a2. fold (entered a2).
    fold (exited (analyzeBlock analyzeStatement th (entered a2))).
    pose proof (globalOnly_scopedBlock th a2 IHth ltac:(set_solver) ltac:(set_solver) H2)
      as H3.
    destruct el as [|s0 el]; [done|].
    set (a3 := exited _) in *. fold (entered a3).
    apply (globalOnly_scopedBlock (s0 :: el) a3 IHel); [set_solver|set_solver|done].
  - unfold analyzeLoopStatement.
    pose proof (globalOnly_expression c a H) as Hc.
    destruct (analyzeExpression c a) as [condType a1]. cbn [snd] in Hc.
    set (a2 := if bool_decide _ then _ else a1).
    assert (globalOnly P b (symbolTable a2)) as H2 by (unfold a2; by case_bool_decide).
    clearbody a2. fold (entered a2).
    apply (globalOnly_scopedBlock body a2 IH); [set_solver|set_solver|done].
  - unfold analyzeReturnStatement. destruct (inFunction a); cbn [negb]; [|done].
    destruct v as [e|]; [by apply globalOnly_expression|done].
  - by apply globalOnly_expression.
Qed.

End GlobalOnly.

(** ** Declared names come from identifier tokens *)

Lemma namesAmong_variable ids n init :
  n ∈ ids → namesAmong ids (VariableDeclaration n init).
Proof. intros ?. split; simpl; [by constructor|constructor]. Qed.

Lemma namesAmong_block ids block :
  Forall (namesAmong ids) block →
  Forall (.∈ ids) (flat_map declaredVariables block)
  ∧ Forall (.∈ ids) (flat_map functionNames block).
Proof.
  induction 1 as [|s block [Hv Hf] _ [IHv IHf]]; simpl; [by split|].
  split; by apply Forall_app.
Qed.

Lemma namesAmong_function ids f params body :
  f ∈ ids → Forall (.∈ ids) params → Forall (namesAmong ids) body →
  namesAmong ids (FunctionDeclaration f params body).
Proof.
  intros Hf Hparams [Hv Hn]%namesAmong_block. split; simpl.
  - by apply Forall_app.
  - by constructor.
Qed.

Lemma namesAmong_if ids c thenBranch elseBranch :
  Forall (namesAmong ids) thenBranch → Forall (namesAmong ids) elseBranch →
  namesAmong ids (IfStatement c thenBranch elseBranch).
Proof.
  intros [Hv Hn]%namesAmong_block [Hv' Hn']%namesAmong_block.
  split; simpl; by apply Forall_app.
Qed.

Lemma namesAmong_loop ids c body :
  Forall (namesAmong ids) body → namesAmong ids (LoopStatement c body).
Proof. by intros [Hv Hn]%namesAmong_block. Qed.

Lemma namesAmong_return ids v : namesAmong ids (ReturnStatement v).
Proof. split; constructor. Qed.

Lemma namesAmong_expression ids e : namesAmong ids (ExpressionStatement e).
Proof. split; constructor. Qed.

Lemma namesAmong_push ids stmts stmt :
  Forall (namesAmong ids) stmts → from_option (namesAmong ids) True stmt →
  Forall (namesAmong ids) (Parser.push_statement stmts stmt).
Proof.
  intros Hs H. destruct stmt as [s|]; simpl; [|done].
  apply Forall_app. split; [done|]. by apply Forall_singleton.
Qed.

(** The token that [consume] returns is the one that stood at the index. *)
Lemma consume_token_spec ty (message : string) p :
  delivers (λ tok p', advancedBy 1 p p'
                      ∧ (ty = TokenType.IDENTIFIER →
                         Token.value tok ∈ identifierNames (Parser.tokens p)))
    (Parser.consume ty message) p.
Proof.
  pose proof (consume_spec ty message p) as Hmoved. revert Hmoved.
  unfold delivers, Parser.consume, Parser.check, Parser.isAtEnd, Parser.peek, Parser.advance,
    Parser.previous, mbind, mret, Parser.M_bind, Parser.M_ret.
  destruct (Parser.tokens p !! Parser.current p) as [tok|] eqn:Hlookup; simpl.
  - destruct (decide (Token.type tok = TokenType.EOF_TOKEN)) as [Hend|Hend].
    { by rewrite (bool_decide_eq_true_2 _ Hend). }
    rewrite (bool_decide_eq_false_2 _ Hend). simpl. rewrite Hlookup.
    destruct (decide (Token.type tok = ty)) as [Hty|Hty].
    + rewrite (bool_decide_eq_true_2 _ Hty). simpl.
      rewrite Hlookup, (bool_decide_eq_false_2 _ Hend). simpl.
      rewrite Nat.sub_0_r, Hlookup. simpl. intros Hmoved. split; [done|].
      intros Hid. unfold identifierNames. apply list_elem_of_fmap. exists tok.
      split; [done|]. apply list_elem_of_filter. split; [congruence|].
      by eapply list_elem_of_lookup_2.
    + by rewrite (bool_decide_eq_false_2 _ Hty).
  - done.
Qed.

Section DeclaredNames.

Variable toks : list Token.t.

Let ids := identifierNames toks.

Lemma parseParameters_names fuel params p :
  Parser.tokens p = toks → Forall (.∈ ids) params →
  inBounds p → (1 + tokensLeft p ≤ fuel)%nat →
  delivers (λ x p', advancedBy 1 p p' ∧ Forall (.∈ ids) x)
    (Parser.parseParameters fuel params) p.
Proof.
  revert params p. induction fuel as [|fuel IH]; intros params p Htoks Hparams Hb Hfuel;
    [bounds|].
  simpl. apply delivers_bind.
  eapply delivers_mono; [apply consume_token_spec|]. intros tok p1 [H1 Hid].
  specialize (Hid eq_refl). rewrite Htoks in Hid.
  assert (Forall (.∈ ids) (params ++ [Token.value tok])) as Hparams'
    by (apply Forall_app; split; [done|by apply Forall_singleton]).
  do 2 pstep.
  - eapply delivers_mono; [apply IH; [bounds|done|bounds|bounds]|].
    intros ? ? [? ?]. split; [bounds|done].
  - pstep. split; [bounds|done].
Qed.

(** One step through a parsing function for statements. *)
Ltac nstep :=
  lazymatch goal with
  | |- delivers _ (Parser.consume _ _) _ =>
      eapply delivers_mono; [apply consume_token_spec|];
      let H := fresh "Hm" in let Hid := fresh "Hid" in
      intros ? ? [H Hid];
      first [ specialize (Hid eq_refl);
              replace (Parser.tokens _) with toks in Hid by bounds
            | clear Hid ]
  | H : parsesTo _ _ _ _ _ ?m |- delivers _ ?m _ =>
      eapply delivers_mono; [apply H; bounds|]; intros ? ? [? ?]
  | H : ∀ stmts, _ → parsesTo _ _ _ _ _ (?f stmts) |- delivers _ (?f ?y) _ =>
      eapply delivers_mono; [apply (H y); [by eauto using namesAmong_push|bounds..]|]; intros ? ? [? ?]
  | |- delivers _ (Parser.parseParameters _ _) _ =>
      eapply delivers_mono; [apply parseParameters_names; [bounds|done|bounds..]|];
      intros ? ? [? ?]
  | |- _ => first [pstep | pcall]
  end.

Lemma parsingFunctionsName_all fuel : parsingFunctionsName toks ids fuel.
Proof.
  induction fuel as [|fuel IH].
  - unfold parsingFunctionsName, parsesTo. split_and!; intros; bounds.
  - destruct IH as (IHexpressionStatement & IHreturn & IHvariable & IHfunction & IHif
                    & IHloop & IHstatement & IHstatements).
    destruct (parsingFunctionsEnd_all fuel)
      as (_ & _ & _ & _ & _ & _ & _ & _ & _ & _ & _ & IHexpression & _).
    unfold parsingFunctionsName. split_and!; unfold parsesTo; intros; simpl;
      repeat nstep;
      (split;
       [bounds
       |simpl;
        eauto using namesAmong_variable, namesAmong_function, namesAmong_if, namesAmong_loop,
          namesAmong_return, namesAmong_expression, namesAmong_push, Forall_nil_2]).
Qed.

Lemma parse_loop_names fuel stmts p :
  Parser.tokens p = toks → Forall (namesAmong ids) stmts →
  inBounds p → (14 + 16 * tokensLeft p ≤ fuel)%nat →
  delivers (λ program _, Forall (namesAmong ids) (statements program))
    (Parser.parse_loop fuel stmts) p.
Proof.
  revert stmts p. induction fuel as [|fuel IH]; intros stmts p Htoks Hstmts Hb Hfuel;
    [bounds|].
  destruct (parsingFunctionsName_all fuel) as (_ & _ & _ & _ & _ & _ & Hstatement & _).
  simpl. apply delivers_bind.
  eapply delivers_mono; [apply isAtEnd_spec|]. intros [] p' (-> & Hend & Hin).
  - by apply delivers_ret.
  - apply delivers_bind. unfold delivers at 1, Parser.peek.
    case_bool_decide as Heof; [by apply delivers_ret|].
    apply delivers_bind.
    eapply delivers_mono; [apply Hstatement; [done|bounds..]|]. intros stmt p1 [H1 Hstmt].
    apply IH; [bounds|by apply namesAmong_push|bounds..].
Qed.

End DeclaredNames.

Lemma parseTokens_names toks program p :
  Parser.parseTokens toks = Parser.Ok program p →
  Forall (namesAmong (identifierNames toks)) (statements program).
Proof.
  intros Hok.
  pose proof (parse_loop_names toks (32 * S (length toks)) [] (Parser.new toks)
                eq_refl ltac:(constructor)) as H.
  unfold delivers in H. unfold Parser.parseTokens, Parser.parse in Hok. rewrite Hok in H.
  apply H; unfold inBounds, tokensLeft; simpl; lia.
Qed.

(** ** Names of a parsed program *)

Lemma tokenize_loop_Forall (P : Token.t → Prop) :
  (∀ lx, P (Lexer.nextToken lx).1) →
  ∀ fuel acc lx, Forall P acc → Forall P (Lexer.tokenize_loop fuel acc lx).1.
Proof.
  intros Hnext. induction fuel as [|fuel IH]; intros acc lx Hacc; simpl;
    unfold mbind, Lexer.M_bind; pose proof (Hnext lx) as Htok;
    destruct (Lexer.nextToken lx) as [token lx1]; cbn [fst] in Htok;
    assert (Forall P (acc ++ [token]))
      by (apply Forall_app; split; [done|by apply Forall_singleton]).
  - by case_bool_decide.
  - case_bool_decide; [by apply IH|done].
Qed.

(** No identifier token of a source text carries the text of a keyword. *)
Lemma tokenize_identifiers code :
  Forall (λ n, Lexer.keywords !! n = None) (identifierNames (Lexer.tokenize code)).
Proof.
  unfold identifierNames, Lexer.tokenize.
  apply (proj2 (Forall_fmap _ _ _)), (proj2 (Forall_forall _ _)).
  intros tok [Htype Hin]%list_elem_of_filter. simpl.
  assert (Forall (λ tok, Token.type tok = TokenType.IDENTIFIER
                         → Lexer.keywords !! Token.value tok = None)
            (Lexer.tokenize_loop (String.length code) [] (Lexer.new code)).1) as Hall.
  { apply tokenize_loop_Forall; [|constructor].
    intros lx Hty. by apply nextToken_IDENTIFIER. }
  rewrite Forall_forall in Hall. by apply Hall.
Qed.

Lemma namesAmong_not_declared ids block n :
  Forall (namesAmong ids) block → n ∉ ids →
  (n ∉ flat_map declaredVariables block) ∧ (n ∉ flat_map functionNames block).
Proof.
  intros [Hv Hf]%namesAmong_block Hn. rewrite Forall_forall in Hv, Hf.
  split; intros Hin; [apply Hv in Hin|apply Hf in Hin]; done.
Qed.

Lemma parseSource_names code program :
  parseSource code = Some program →
  Forall (namesAmong (identifierNames (Lexer.tokenize code))) (statements program).
Proof.
  unfold parseSource. destruct (Parser.parseTokens _) as [program' p| |] eqn:Hok; [|done..].
  intros [= <-]. by eapply parseTokens_names.
Qed.

(** X26.  Every name that a program built from a source text declares, as a
    variable, a parameter or a function and at any depth, is the text of an
    [IDENTIFIER] token of that source, and therefore not a keyword: no
    program that the front end accepts declares [band], [dekh], [lou] or
    another keyword. *)
Theorem declared_names_are_identifiers (code : string) (program : Program) (n : string) :
  parseSource code = Some program →
  n ∈ flat_map declaredVariables (statements program)
      ++ flat_map functionNames (statements program) →
  n ∈ identifierNames (Lexer.tokenize code) ∧ Lexer.keywords !! n = None.
Proof.
  intros Hparse Hn.
  assert (n ∈ identifierNames (Lexer.tokenize code)) as Hid.
  { apply parseSource_names, namesAmong_block in Hparse as [Hv Hf].
    rewrite Forall_forall in Hv, Hf. apply elem_of_app in Hn as [Hn|Hn]; auto. }
  split; [done|].
  pose proof (tokenize_identifiers code) as Hkw. rewrite Forall_forall in Hkw. auto.
Qed.

(** The parameter [a], the variable [x] and the function [f] of
    [kaam f(a) { banao x = 1; }]. *)
Lemma declared_names_are_identifiers_witness :
  parseSource "kaam f(a) { banao x = 1; }"
  = Some (mkProgram [FunctionDeclaration "f" ["a"]
                       [VariableDeclaration "x" (Some (NumberLiteral "1"))]])
  ∧ "x" ∈ identifierNames (Lexer.tokenize "kaam f(a) { banao x = 1; }")
  ∧ Lexer.keywords !! "x" = None.
Proof.
  assert (parseSource "kaam f(a) { banao x = 1; }"
          = Some (mkProgram [FunctionDeclaration "f" ["a"]
                               [VariableDeclaration "x" (Some (NumberLiteral "1"))]]))
    as Hparse by (by vm_compute).
  split; [exact Hparse|].
  apply (declared_names_are_identifiers _ _ "x" Hparse).
  cbn. by repeat constructor.
Defined.

(** X27.  A name that the global scope binds to a function, that no scope
    further in binds and that a statement does not declare as a variable or
    a parameter at any depth is in the same position after the statement:
    looked up then, it is still a function.  The statement may declare a
    function of that name. *)
Theorem function_name_stays_function (b : string) (s : Statement) (a : SemanticAnalyzer) :
  b ∉ declaredVariables s →
  globalOnly (λ sym, isFunction sym = true) b (symbolTable a) →
  globalOnly (λ sym, isFunction sym = true) b (symbolTable (analyzeStatement s a))
  ∧ ∃ sym, SymbolTable.lookup b (symbolTable (analyzeStatement s a)) = Some sym
           ∧ isFunction sym = true.
Proof.
  intros Hb H.
  assert (globalOnly (λ sym, isFunction sym = true) b (symbolTable (analyzeStatement s a)))
    as H' by (by apply globalOnly_statement).
  split; [done|]. by apply globalOnly_lookup in H'.
Qed.

(** The builtin [abs] across a declaration of a function [abs] with a
    parameter [x]. *)
Lemma function_name_stays_function_witness :
  ("abs" ∉ declaredVariables (FunctionDeclaration "abs" ["x"] []))
  ∧ globalOnly (λ sym, isFunction sym = true) "abs" (symbolTable newAnalyzer)
  ∧ ∃ sym,
      SymbolTable.lookup "abs"
        (symbolTable (analyzeStatement (FunctionDeclaration "abs" ["x"] []) newAnalyzer))
      = Some sym
      ∧ isFunction sym = true.
Proof.
  assert ("abs" ∉ declaredVariables (FunctionDeclaration "abs" ["x"] [])) as Hb
    by (cbn; set_solver).
  assert (globalOnly (λ sym, isFunction sym = true) "abs" (symbolTable newAnalyzer)) as H.
  { eexists _, [], _. split_and!; [reflexivity|by vm_compute|done|constructor]. }
  split; [exact Hb|]. split; [exact H|].
  exact (proj2 (function_name_stays_function "abs" _ newAnalyzer Hb H)).
Defined.

(** X28.  An initialized symbol that the global scope binds to a name, with
    no scope further in binding that name, is left as it is by every
    statement that does not declare the name, as a variable, a parameter or
    a function at any depth: the statement may use the name, assign to it
    and call it, and the name then resolves to the very same symbol. *)
Theorem undeclared_global_binding_is_kept (b : string) (sym : Symbol) (s : Statement)
    (a : SemanticAnalyzer) :
  isInitialized sym = true →
  b ∉ declaredVariables s ++ functionNames s →
  globalOnly (λ sym', sym' = sym) b (symbolTable a) →
  globalOnly (λ sym', sym' = sym) b (symbolTable (analyzeStatement s a))
  ∧ SymbolTable.lookup b (symbolTable (analyzeStatement s a)) = Some sym.
Proof.
  intros Hinit Hb H.
  assert (globalOnly (λ sym', sym' = sym) b (symbolTable (analyzeStatement s a))) as H'.
  { apply globalOnly_statement; [|set_solver|set_solver|done].
    intros sym' ->. by destruct sym; simplify_eq/=. }
  split; [done|]. by apply globalOnly_lookup in H' as (? & ? & ->).
Qed.

(** The builtin [lou] across [banao x = lou("n");]. *)
Lemma undeclared_global_binding_is_kept_witness :
  ("lou" ∉ declaredVariables
             (VariableDeclaration "x" (Some (FunctionCall "lou" [StringLiteral "n"])))
           ++ functionNames
                (VariableDeclaration "x" (Some (FunctionCall "lou" [StringLiteral "n"]))))
  ∧ globalOnly
      (λ sym',
         sym' = mkSymbol "lou" DataType.VOID true true [DataType.STRING] DataType.NUMBER)
      "lou" (symbolTable newAnalyzer)
  ∧ SymbolTable.lookup "lou"
      (symbolTable
         (analyzeStatement
            (VariableDeclaration "x" (Some (FunctionCall "lou" [StringLiteral "n"])))
            newAnalyzer))
    = Some (mkSymbol "lou" DataType.VOID true true [DataType.STRING] DataType.NUMBER).
Proof.
  assert ("lou" ∉ declaredVariables
                    (VariableDeclaration "x" (Some (FunctionCall "lou" [StringLiteral "n"])))
                  ++ functionNames
                       (VariableDeclaration "x"
                          (Some (FunctionCall "lou" [StringLiteral "n"])))) as Hb
    by (cbn; set_solver).
  assert (globalOnly
            (λ sym',
               sym' = mkSymbol "lou" DataType.VOID true true [DataType.STRING]
                        DataType.NUMBER)
            "lou" (symbolTable newAnalyzer)) as H.
  { eexists _, [], _. split_and!; [reflexivity|by vm_compute|done|constructor]. }
  split; [exact Hb|]. split; [exact H|].
  exact (proj2 (undeclared_global_binding_is_kept "lou"
                  (mkSymbol "lou" DataType.VOID true true [DataType.STRING] DataType.NUMBER)
                  _ newAnalyzer eq_refl Hb H)).
Defined.

(** X29.  In a program built from a source text the builtins whose names
    are keywords, [dekh], [lou] and [band], cannot be redeclared or
    shadowed: before and after every top-level statement, and when the
    analysis is over, each of them resolves to the signature that
    [initBuiltins] gave it. *)
Theorem keyword_builtins_keep_their_signatures (code : string) (program : Program)
    (b : string) (k : nat) :
  parseSource code = Some program →
  b ∈ keywordBuiltins →
  is_Some (SymbolTable.lookup b SymbolTable.new)
  ∧ SymbolTable.lookup b
      (symbolTable
         (analyzeBlock analyzeStatement (take k (statements program)) newAnalyzer))
    = SymbolTable.lookup b SymbolTable.new
  ∧ SymbolTable.lookup b (symbolTable (analyze program newAnalyzer).2)
    = SymbolTable.lookup b SymbolTable.new.
Proof.
  intros Hparse Hb.
  assert (Lexer.keywords !! b ≠ None
          ∧ ∃ sym, isInitialized sym = true
                   ∧ SymbolTable.lookup b SymbolTable.new = Some sym
                   ∧ globalOnly (λ sym', sym' = sym) b SymbolTable.new)
    as (Hkw & sym & Hinit & Hnew & Hglobal).
  { unfold keywordBuiltins in Hb.
    repeat (apply elem_of_cons in Hb as [->|Hb]);
      [| | |by apply elem_of_nil in Hb];
      (split; [by vm_compute|]); eexists;
      (split_and!; [|by vm_compute|eexists _, [], _; split_and!;
                                   [reflexivity|by vm_compute|reflexivity|constructor]]);
      done. }
  assert (b ∉ identifierNames (Lexer.tokenize code)) as Hid.
  { intros Hin. pose proof (tokenize_identifiers code) as Hall.
    rewrite Forall_forall in Hall. by apply Hall in Hin. }
  apply parseSource_names in Hparse.
  assert (∀ block, Forall (namesAmong (identifierNames (Lexer.tokenize code))) block →
                   globalOnly (λ sym', sym' = sym) b
                     (symbolTable (analyzeBlock analyzeStatement block newAnalyzer)))
    as Hblock.
  { intros block Hnames.
    destruct (namesAmong_not_declared _ block b Hnames Hid) as [Hv Hf].
    apply (globalOnly_block (λ sym', sym' = sym) b); [| |done|done|done].
    - intros sym' ->. by destruct sym; simplify_eq/=.
    - apply Forall_forall. intros s _ a Hvs Hfs Ha.
      apply (globalOnly_statement (λ sym', sym' = sym) b); [|done..].
      intros sym' ->. by destruct sym; simplify_eq/=. }
  rewrite Hnew. split; [done|]. split.
  - destruct (globalOnly_lookup _ _ _ (Hblock _ (Forall_take _ k _ Hparse)))
      as (? & ? & ->); done.
  - destruct (globalOnly_lookup _ _ _ (Hblock _ Hparse)) as (? & Hl & ->).
    unfold analyze. by destruct (SymbolTable.lookup "main" _).
Qed.

(** [band] after the two statements of [banao x = 1; band();]. *)
Lemma keyword_builtins_keep_their_signatures_witness :
  parseSource "banao x = 1; band();"
  = Some (mkProgram [VariableDeclaration "x" (Some (NumberLiteral "1"));
                     ExpressionStatement (FunctionCall "band" [])])
  ∧ "band" ∈ keywordBuiltins
  ∧ SymbolTable.lookup "band"
      (symbolTable
         (analyze (mkProgram [VariableDeclaration "x" (Some (NumberLiteral "1"));
                              ExpressionStatement (FunctionCall "band" [])])
            newAnalyzer).2)
    = SymbolTable.lookup "band" SymbolTable.new.
Proof.
  assert (parseSource "banao x = 1; band();"
          = Some (mkProgram [VariableDeclaration "x" (Some (NumberLiteral "1"));
                             ExpressionStatement (FunctionCall "band" [])]))
    as Hparse by (by vm_compute).
  assert ("band" ∈ keywordBuiltins) as Hb
    by (unfold keywordBuiltins; by repeat constructor).
  split; [exact Hparse|]. split; [exact Hb|].
  exact (proj2 (proj2 (keyword_builtins_keep_their_signatures _ _ "band" 0 Hparse Hb))).
Defined.
